(** * re-driftbottle: the bulletin operations over the content store

    A shallow embedding of the command handlers of the plugin (the
    latest revision, the one with [commentCount], [isHot] and the asset
    storage modes) and of the startup pass that precedes them.

    The handlers are asynchronous JavaScript functions that talk to
    three collaborators: the database ([ctx.database]), the chat
    transport ([session.bot.sendMessage], [session.send],
    [session.prompt], the guild and friend iterators) and the host
    ([ctx.sleep], [ctx.http], the file system).  They are written here in
    a state monad over a [World]: the two tables, the asset files, the
    in-memory message map and the messages that went out.  Everything a
    handler cannot decide by itself (does this send throw, was the plugin
    disposed during this wait, what did the user answer, which bottle did
    [Random.int] pick, what did the fetch return) is read from an [Env],
    indexed by a counter of such interactions, so a run is a function of
    the environment and can be evaluated.

    Calls that the source wraps in [try]/[catch] can fail in the model.
    Of the calls it leaves unguarded, [session.send] and the database are
    taken to return; [unlinkSync] on a file that is not there, [src] read
    off an element that has none and [new RegExp] on a pattern that is no
    regular expression throw, and the handler ends there with [Uncaught].
    Logger calls are left out. *)

From Stdlib Require Import Ascii ZArith Lia.
From stdpp Require Import base decidable option list gmap strings pretty sorting.

Local Open Scope Z_scope.
Local Open Scope string_scope.
Local Open Scope list_scope.

(** ** JavaScript values *)

(** The numbers a [commentCount] can hold: an integer, or the [NaN] that
    [undefined++] leaves in the startup count table. *)
Inductive jsnum :=
  | Num (z : Z)
  | NaN.

#[global] Instance jsnum_eq_dec : EqDecision jsnum.
Proof. solve_decision. Defined.

(** [x + 1] *)
Definition js_succ (x : jsnum) : jsnum :=
  match x with
  | Num z => Num (z + 1)
  | NaN => NaN
  end.

(** What the unary [+] makes of a string argument. *)
Inductive Numeric :=
  | NotANumber
  | Integral (z : Z)
  | Fractional.

#[global] Instance Numeric_eq_dec : EqDecision Numeric.
Proof. solve_decision. Defined.

Definition isNaN (n : Numeric) : bool :=
  match n with
  | NotANumber => true
  | _ => false
  end.

(** [s.includes(sub)] *)
Definition includes (sub s : string) : bool :=
  match String.index 0 sub s with
  | Some _ => true
  | None => false
  end.

(** [s.startsWith(p)] *)
Definition startsWith (p s : string) : bool := String.prefix p s.

(** [!s] for an optional string argument: absent or empty. *)
Definition falsy (s : option string) : bool :=
  match s with
  | None => true
  | Some "" => true
  | Some _ => false
  end.

Fixpoint drop_chars (n : nat) (s : string) : string :=
  match n, s with
  | O, _ => s
  | S n', String _ r => drop_chars n' r
  | S _, EmptyString => EmptyString
  end.

(** [s.replace(pat, rep)] with a string pattern: the first occurrence only. *)
Fixpoint replace_first (pat rep s : string) : string :=
  if String.prefix pat s then rep +:+ drop_chars (String.length pat) s
  else match s with
       | EmptyString => EmptyString
       | String c r => String c (replace_first pat rep r)
       end.

(** Does [s] begin with a line terminator: LF, CR, or one of U+2028 and
    U+2029, which are the bytes E2 80 A8 and E2 80 A9. *)
Definition is_line_end (s : string) : bool :=
  match s with
  | String c r =>
      bool_decide (c = "010"%char) || bool_decide (c = "013"%char)
      || (bool_decide (c = "226"%char)
          && match r with
             | String c2 (String c3 _) =>
                 bool_decide (c2 = "128"%char)
                 && (bool_decide (c3 = "168"%char) || bool_decide (c3 = "169"%char))
             | _ => false
             end)
  | EmptyString => false
  end.

(** What follows the first ">" of [s], when no line terminator comes
    before it (the dot of the pattern does not cross one). *)
Fixpoint after_close (s : string) : option string :=
  match s with
  | EmptyString => None
  | String c r =>
      if bool_decide (c = ">"%char) then Some r
      else if is_line_end s then None
      else after_close r
  end.

Fixpoint strip_tags_from (n : nat) (s : string) : string :=
  match n with
  | O => s
  | S n' =>
      match s with
      | EmptyString => EmptyString
      | String c r =>
          if bool_decide (c = "<"%char) then
            match after_close r with
            | Some r' => strip_tags_from n' r'
            | None => String c (strip_tags_from n' r)
            end
          else String c (strip_tags_from n' r)
      end
  end.

(** [content.replace(/<.*?>/g, '')]; every step consumes a character, so
    the length of the string bounds the number of steps. *)
Definition strip_tags (s : string) : string :=
  strip_tags_from (String.length s) s.

(** The UTF-16 code units that a byte of a UTF-8 text stands for: one
    for the first byte of a character of the basic plane, two for the
    first byte of a character beyond it (a surrogate pair), none for a
    continuation byte. *)
Definition code_units (c : ascii) : Z :=
  let n := nat_of_ascii c in
  if decide (n < 128)%nat then 1
  else if decide (n < 192)%nat then 0
  else if decide (n < 240)%nat then 1
  else 2.

(** [content.length]: the length of a string in UTF-16 code units.  The
    strings of this development are the UTF-8 texts of the strings of
    the program. *)
Fixpoint strlen (s : string) : Z :=
  match s with
  | EmptyString => 0
  | String c r => code_units c + strlen r
  end.

(** ** The two tables *)

Module Bottle.
Record t := mk {
  id : Z;
  name : string;
  uid : string;
  gid : string;
  cnid : string;
  username : string;
  content : string;
  isHot : Z;
  commentCount : jsnum;
  time : Z
}.

Definition with_content (c : string) (b : t) : t :=
  mk (id b) (name b) (uid b) (gid b) (cnid b) (username b) c (isHot b)
     (commentCount b) (time b).
Definition with_commentCount (n : jsnum) (b : t) : t :=
  mk (id b) (name b) (uid b) (gid b) (cnid b) (username b) (content b)
     (isHot b) n (time b).
Definition with_name (n : string) (b : t) : t :=
  mk (id b) n (uid b) (gid b) (cnid b) (username b) (content b) (isHot b)
     (commentCount b) (time b).
Definition with_isHot (h : Z) (b : t) : t :=
  mk (id b) (name b) (uid b) (gid b) (cnid b) (username b) (content b) h
     (commentCount b) (time b).

#[global] Instance eq_dec : EqDecision t.
Proof. solve_decision. Defined.
End Bottle.

Module Comment.
Record t := mk {
  id : Z;
  cid : Z;
  bid : Z;
  uid : string;
  gid : string;
  cnid : string;
  username : string;
  content : string;
  time : Z
}.

Definition with_content (c : string) (x : t) : t :=
  mk (id x) (cid x) (bid x) (uid x) (gid x) (cnid x) (username x) c (time x).

#[global] Instance eq_dec : EqDecision t.
Proof. solve_decision. Defined.
End Comment.

(** Modelled from the spec: the database adapter ([ctx.database]) is not
    part of the repository.  Following the store contract, a table is the
    list of its rows in insertion order, and each table has the counter
    from which [create] takes the next [id] ("unique, monotonically
    assigned by the store"). *)
Record Store := mkStore {
  bottles : list Bottle.t;
  comments : list Comment.t;
  bottle_seq : Z;
  comment_seq : Z
}.

Definition empty_store : Store := mkStore [] [] 0 0.

(** ** Configuration, session, environment *)

Inductive SaveMode := SaveUrl | SaveBase64 | SaveFile.

Record Config := mkConfig {
  manager : list string;
  allowPic : bool;
  allowDropOthers : bool;
  selfDrop : bool;
  preview : bool;
  maxRetry : Z;
  maxLength : Z;
  saveMode : SaveMode;
  messageRecord : bool;
  commentLimit : Z;
  (** "查看我的/用户瓶子时一页显示多少个瓶子": the page of the lists of a
      user's bottles *)
  bottleLimit : Z;
  (** "通过名字捞漂流瓶时一页显示多少个瓶子": the page of a draw by name,
      as the schema declares it; no handler reads it *)
  nameBottleLimit : Z
}.

Definition with_nameBottleLimit (n : Z) (cfg : Config) : Config :=
  mkConfig (manager cfg) (allowPic cfg) (allowDropOthers cfg) (selfDrop cfg)
           (preview cfg) (maxRetry cfg) (maxLength cfg) (saveMode cfg)
           (messageRecord cfg) (commentLimit cfg) (bottleLimit cfg) n.

Record Quote := mkQuote {
  quote_user : string;
  quote_content : string
}.

(** What a handler reads of its [session]; [today] is the value of
    [Time.getDateNumber()] during the invocation. *)
Record Session := mkSession {
  userId : string;
  sessionName : string;
  guildId : string;
  channelId : string;
  platform : string;
  quote : option Quote;
  today : Z
}.

(** A bot as the comment notification sees it: the ids its guild iterator
    yields, and the ids its friend iterator yields ([None] when
    [getFriendIter] throws). *)
Record Bot := mkBot {
  guilds : list string;
  friends : option (list string)
}.

(** An element of parsed content, as far as the handlers look at it:
    [element.type] and [element.attrs.src]; [None] stands for an element
    whose [src] is absent or is no string, on which [src.startsWith]
    throws. *)
Record Element := mkElement {
  el_type : string;
  el_src : option string
}.

(** The result of one pass of the asset externalizer over a content. *)
Inductive Externalized :=
  | FetchThrew
  | NothingToStore
  | Stored (content : string) (files : list string).

Record Env := mkEnv {
  bots : list Bot;
  (** does the interaction number [n], a [bot.sendMessage], resolve *)
  send_ok : nat -> bool;
  (** does the interaction number [n], a [ctx.sleep], resolve; it rejects
      when the plugin is disposed *)
  sleep_ok : nat -> bool;
  (** the answer [session.prompt] gets at interaction [n] *)
  prompted : nat -> option string;
  (** the integer [Random.int] draws at interaction [n] *)
  random : nat -> nat;
  (** the outcome of fetching and storing the assets of a content *)
  externalized : nat -> SaveMode -> string -> Externalized;
  (** [new RegExp(pattern)]: the test of the expression, or [None] when
      the pattern is no regular expression and the constructor throws *)
  regex : string -> option (string -> bool);
  (** the unary [+] on a string *)
  to_number : string -> Numeric;
  (** [h.parse] *)
  h_parse : string -> list Element
}.

(** [new RegExp(pattern).test(name)], where the constructor returns. *)
Definition regex_test (env : Env) (pattern name : string) : bool :=
  match regex env pattern with
  | Some test => test name
  | None => false
  end.

(** ** Messages *)

(** What goes out through [bot.sendMessage].  The wording of a message is
    left out; a value of this type says which message of the source it is
    and which data it carries. *)
Inductive Message :=
  (** the caption of a thrown bottle, sent alone before an audio or video *)
  | ThrownCaption (id : Z)
  (** the caption of a thrown bottle followed by the content *)
  | ThrownPreview (id : Z) (content : string)
  (** a content sent by itself *)
  | Body (content : string)
  (** a drawn bottle as a forward message, with the comments of the page *)
  | BottleForward (b : Bottle.t) (cs : list Comment.t)
  (** a drawn bottle as text ([result]): the comments of the page and the
      number of all comments of the bottle *)
  | BottleText (b : Bottle.t) (cs : list Comment.t) (total : Z)
  (** the audio or video of a drawn bottle ([result2]) *)
  | BottleMedia (b : Bottle.t) (cs : list Comment.t)
  (** "your bottle [bid] has a new comment" *)
  | NewComment (bid : Z) (ct : string)
  (** "your comment [rid] in bottle [bid] has a new reply" *)
  | NewReply (bid rid : Z) (ct : string)
  (** the preview of a comment *)
  | CommentPreview (cid : Z) (username ct : string)
  (** "your comment is out" *)
  | CommentThrown
  (** a bottle or a comment sent by an audit *)
  | AuditBottle (b : Bottle.t)
  | AuditComment (c : Comment.t).

(** What goes out through [session.send]. *)
Inductive Notice :=
  | AssetsNotStored
  | PreviewNotSent
  | ReminderNotSent
  | AuditWarning
  | AuditRunning
  | BottleUnsendable (id : Z)
  | CommentUnsendable (bid cid : Z)
  | UnsendableBottles (ids : list Z)
  | UnsendableComments (ids : list Z).

Inductive Output :=
  | Sent (target : string) (m : Message)
  | Told (n : Notice).

(** The answer of a handler: the value its [action] returns. *)
Inductive Reply :=
  (** the handler returns nothing *)
  | Silent
  (** an exception leaves the handler *)
  | Uncaught
  (** the bound on the iterations of a retry loop was too small; no run
      ends this way, see [retry_budget] *)
  | OutOfFuel
  | NameIsNumber            (* "名字不能是纯数字！" *)
  | ContentMissing          (* "请输入内容或引用回复一条消息" *)
  | NotYourMessage          (* "你没有权限扔别人的漂流瓶！" *)
  | TooShort                (* "内容过短！" *)
  | TooLong                 (* "内容过长！" *)
  | BottleThrown (id : Z)   (* "你的…号漂流瓶扔出去了！" *)
  | NoBottles               (* "没有瓶子了！" *)
  | NoSuchBottle            (* "没有这个瓶子！" *)
  | ChooseBottle (rows : list (Z * string)) (total : Z)
                            (* "请选择你要捞的瓶子（编号：标题）" *)
  | DrawFailed              (* "漂流瓶发送失败，请查看日志！" *)
  | NoBottleToComment       (* "你要评论的瓶子不存在！" *)
  | NoCommentToAnswer       (* "你要回复的评论不存在！" *)
  | NoMediaInComments       (* "评论暂不支持音频或视频！" *)
  | NoBottleToDelete        (* "你要删除的瓶子不存在！" *)
  | NotYourBottle           (* "你没有权限删除别人的瓶子！" *)
  | BottleDeleted           (* "瓶子删除了！" *)
  | NoCommentToDelete       (* "你要删除的评论不存在！" *)
  | NotYourComment          (* "你没有权限删除别人的评论！" *)
  | CommentDeleted          (* "评论删除了！" *)
  | DaysMissing             (* "请输入天数！" *)
  | ExpiryDenied            (* "你没有权限删除过期瓶子！" *)
  | NothingExpired          (* "没有过期的瓶子！" *)
  | ExpiredDeleted          (* "过期瓶子已经被删除！" *)
  | AuditDenied             (* "你没有权限删除无效瓶子！" *)
  | EndMissing              (* "请输入结束编号！" *)
  | StartAfterEnd           (* "起始编号不能大于结束编号！" *)
  | AuditCancelled          (* "已取消操作" *)
  | NothingUnsendable       (* "未发现无法发送的漂流瓶！" *)
  | UnsendableDeleted       (* "已删除以上漂流瓶" *)
  | DeletionCancelled       (* "已取消删除" *)
  | RenameDenied            (* "只有漂流瓶管理员才能命名别人的瓶子！" *)
  | Renamed                 (* "命名成功！" *)
  | FeatureDenied           (* "只有漂流瓶管理员才能设置精选瓶子！" *)
  | Featured.               (* "设置成功！" *)

#[global] Instance Reply_eq_dec : EqDecision Reply.
Proof. solve_decision. Defined.

(** ** The world and the monad of the handlers *)

Record World := mkWorld {
  store : Store;
  (** the asset files on disk, each by the [file:] locator that the plugin
      wrote into the contents; a locator that [fileURLToPath] does not
      accept is the locator of no file *)
  files : gset string;
  (** [bottleMap]: the handle of a delivered bottle message and its bottle *)
  bottleMap : gmap nat Z;
  (** the number of interactions with the environment so far *)
  clock : nat;
  (** what went out, oldest first *)
  outbox : list Output
}.

Definition initial_world (s : Store) : World := mkWorld s ∅ ∅ 0 [].

Definition M (A : Type) : Type := World -> A * World.

Definition ret {A} (a : A) : M A := fun w => (a, w).

Definition bind {A B} (m : M A) (k : A -> M B) : M B :=
  fun w => let (a, w') := m w in k a w'.

Notation "'let*' x ':=' m 'in' k" := (bind m (fun x => k))
  (at level 10, x name, m at level 100, k at level 200).
Notation "m ';;' k" := (bind m (fun _ => k))
  (at level 100, k at level 200, right associativity).

Definition with_store (f : Store -> Store) : M unit :=
  fun w => (tt, mkWorld (f (store w)) (files w) (bottleMap w) (clock w) (outbox w)).

Definition read_store {A} (f : Store -> A) : M A :=
  fun w => (f (store w), w).

(** One more interaction with the environment; its number. *)
Definition tick : M nat :=
  fun w => (clock w, mkWorld (store w) (files w) (bottleMap w) (S (clock w)) (outbox w)).

Definition emit (o : Output) : M unit :=
  fun w => (tt, mkWorld (store w) (files w) (bottleMap w) (clock w) (outbox w ++ [o])).

(** [bottleMap.set(handle, id)] *)
Definition bottleMap_set (handle : nat) (id : Z) : M unit :=
  fun w => (tt, mkWorld (store w) (files w) (<[handle := id]> (bottleMap w)) (clock w) (outbox w)).

(** [unlinkSync(fileURLToPath(src))]: [false] when it throws, which it
    does when [src] is the locator of no file. *)
Definition unlinkSync (src : string) : M bool :=
  fun w =>
    if decide (src ∈ files w)
    then (true, mkWorld (store w) (files w ∖ {[src]}) (bottleMap w) (clock w) (outbox w))
    else (false, w).

Definition write_files (fs : list string) : M unit :=
  fun w => (tt, mkWorld (store w) (files w ∪ list_to_set fs) (bottleMap w) (clock w) (outbox w)).

(** [for (x of xs) body(x)], where [body] answers [false] when it throws:
    the loop ends at the first turn that throws, and says so. *)
Fixpoint for_each {A} (xs : list A) (body : A -> M bool) : M bool :=
  match xs with
  | [] => ret true
  | x :: rest =>
      let* done := body x in
      if done then for_each rest body else ret false
  end.

(** ** The store operations *)

(** Modelled from the spec: [get(entity, filter)], the rows that satisfy
    the filter, in table order. *)
Definition get_bottle (P : Bottle.t -> Prop) `{!forall b, Decision (P b)}
    (s : Store) : list Bottle.t :=
  filter P (bottles s).

Definition get_comment (P : Comment.t -> Prop) `{!forall c, Decision (P c)}
    (s : Store) : list Comment.t :=
  filter P (comments s).

(** Modelled from the spec: [create(entity)] gives the row the next id of
    its table and appends it. *)
Definition create_bottle (row : Bottle.t) (s : Store) : Bottle.t * Store :=
  let id := bottle_seq s + 1 in
  let b := Bottle.mk id (Bottle.name row) (Bottle.uid row) (Bottle.gid row)
             (Bottle.cnid row) (Bottle.username row) (Bottle.content row)
             (Bottle.isHot row) (Bottle.commentCount row) (Bottle.time row) in
  (b, mkStore (bottles s ++ [b]) (comments s) id (comment_seq s)).

Definition create_comment (row : Comment.t) (s : Store) : Comment.t * Store :=
  let id := comment_seq s + 1 in
  let c := Comment.mk id (Comment.cid row) (Comment.bid row) (Comment.uid row)
             (Comment.gid row) (Comment.cnid row) (Comment.username row)
             (Comment.content row) (Comment.time row) in
  (c, mkStore (bottles s) (comments s ++ [c]) (bottle_seq s) id).

(** Modelled from the spec: [set(entity, filter, patch)] patches every row
    that satisfies the filter. *)
Definition set_bottle (P : Bottle.t -> Prop) `{!forall b, Decision (P b)}
    (patch : Bottle.t -> Bottle.t) (s : Store) : Store :=
  mkStore (map (fun b => if decide (P b) then patch b else b) (bottles s))
          (comments s) (bottle_seq s) (comment_seq s).

Definition set_comment (P : Comment.t -> Prop) `{!forall c, Decision (P c)}
    (patch : Comment.t -> Comment.t) (s : Store) : Store :=
  mkStore (bottles s)
          (map (fun c => if decide (P c) then patch c else c) (comments s))
          (bottle_seq s) (comment_seq s).

(** Modelled from the spec: [remove(entity, filter)] drops every row that
    satisfies the filter. *)
Definition remove_bottle (P : Bottle.t -> Prop) `{!forall b, Decision (P b)}
    (s : Store) : Store :=
  mkStore (filter (fun b => ~ P b) (bottles s)) (comments s)
          (bottle_seq s) (comment_seq s).

Definition remove_comment (P : Comment.t -> Prop) `{!forall c, Decision (P c)}
    (s : Store) : Store :=
  mkStore (bottles s) (filter (fun c => ~ P c) (comments s))
          (bottle_seq s) (comment_seq s).

(** [limit(n).offset(k)] on an ordered selection; no limit is [Infinity]. *)
Definition page_of {A} (limit : option Z) (offset : Z) (rows : list A) : list A :=
  let rest := drop (Z.to_nat offset) rows in
  match limit with
  | None => rest
  | Some n => take (Z.to_nat n) rest
  end.

(** [orderBy('id', 'asc')] and [orderBy('cid', 'asc')] *)
Definition by_id (a b : Bottle.t) : Prop := Bottle.id a <= Bottle.id b.
Definition by_cid (a b : Comment.t) : Prop := Comment.cid a <= Comment.cid b.

#[global] Instance by_id_dec : RelDecision by_id.
Proof. intros a b. unfold by_id. apply _. Defined.
#[global] Instance by_cid_dec : RelDecision by_cid.
Proof. intros a b. unfold by_cid. apply _. Defined.

(** Modelled from the spec: [query(entity, filter, orderBy, limit, offset)],
    here ordered by [id], ascending. *)
Definition select_bottle (P : Bottle.t -> Prop) `{!forall b, Decision (P b)}
    (limit : option Z) (offset : Z) (s : Store) : list Bottle.t :=
  page_of limit offset (merge_sort by_id (filter P (bottles s))).

(** The same for comments, ordered by [cid], ascending. *)
Definition select_comment (P : Comment.t -> Prop) `{!forall c, Decision (P c)}
    (limit : option Z) (offset : Z) (s : Store) : list Comment.t :=
  page_of limit offset (merge_sort by_cid (filter P (comments s))).

(** The row that [upsert] inserts for an id the table does not have: the
    fields it was given, the others at their defaults. *)
Definition blank_bottle (id : Z) (n : jsnum) : Bottle.t :=
  Bottle.mk id "" "" "" "" "" "" 0 n 0.

(** Modelled from the spec: [upsert(entity, records)], with records that
    carry an [id] and a [commentCount]: the row with that id is patched,
    and a record whose id is not in the table is inserted. *)
Definition upsert_one (s : Store) (r : Z * jsnum) : Store :=
  let (id, n) := r in
  if decide (id ∈ map Bottle.id (bottles s)) then
    set_bottle (fun b => Bottle.id b = id) (Bottle.with_commentCount n) s
  else
    mkStore (bottles s ++ [blank_bottle id n]) (comments s)
            (Z.max (bottle_seq s) id) (comment_seq s).

Definition upsert_bottle (records : list (Z * jsnum)) (s : Store) : Store :=
  foldl upsert_one s records.

(** ** The startup pass of [apply] *)

(** The two loops that fill [count]: every bottle id starts at [0], and
    every comment increments the entry of its [bid]; incrementing an
    entry that is not there leaves [NaN]. *)
Definition count_bottle (count : gmap Z jsnum) (b : Bottle.t) : gmap Z jsnum :=
  <[Bottle.id b := Num 0]> count.

Definition count_comment (count : gmap Z jsnum) (c : Comment.t) : gmap Z jsnum :=
  <[Comment.bid c := match count !! Comment.bid c with
                     | Some n => js_succ n
                     | None => NaN
                     end]> count.

Definition count_comments (s : Store) : gmap Z jsnum :=
  foldl count_comment (foldl count_bottle ∅ (bottles s)) (comments s).

Definition by_key (a b : Z * jsnum) : Prop := a.1 <= b.1.

#[global] Instance by_key_dec : RelDecision by_key.
Proof. intros a b. unfold by_key. apply _. Defined.

(** [Object.entries(count)]: integer keys come in ascending order. *)
Definition entries (count : gmap Z jsnum) : list (Z * jsnum) :=
  merge_sort by_key (map_to_list count).

(** The legacy value of [commentCount]: the column default, carried by the
    rows that were written before the column existed. *)
Definition sentinel : jsnum := Num (-1).

(** The pass itself: it looks at the first row of the bottle table. *)
Definition startup (s : Store) : Store :=
  match bottles s with
  | first :: _ =>
      if decide (Bottle.commentCount first = sentinel)
      then upsert_bottle (entries (count_comments s)) s
      else s
  | [] => s
  end.

(** ** The handlers *)

(** How a retry loop ends. *)
Inductive LoopEnd (A : Type) :=
  (** the [try] block got through: [break] *)
  | Finished (a : A)
  (** [retry > config.maxRetry] *)
  | GaveUp
  (** the wait between two attempts was rejected: [return] *)
  | Disposed
  | NoFuel.
Arguments Finished {A} a.
Arguments GaveUp {A}.
Arguments Disposed {A}.
Arguments NoFuel {A}.

(** [(page ?? 1)] *)
Definition page_or_1 (page : option Z) : Z := default 1 page.

(** [Math.max(...data.map(c => c.cid)) + 1], or [1] for no data. *)
Definition next_cid (data : list Comment.t) : Z :=
  match data with
  | [] => 1
  | c :: rest => foldl Z.max (Comment.cid c) (map Comment.cid rest) + 1
  end.

Definition is_media (e : Element) : Prop :=
  el_type e ∈ ["img"; "audio"; "video"].

#[global] Instance is_media_dec e : Decision (is_media e).
Proof. unfold is_media. apply _. Defined.

Definition has_av (content : string) : bool :=
  includes "<audio" content || includes "<video" content.

Section Handlers.
Context (cfg : Config) (env : Env).

(** [await bot.sendMessage(target, m)]: the handle of the message, or
    [None] when the call throws. *)
Definition sendMessage (target : string) (m : Message) : M (option nat) :=
  let* n := tick in
  if send_ok env n then emit (Sent target m) ;; ret (Some n)
  else ret None.

(** [await session.send(n)] *)
Definition session_send (n : Notice) : M unit := emit (Told n).

(** [await ctx.sleep(ms)]: [false] when it rejects. *)
Definition sleep : M bool :=
  let* n := tick in ret (sleep_ok env n).

(** [await session.prompt(30000)] *)
Definition prompt : M (option string) :=
  let* n := tick in ret (prompted env n).

(** [Random.int(0, upper)] *)
Definition Random_int (upper : nat) : M nat :=
  let* n := tick in ret (random env n `mod` upper)%nat.

Definition is_manager (user : string) : Prop := user ∈ manager cfg.

(** The file that a turn of a deletion loop unlinks: the [src] of a
    media element, when it begins with [file]. *)
Definition local_asset (e : Element) : option string :=
  if decide (is_media e) then
    match el_src e with
    | Some src => if startsWith "file" src then Some src else None
    | None => None
    end
  else None.

(** The local files of a content: what the deletion handlers unlink. *)
Definition local_assets (content : string) : list string :=
  omap local_asset (h_parse env content).

(** Every media element of the content has a [src]. *)
Definition sourced (content : string) : Prop :=
  Forall (fun e => is_media e -> el_src e <> None) (h_parse env content).

(** The number of iterations that a retry loop can need: the first
    attempt and one more for each retry. *)
Definition retry_budget : nat := S (Z.to_nat (maxRetry cfg)).

(** The retry loop that every handler repeats:
<<
    let retry = 0
    while (true) {
      try { attempt; break }
      catch (e) {
        retry++
        if (retry > config.maxRetry) { abandon; break }   // or return
        try { await ctx.sleep(config.retryInterval) } catch { return }
        continue
      }
    }
>>
    [attempt] answers [None] when the [try] block throws. *)
Fixpoint retrying {A} (fuel : nat) (retry : Z) (attempt : M (option A))
    (abandon : M unit) : M (LoopEnd A) :=
  match fuel with
  | O => ret NoFuel
  | S fuel' =>
      let* r := attempt in
      match r with
      | Some a => ret (Finished a)
      | None =>
          let retry := retry + 1 in
          if decide (retry > maxRetry cfg) then abandon ;; ret GaveUp
          else
            let* awake := sleep in
            if awake then retrying fuel' retry attempt abandon
            else ret Disposed
      end
  end.

(** One pass of the externalizer over [content] (the [try] block of the
    [saveMode] loops): the content to keep, or [None] when a fetch or a
    write throws. *)
Definition store_assets (content : string) : M (option (option string)) :=
  let* n := tick in
  match externalized env n (saveMode cfg) content with
  | FetchThrew => ret None
  | NothingToStore => ret (Some None)
  | Stored c fs => write_files fs ;; ret (Some (Some c))
  end.

(** *** 扔漂流瓶: throw a bottle *)

Definition preview_bottle (ses : Session) (b : Bottle.t) : M (option unit) :=
  if has_av (Bottle.content b) then
    let* caption := sendMessage (channelId ses) (ThrownCaption (Bottle.id b)) in
    match caption with
    | None => ret None
    | Some _ =>
        let* body := sendMessage (channelId ses) (Body (Bottle.content b)) in
        ret (body ≫= fun _ => Some tt)
    end
  else
    let* sent := sendMessage (channelId ses)
                   (ThrownPreview (Bottle.id b) (Bottle.content b)) in
    ret (sent ≫= fun _ => Some tt).

(** [!isNaN(+options.title)]; an absent title is [undefined], and
    [+undefined] is [NaN]. *)
Definition title_is_number (title : option string) : bool :=
  match title with
  | Some t => negb (isNaN (to_number env t))
  | None => false
  end.

(** [quote && !config.manager.includes(user) && quote.user.id !== user] *)
Definition quotes_another (ses : Session) : bool :=
  match quote ses with
  | Some q => bool_decide (~ is_manager (userId ses))
              && bool_decide (quote_user q <> userId ses)
  | None => false
  end.

Definition db_create_bottle (row : Bottle.t) : M Bottle.t :=
  fun w =>
    let (b, s) := create_bottle row (store w) in
    (b, mkWorld s (files w) (bottleMap w) (clock w) (outbox w)).

Definition db_create_comment (row : Comment.t) : M Comment.t :=
  fun w =>
    let (c, s) := create_comment row (store w) in
    (c, mkWorld s (files w) (bottleMap w) (clock w) (outbox w)).

(** The handler up to the preview: the checks, the row, its assets, the
    length of what is kept.  [inl] is the answer that ends the handler,
    [inr] the row that [create] returned. *)
Definition throw_prepare (ses : Session) (title : option string)
    (message : option string) : M (Reply + Bottle.t) :=
  if title_is_number title then ret (inl NameIsNumber)
  else if falsy message && bool_decide (quote ses = None)
  then ret (inl ContentMissing)
  else if quotes_another ses && negb (allowDropOthers cfg)
  then ret (inl NotYourMessage)
  else
    let uid := if selfDrop cfg then userId ses
               else from_option quote_user (userId ses) (quote ses) in
    let content := from_option quote_content (default "" message) (quote ses) in
    let content := if allowPic cfg then content else strip_tags content in
    if decide (strlen content < 1) then ret (inl TooShort)
    else
      let* row := db_create_bottle
          (Bottle.mk 0 (default "" title) uid (guildId ses) (channelId ses)
             (sessionName ses) content 0 (Num 0) (today ses)) in
      let* stored :=
        match saveMode cfg with
        | SaveUrl => ret (Finished None)
        | _ =>
            retrying retry_budget 0 (store_assets content)
              (session_send AssetsNotStored ;;
               with_store (remove_bottle (fun b => Bottle.id b = Bottle.id row)))
        end in
      match stored with
      | NoFuel => ret (inl OutOfFuel)
      | GaveUp | Disposed => ret (inl Silent)
      | Finished rewritten =>
          let content := default content rewritten in
          if decide (strlen content > maxLength cfg) then ret (inl TooLong)
          else
            with_store (set_bottle (fun b => Bottle.id b = Bottle.id row)
                          (Bottle.with_content content)) ;;
            ret (inr row)
      end.

(** The rest of the handler: [if (config.preview) { ... } else { ... }]. *)
Definition throw_preview (ses : Session) (row : Bottle.t) : M Reply :=
  if preview cfg then
    let* sent :=
      retrying retry_budget 0 (preview_bottle ses row)
        (session_send PreviewNotSent ;;
         with_store (remove_bottle (fun b => Bottle.id b = Bottle.id row))) in
    match sent with
    | NoFuel => ret OutOfFuel
    | _ => ret Silent
    end
  else ret (BottleThrown (Bottle.id row)).

Definition throw_bottle (ses : Session) (title : option string)
    (message : option string) : M Reply :=
  let* prepared := throw_prepare ses title message in
  match prepared with
  | inl answer => ret answer
  | inr row => throw_preview ses row
  end.

(** *** 捞漂流瓶: draw a bottle *)

Definition name_matches (pattern : string) (b : Bottle.t) : Prop :=
  regex_test env pattern (Bottle.name b) = true.

(** [{id: +bottleId}] *)
Definition id_is (n : Numeric) (b : Bottle.t) : Prop :=
  n = Integral (Bottle.id b).

#[global] Instance name_matches_dec pattern b : Decision (name_matches pattern b).
Proof. unfold name_matches. apply _. Defined.
#[global] Instance id_is_dec n b : Decision (id_is n b).
Proof. unfold id_is. apply _. Defined.

(** The [limit] and [offset] of a paginated selection; a page size of
    [0] is no pagination. *)
Definition limit_of (size : Z) : option Z :=
  if decide (size <> 0) then Some size else None.
Definition offset_of (size : Z) (page : option Z) : Z :=
  if decide (size <> 0) then (page_or_1 page - 1) * size else 0.

(** What the handler makes of the bottles it found for [bottleId]: none
    is an answer, more than one is the list to choose from, with the
    number of all the bottles whose name matches. *)
Definition one_of (pattern : string) (found : list Bottle.t)
    : M (Reply + list Bottle.t) :=
  if decide (length found < 1)%nat then ret (inl NoSuchBottle)
  else if decide (1 < length found)%nat then
    match regex env pattern with
    | None => ret (inl Uncaught)
    | Some _ =>
        let* all := read_store (get_bottle (name_matches pattern)) in
        ret (inl (ChooseBottle
                    (map (fun b => (Bottle.id b, Bottle.name b)) found)
                    (Z.of_nat (length all))))
    end
  else ret (inr found).

(** The first part of the handler: the bottles to draw from, or the
    answer that ends the handler.  [new RegExp(bottleId)] throws when
    [bottleId] is no regular expression, and nothing catches it. *)
Definition find_bottles (bottleId : option string) (page : option Z)
    : M (Reply + list Bottle.t) :=
  match bottleId with
  | Some (String c r as pattern) =>
      if isNaN (to_number env pattern) then
        match regex env pattern with
        | None => ret (inl Uncaught)
        | Some _ =>
            let* found :=
              read_store (select_bottle (name_matches pattern)
                            (limit_of (bottleLimit cfg))
                            (offset_of (bottleLimit cfg) page)) in
            one_of pattern found
        end
      else
        let* found := read_store (get_bottle (id_is (to_number env pattern))) in
        one_of pattern found
  | _ =>
      let* all := read_store (get_bottle (fun _ => True)) in
      if decide (length all < 1)%nat then ret (inl NoBottles)
      else ret (inr all)
  end.

(** The [try] block of the draw loop for the bottle picked in this
    iteration: the sends, each followed by its [bottleMap.set]. *)
Definition send_bottle (ses : Session) (b : Bottle.t) (cs : list Comment.t)
    (total : Z) : M (option unit) :=
  if messageRecord cfg then
    let* sent := sendMessage (channelId ses) (BottleForward b cs) in
    match sent with
    | None => ret None
    | Some handle => bottleMap_set handle (Bottle.id b) ;; ret (Some tt)
    end
  else
    let* sent := sendMessage (channelId ses) (BottleText b cs total) in
    match sent with
    | None => ret None
    | Some handle =>
        bottleMap_set handle (Bottle.id b) ;;
        if has_av (Bottle.content b) then
          let* media := sendMessage (channelId ses) (BottleMedia b cs) in
          match media with
          | None => ret None
          | Some handle2 => bottleMap_set handle2 (Bottle.id b) ;; ret (Some tt)
          end
        else ret (Some tt)
    end.

(** One iteration of the draw loop up to its [break]: pick a bottle, read
    its comments, send.  [inl] is an exception outside the [try] block
    (no bottle at the picked index). *)
Definition draw_once (ses : Session) (page : option Z) (found : list Bottle.t)
    : M (option (Reply + unit)) :=
  let* i := Random_int (length found) in
  match found !! i with
  | None => ret (Some (inl Uncaught))
  | Some b =>
      let* all := read_store (get_comment (fun c => Comment.bid c = Bottle.id b)) in
      let* cs := read_store (select_comment (fun c => Comment.bid c = Bottle.id b)
                               (limit_of (commentLimit cfg))
                               (offset_of (commentLimit cfg) page)) in
      let* sent := send_bottle ses b cs (Z.of_nat (length all)) in
      ret (sent ≫= fun _ => Some (inr tt))
  end.

Definition draw_bottle (ses : Session) (bottleId : option string)
    (page : option Z) : M Reply :=
  let* found := find_bottles bottleId page in
  match found with
  | inl answer => ret answer
  | inr found =>
      let* sent := retrying retry_budget 0 (draw_once ses page found) (ret tt) in
      match sent with
      | Finished (inl answer) => ret answer
      | Finished (inr _) => ret Silent
      | GaveUp => ret DrawFailed
      | Disposed => ret Silent
      | NoFuel => ret OutOfFuel
      end
  end.
(** *** 评论瓶子: comment on a bottle, or answer a comment *)

(** The reminder to an owner found among the guilds:
<<
    try {
      try { if (primary.length === 0) throw ...; await bot.sendMessage(primary, m) }
      catch (e) { await bot.sendMessage(fallback, m) }
    } catch (e) { await session.send("评论提醒发送失败") }
>> *)
Definition remind (primary fallback : string) (m : Message) : M unit :=
  let* first := if decide (primary = "") then ret None
                else sendMessage primary m in
  match first with
  | Some _ => ret tt
  | None =>
      let* second := sendMessage fallback m in
      match second with
      | Some _ => ret tt
      | None => session_send ReminderNotSent
      end
  end.

(** The loop over the friends: the first friend whose id is [who] and
    whose reminder gets through ends it. *)
Fixpoint remind_friend (friend_ids : list string) (who target : string)
    (m : Message) : M unit :=
  match friend_ids with
  | [] => ret tt
  | i :: rest =>
      if decide (i = who) then
        let* sent := sendMessage target m in
        match sent with
        | Some _ => ret tt
        | None => session_send ReminderNotSent ;; remind_friend rest who target m
        end
      else remind_friend rest who target m
  end.

(** The body of [for (const bot of ctx.bots)]; it answers the [ct] it
    leaves behind.  [answered] is the comment that is replied to, with
    its number. *)
Definition notify (uid : string) (id : Z) (bottle : Bottle.t)
    (answered : option (Z * Comment.t)) (bot : Bot) (ct : string) : M string :=
  let flag := bool_decide (is_Some (friends bot)) in
  let friend_ids := default [] (friends bot) in
  match answered with
  | None =>
      (if decide (uid <> Bottle.uid bottle) then
         if decide (Exists (fun i => i = Bottle.gid bottle \/ i = Bottle.cnid bottle)
                      (guilds bot))
         then remind (Bottle.cnid bottle) (Bottle.gid bottle) (NewComment id ct)
         else if flag then
           remind_friend friend_ids
             (replace_first "private:" "" (Bottle.cnid bottle))
             (Bottle.cnid bottle) (NewComment id ct)
         else ret tt
       else ret tt) ;;
      ret ct
  | Some (replyId, comment) =>
      let ct := "回复 " +:+ pretty replyId +:+ ". "
                +:+ Comment.username comment +:+ "：" +:+ ct in
      (if decide (Comment.uid comment <> uid) then
         if decide (Exists (fun i => i = Bottle.gid bottle \/ i = Comment.cnid comment)
                      (guilds bot))
         then remind (Comment.cnid comment) (Comment.gid comment)
                (NewReply id replyId ct)
         else if flag then
           remind_friend friend_ids
             (replace_first "private:" "" (Comment.cnid comment))
             (Bottle.cnid bottle) (NewReply id replyId ct)
         else ret tt
       else ret tt) ;;
      ret ct
  end.

Fixpoint notify_bots (uid : string) (id : Z) (bottle : Bottle.t)
    (answered : option (Z * Comment.t)) (all : list Bot) (ct : string) : M string :=
  match all with
  | [] => ret ct
  | bot :: rest =>
      let* ct := notify uid id bottle answered bot ct in
      notify_bots uid id bottle answered rest ct
  end.

(** The [try] block of the preview loop of a comment: the send, then the
    increment of the counter from the row read back. *)
Definition preview_comment (ses : Session) (id cid : Z) (ct : string)
    : M (option unit) :=
  let* sent := sendMessage (channelId ses)
                 (CommentPreview cid (sessionName ses) ct) in
  match sent with
  | None => ret None
  | Some _ =>
      let* rows := read_store (get_bottle (fun b => Bottle.id b = id)) in
      match rows with
      | [] => ret None
      | b :: _ =>
          with_store (set_bottle (fun b => Bottle.id b = id)
                        (Bottle.with_commentCount (js_succ (Bottle.commentCount b)))) ;;
          ret (Some tt)
      end
  end.

(** The [try] block of the asset loop of a comment. *)
Definition store_comment_assets (row : Comment.t) (ct : string) : M (option unit) :=
  let* stored := store_assets ct in
  match stored with
  | None => ret None
  | Some None => ret (Some tt)
  | Some (Some c) =>
      with_store (set_comment (fun x => Comment.id x = Comment.id row)
                    (Comment.with_content c)) ;;
      ret (Some tt)
  end.

(** The first part of the handler: the checks and the reminders.  [inl] is
    the answer that ends the handler, [inr] the [uid] and the [ct] that
    the row is made of. *)
Definition comment_check (ses : Session) (root : bool) (rid : Z) (id : Z)
    (ct : option string) : M (Reply + string * string) :=
  let* rows := read_store (get_bottle (fun b => Bottle.id b = id)) in
  match rows with
  | [] => ret (inl NoBottleToComment)
  | bottle :: _ =>
      let* answered :=
        if decide (rid > 0) then
          let* cs := read_store (get_comment
                       (fun c => Comment.bid c = id /\ Comment.cid c = rid)) in
          ret (Some (head cs))
        else ret None in
      match answered with
      | Some None => ret (inl NoCommentToAnswer)
      | _ =>
          let answered := c ← mjoin answered; Some (rid, c) in
          if falsy ct && bool_decide (quote ses = None)
          then ret (inl ContentMissing)
          else
            match ct with
            | None => ret (inl Uncaught)
            | Some ct =>
                let uid := if root
                           then from_option quote_user (userId ses) (quote ses)
                           else userId ses in
                let ct := if allowPic cfg then ct else strip_tags ct in
                if includes "<audio " ct || includes "<video " ct
                then ret (inl NoMediaInComments)
                else if decide (strlen ct > maxLength cfg) then ret (inl TooLong)
                else if decide (strlen ct < 1) then ret (inl TooShort)
                else
                  let ct := "“" +:+ ct +:+ "”" in
                  let* ct := if decide (platform ses <> "qq")
                             then notify_bots uid id bottle answered (bots env) ct
                             else ret ct in
                  ret (inr (uid, ct))
            end
      end
  end.

(** The second part: the number of the comment, the row, its assets.
    [inr] is the [cid] that the preview uses. *)
Definition comment_insert (ses : Session) (id : Z) (uid ct : string)
    : M (Reply + Z) :=
  let* data := read_store (get_comment (fun c => Comment.bid c = id)) in
  let cid := next_cid data in
  let* row := db_create_comment
      (Comment.mk 0 cid id uid (guildId ses) (channelId ses)
         (sessionName ses) ct (today ses)) in
  let* stored :=
    match saveMode cfg with
    | SaveUrl => ret (Finished tt)
    | _ =>
        retrying retry_budget 0 (store_comment_assets row ct)
          (session_send AssetsNotStored ;;
           with_store (remove_comment (fun x => Comment.id x = Comment.id row)))
    end in
  match stored with
  | NoFuel => ret (inl OutOfFuel)
  | GaveUp | Disposed => ret (inl Silent)
  | Finished _ => ret (inr cid)
  end.

(** The rest of the handler: [if (config.preview) { ... } else { ... }]. *)
Definition comment_preview (ses : Session) (id cid : Z) (ct : string) : M Reply :=
  if preview cfg then
    let* sent :=
      retrying retry_budget 0 (preview_comment ses id cid ct)
        (session_send PreviewNotSent ;;
         with_store (remove_comment
                       (fun x => Comment.bid x = id /\ Comment.cid x = cid))) in
    match sent with
    | NoFuel => ret OutOfFuel
    | _ => ret Silent
    end
  else
    let* sent := sendMessage (channelId ses) CommentThrown in
    match sent with
    | None => ret Uncaught
    | Some _ =>
        let* again := read_store (get_bottle (fun b => Bottle.id b = id)) in
        with_store (set_bottle (fun b => Bottle.id b = id)
                      (Bottle.with_commentCount
                         (Num (Z.of_nat (length again) + 1)))) ;;
        ret Silent
    end.

Definition comment_bottle (ses : Session) (root : bool) (rid : Z) (id : Z)
    (ct : option string) : M Reply :=
  let* checked := comment_check ses root rid id ct in
  match checked with
  | inl answer => ret answer
  | inr (uid, ct) =>
      let* inserted := comment_insert ses id uid ct in
      match inserted with
      | inl answer => ret answer
      | inr cid => comment_preview ses id cid ct
      end
  end.

(** *** 删除瓶子 and 删除评论: delete a bottle, delete a comment *)

(** One turn of the loop over the elements of a content:
<<
    if (["img", "audio", "video"].includes(element.type)
        && element.attrs.src.startsWith("file"))
      unlinkSync(fileURLToPath(element.attrs.src))
>>
    It throws on a media element without [src] and when [unlinkSync]
    throws. *)
Definition unlink_element (e : Element) : M bool :=
  if decide (is_media e) then
    match el_src e with
    | None => ret false
    | Some src => if startsWith "file" src then unlinkSync src else ret true
    end
  else ret true.

(** The loop that unlinks the local files of a content; [false] when it
    throws.  Nothing catches that: the handler ends there. *)
Definition unlink_assets (content : string) : M bool :=
  for_each (h_parse env content) unlink_element.

Definition delete_bottle (ses : Session) (id : Z) : M Reply :=
  let* rows := read_store (get_bottle (fun b => Bottle.id b = id)) in
  match rows with
  | [] => ret NoBottleToDelete
  | bottle :: _ =>
      if bool_decide (~ is_manager (userId ses))
         && bool_decide (userId ses <> Bottle.uid bottle)
      then ret NotYourBottle
      else
        let* unlinked := unlink_assets (Bottle.content bottle) in
        if negb unlinked then ret Uncaught
        else
          let* cs := read_store (get_comment (fun c => Comment.bid c = id)) in
          let* unlinked := for_each cs (fun c => unlink_assets (Comment.content c)) in
          if negb unlinked then ret Uncaught
          else
            with_store (remove_bottle (fun b => Bottle.id b = id)) ;;
            with_store (remove_comment (fun c => Comment.bid c = id)) ;;
            ret BottleDeleted
  end.

Definition delete_comment (ses : Session) (bid cid : Z) : M Reply :=
  let* rows := read_store (get_comment
                 (fun c => Comment.bid c = bid /\ Comment.cid c = cid)) in
  match rows with
  | [] => ret NoCommentToDelete
  | comment :: _ =>
      if bool_decide (~ is_manager (userId ses))
         && bool_decide (userId ses <> Comment.uid comment)
      then ret NotYourComment
      else
        let* unlinked := unlink_assets (Comment.content comment) in
        if negb unlinked then ret Uncaught
        else
          with_store (remove_comment
                        (fun c => Comment.bid c = bid /\ Comment.cid c = cid)) ;;
          ret CommentDeleted
  end.

(** *** 删除过期瓶子: delete the bottles older than a number of days *)

Definition delete_expired (ses : Session) (days : option Z) : M Reply :=
  match days with
  | None => ret DaysMissing
  | Some deleteDays =>
      if decide (deleteDays = 0) then ret DaysMissing
      else if decide (is_manager (userId ses)) then
        let* old := read_store (get_bottle
                      (fun b => Bottle.time b < today ses - deleteDays)) in
        if decide (length old < 1)%nat then ret NothingExpired
        else
          with_store (remove_bottle
                        (fun b => Bottle.time b < today ses - deleteDays)) ;;
          with_store (remove_comment
                        (fun c => Comment.time c < today ses - deleteDays)) ;;
          with_store (remove_comment
                        (fun c => Comment.bid c ∈ map Bottle.id old)) ;;
          ret ExpiredDeleted
      else ret ExpiryDenied
  end.

(** *** 删除无效瓶子: find the bottles that cannot be sent, delete them *)

(** The [try] block of the audit loop: the send, then the wait of
    [options.delay]; [Some false] is the [return] of a rejected wait. *)
Definition audit_send (ses : Session) (b : Bottle.t) : M (option bool) :=
  let* sent := sendMessage (channelId ses) (AuditBottle b) in
  match sent with
  | None => ret None
  | Some _ => let* awake := sleep in ret (Some awake)
  end.

(** [for (let bottle of bottles)]: the ids pushed to [brokenBottle], or
    the answer when the handler returns from inside the loop. *)
Fixpoint audit_bottles (ses : Session) (rows : list Bottle.t)
    (brokenBottle : list Z) : M (Reply + list Z) :=
  match rows with
  | [] => ret (inr brokenBottle)
  | b :: rest =>
      let* sent := retrying retry_budget 0 (audit_send ses b)
                     (session_send (BottleUnsendable (Bottle.id b))) in
      match sent with
      | Finished true => audit_bottles ses rest brokenBottle
      | Finished false | Disposed => ret (inl Silent)
      | GaveUp => audit_bottles ses rest (brokenBottle ++ [Bottle.id b])
      | NoFuel => ret (inl OutOfFuel)
      end
  end.

(** An optional integer argument used as a condition: there and not [0]. *)
Definition given (n : option Z) : bool :=
  match n with
  | Some z => bool_decide (z <> 0)
  | None => false
  end.

(** [start > end]; a comparison with [undefined] is false. *)
Definition js_gt (a b : option Z) : bool :=
  match a, b with
  | Some x, Some y => bool_decide (x > y)
  | _, _ => false
  end.

(** [{ id: start ? { $gte: start, $lte: end } : {} }] *)
Definition in_range (start end_ : option Z) (b : Bottle.t) : Prop :=
  match start, end_ with
  | Some lo, Some hi => lo = 0 \/ (lo <= Bottle.id b /\ Bottle.id b <= hi)
  | Some lo, None => lo = 0
  | None, _ => True
  end.

#[global] Instance in_range_dec start end_ b : Decision (in_range start end_ b).
Proof. unfold in_range. destruct start, end_; apply _. Defined.

Definition delete_invalid_bottles (ses : Session) (start end_ : option Z)
    : M Reply :=
  if decide (is_manager (userId ses)) then
    if given start && bool_decide (end_ = None) then ret EndMissing
    else if js_gt start end_ then ret StartAfterEnd
    else
      session_send AuditWarning ;;
      let* confirm := prompt in
      if decide (confirm <> Some "是") then ret AuditCancelled
      else
        session_send AuditRunning ;;
        let* rows := read_store (get_bottle (in_range start end_)) in
        let* audited := audit_bottles ses rows [] in
        match audited with
        | inl answer => ret answer
        | inr brokenBottle =>
            if decide (length brokenBottle = 0)%nat then ret NothingUnsendable
            else
              session_send (UnsendableBottles brokenBottle) ;;
              let* reply := prompt in
              if decide (reply = Some "删除") then
                with_store (remove_bottle (fun b => Bottle.id b ∈ brokenBottle)) ;;
                ret UnsendableDeleted
              else ret DeletionCancelled
        end
  else ret AuditDenied.

(** *** 命名瓶子 and 设置精选瓶子: name a bottle, feature a bottle *)

Definition name_bottle (ses : Session) (id : Z) (name : string) : M Reply :=
  let* bottle := read_store (get_bottle (fun b => Bottle.id b = id)) in
  match bottle with
  | [] => ret NoSuchBottle
  | first :: _ =>
      if bool_decide (Bottle.uid first <> userId ses)
         && bool_decide (~ is_manager (userId ses))
      then ret RenameDenied
      else if negb (isNaN (to_number env name)) then ret NameIsNumber
      else
        with_store (set_bottle (fun b => Bottle.id b = id) (Bottle.with_name name)) ;;
        ret Renamed
  end.

Definition set_hot_bottle (ses : Session) (id : Z) : M Reply :=
  let* bottle := read_store (get_bottle (fun b => Bottle.id b = id)) in
  match bottle with
  | [] => ret NoSuchBottle
  | _ :: _ =>
      if bool_decide (~ is_manager (userId ses)) then ret FeatureDenied
      else
        with_store (set_bottle (fun b => Bottle.id b = id) (Bottle.with_isHot 1)) ;;
        ret Featured
  end.
(** *** The command surface *)

Inductive Request :=
  | Throw (ses : Session) (title message : option string)
  | Draw (ses : Session) (bottleId : option string) (page : option Z)
  | CommentOn (ses : Session) (root : bool) (rid id : Z) (ct : option string)
  | DeleteBottle (ses : Session) (id : Z)
  | DeleteComment (ses : Session) (bid cid : Z)
  | DeleteExpired (ses : Session) (days : option Z)
  | DeleteInvalid (ses : Session) (start end_ : option Z)
  | NameBottle (ses : Session) (id : Z) (name : string)
  | SetHot (ses : Session) (id : Z).

Definition handle (r : Request) : M Reply :=
  match r with
  | Throw ses title message => throw_bottle ses title message
  | Draw ses bottleId page => draw_bottle ses bottleId page
  | CommentOn ses root rid id ct => comment_bottle ses root rid id ct
  | DeleteBottle ses id => delete_bottle ses id
  | DeleteComment ses bid cid => delete_comment ses bid cid
  | DeleteExpired ses days => delete_expired ses days
  | DeleteInvalid ses start end_ => delete_invalid_bottles ses start end_
  | NameBottle ses id name => name_bottle ses id name
  | SetHot ses id => set_hot_bottle ses id
  end.

(** The handlers run one after the other, each to its end. *)
Fixpoint serve (rs : list Request) : M (list Reply) :=
  match rs with
  | [] => ret []
  | r :: rest =>
      let* a := handle r in
      let* others := serve rest in
      ret (a :: others)
  end.
End Handlers.

(** * The listings and the audit of the comments *)

(** ** What they answer *)

(** [Math.ceil(rows / size)] as a footer prints it: a division by [0]
    gives [Infinity], and [0 / 0] gives [NaN]. *)
Inductive PageCount :=
  | Pages (n : Z)
  | InfinitePages
  | NoPageCount.

#[global] Instance PageCount_eq_dec : EqDecision PageCount.
Proof. solve_decision. Defined.

Definition page_count (rows : nat) (size : Z) : PageCount :=
  if decide (size = 0) then
    if decide (rows = 0%nat) then NoPageCount else InfinitePages
  else Pages (- (- Z.of_nat rows / size)).

(** Whose bottles a list shows: the caller's own (查看我的瓶子) or
    those of the user that a manager names (查看用户瓶子). *)
Inductive Whose := Mine | Theirs.

(** Why a bottle is in the featured list:
    [bottle.isHot ? "管理员精选" : `评论数 ${bottle.commentCount}`]. *)
Inductive HotLabel :=
  | ByManager
  | ByComments (n : jsnum).

(** A cell of the directory image: the id and the name of a bottle. *)
Definition Cell : Type := Z * string.

Inductive Answer :=
  (** the handler returns nothing *)
  | Returned
  (** the bound on the iterations of a retry loop was too small; no run
      ends this way *)
  | Exhausted
  | CommentAuditDenied          (* "你没有权限删除无效评论！" *)
  | CommentAuditEndMissing      (* "请输入结束编号！" *)
  | CommentAuditStartAfterEnd   (* "起始编号不能大于结束编号！" *)
  | CommentAuditCancelled       (* "已取消操作" *)
  | NoCommentUnsendable         (* "未发现无法发送的评论！" *)
  | UnsendableCommentsDeleted   (* "已删除以上评论" *)
  | CommentDeletionCancelled    (* "已取消删除" *)
  | NothingListed (whose : Whose)
                                (* "你还没有扔过瓶子！", "该用户还没有扔过瓶子！" *)
  | ListDenied                  (* "你没有权限！" *)
  | UserMissing                 (* "请@一个用户或输入用户ID！" *)
  (** the ids and names of the bottles, on one line (option [-l]) *)
  | IdList (whose : Whose) (rows : list (Z * string))
  (** a line for each bottle: id, name, content; then the page and the
      number of pages, when the list is paginated *)
  | BottleList (whose : Whose) (rows : list (Z * string * string))
      (footer : option (Z * PageCount))
  (** 瓶子黄页 as text: the ids and names, the page, the number of pages *)
  | IndexText (rows : list (Z * string)) (page : Z) (pages : PageCount)
  (** 瓶子黄页 as an image: the three columns of the table; a cell that
      has no bottle shows a dash *)
  | IndexImage (col1 : list Cell) (col2 col3 : list (option Cell))
      (page : Z) (pages : PageCount)
  (** 精选瓶子 *)
  | HotList (rows : list (Z * HotLabel * string)) (page : Z) (pages : PageCount).

(** The fields of [config] that the directory and the featured list read,
    and whether the optional [puppeteer] service is there. *)
Record Display := mkDisplay {
  indexLimit : Z;
  indexToImage : bool;
  hotBottleLimit : Z;
  hotThresholdValue : Z;
  puppeteer : bool
}.

(** Modelled from the spec: a [query] without [orderBy] gives the rows
    in table order, as [get] does. *)
Definition select_bottle_unordered (P : Bottle.t -> Prop)
    `{!forall b, Decision (P b)} (limit : option Z) (offset : Z) (s : Store)
    : list Bottle.t :=
  page_of limit offset (filter P (bottles s)).

(** [\d] *)
Definition is_decimal (c : ascii) : bool :=
  bool_decide (48 <= nat_of_ascii c)%nat && bool_decide (nat_of_ascii c <= 57)%nat.

Fixpoint leading_digits (s : string) : string :=
  match s with
  | String c r => if is_decimal c then String c (leading_digits r) else EmptyString
  | EmptyString => EmptyString
  end.

(** [/\d+/.exec(s)?.[0]]: the first run of digits of [s], all of it. *)
Fixpoint first_digits (s : string) : option string :=
  match s with
  | EmptyString => None
  | String c r =>
      if is_decimal c then Some (String c (leading_digits r))
      else first_digits r
  end.

(** What a list shows of a content:
    [content.includes("<audio") ? "[语音]" : content.includes("<video") ? "[视频]" : content] *)
Definition shown_content (content : string) : string :=
  if includes "<audio" content then "[语音]"
  else if includes "<video" content then "[视频]"
  else content.

(** The rows of the directory image: each turn of the loop
    [for (let i = 0; i < bottles.length; i += 3)] pushes a cell to each
    of the three columns, a dash where the page has no bottle left. *)
Fixpoint table_rows (rows : list Bottle.t) : list (Cell * option Cell * option Cell) :=
  match rows with
  | [] => []
  | a :: [] => [((Bottle.id a, Bottle.name a), None, None)]
  | a :: b :: [] =>
      [((Bottle.id a, Bottle.name a), Some (Bottle.id b, Bottle.name b), None)]
  | a :: b :: c :: rest =>
      ((Bottle.id a, Bottle.name a), Some (Bottle.id b, Bottle.name b),
       Some (Bottle.id c, Bottle.name c)) :: table_rows rest
  end.

(** [{$or: [{isHot: 1}, {commentCount: {$gte: threshold}}]}]; no
    comparison with [NaN] holds. *)
Definition is_hot (threshold : Z) (b : Bottle.t) : Prop :=
  Bottle.isHot b = 1
  \/ match Bottle.commentCount b with
     | Num n => n >= threshold
     | NaN => False
     end.

#[global] Instance is_hot_dec threshold b : Decision (is_hot threshold b).
Proof. unfold is_hot. destruct (Bottle.commentCount b); apply _. Defined.

(** [brokenComment.set(key, brokenComment.has(key)
      ? [...brokenComment.get(key), cid] : [cid])] on a [Map], whose
    entries keep the order in which their keys came. *)
Fixpoint map_push (key cid : Z) (m : list (Z * list Z)) : list (Z * list Z) :=
  match m with
  | [] => [(key, [cid])]
  | (k, v) :: rest =>
      if decide (k = key) then (k, v ++ [cid]) :: rest
      else (k, v) :: map_push key cid rest
  end.

(** What the audit of the comments collects: [brokenComment], from the
    id of a bottle to the numbers of its comments that cannot be sent,
    and [brokenCommentId], the ids of their rows. *)
Record Broken := mkBroken {
  brokenComment : list (Z * list Z);
  brokenCommentId : list Z
}.

Section Listings.
Context (cfg : Config) (display : Display) (env : Env).

#[local] Instance is_manager_dec user : Decision (is_manager cfg user).
Proof. unfold is_manager. apply _. Defined.

(** *** 查看我的瓶子 and 查看用户瓶子: the bottles of a user *)

(** The body that the two handlers share, word for word but for the
    texts: the bottles whose [uid] is [uid], one page of them unless
    [-l] asks for the ids alone. *)
Definition list_bottles (whose : Whose) (uid : string) (list : bool)
    (page : option Z) : M Answer :=
  let* all := read_store (get_bottle (fun b => Bottle.uid b = uid)) in
  let unpaged := bool_decide (bottleLimit cfg = 0) || list in
  let* rows := read_store
      (select_bottle_unordered (fun b => Bottle.uid b = uid)
         (if unpaged then None else Some (bottleLimit cfg))
         (if unpaged then 0 else (page_or_1 page - 1) * bottleLimit cfg)) in
  if decide (length rows < 1)%nat then ret (NothingListed whose)
  else if list
  then ret (IdList whose (map (fun b => (Bottle.id b, Bottle.name b)) rows))
  else ret (BottleList whose
              (map (fun b => (Bottle.id b, Bottle.name b,
                              shown_content (Bottle.content b))) rows)
              (if decide (bottleLimit cfg <> 0)
               then Some (page_or_1 page,
                          page_count (length all) (bottleLimit cfg))
               else None)).

Definition my_bottles (ses : Session) (list : bool) (page : option Z) : M Answer :=
  list_bottles Mine (userId ses) list page.

(** An argument that is not there reads as ["undefined"] to [exec]. *)
Definition user_bottles (ses : Session) (list : bool) (user : option string)
    (page : option Z) : M Answer :=
  if decide (is_manager cfg (userId ses)) then
    match first_digits (default "undefined" user) with
    | Some id => list_bottles Theirs id list page
    | None => ret UserMissing
    end
  else ret ListDenied.

(** *** 瓶子黄页: the directory *)

Definition bottle_index (page : option Z) : M Answer :=
  let* all := read_store (get_bottle (fun _ => True)) in
  let* rows := read_store
      (select_bottle (fun _ => True) (limit_of (indexLimit display))
         (offset_of (indexLimit display) page)) in
  let text := IndexText (map (fun b => (Bottle.id b, Bottle.name b)) rows)
                (page_or_1 page)
                (page_count (length all) (indexLimit display)) in
  if indexToImage display then
    if negb (puppeteer display) then ret text
    else
      let table := table_rows rows in
      ret (IndexImage (map (fun r => r.1.1) table) (map (fun r => r.1.2) table)
             (map (fun r => r.2) table) (page_or_1 page)
             (page_count (length all) (indexLimit display)))
  else ret text.

(** *** 精选瓶子: the featured bottles *)

Definition hot_bottles (page : option Z) : M Answer :=
  let* all := read_store (get_bottle (is_hot (hotThresholdValue display))) in
  let* rows := read_store
      (select_bottle (is_hot (hotThresholdValue display))
         (limit_of (hotBottleLimit display))
         (offset_of (hotBottleLimit display) page)) in
  ret (HotList
         (map (fun b => (Bottle.id b,
                         if decide (Bottle.isHot b <> 0) then ByManager
                         else ByComments (Bottle.commentCount b),
                         Bottle.name b)) rows)
         (page_or_1 page)
         (page_count (length all) (hotBottleLimit display))).

(** *** 删除无效评论: find the comments that cannot be sent, delete them *)

(** The [try] block of the audit loop: the send, then the wait of
    [options.delay]; [Some false] is the [return] of a rejected wait. *)
Definition audit_comment_send (ses : Session) (c : Comment.t) : M (option bool) :=
  let* sent := sendMessage env (channelId ses) (AuditComment c) in
  match sent with
  | None => ret None
  | Some _ => let* awake := sleep env in ret (Some awake)
  end.

(** [for (const comment of comments)] for the bottle [bid]: what has been
    collected, or the answer when the handler returns from inside the
    loop. *)
Fixpoint audit_comments (ses : Session) (bid : Z) (rows : list Comment.t)
    (broken : Broken) : M (Answer + Broken) :=
  match rows with
  | [] => ret (inr broken)
  | c :: rest =>
      let* sent := retrying cfg env (retry_budget cfg) 0 (audit_comment_send ses c)
                     (session_send (CommentUnsendable bid (Comment.cid c))) in
      match sent with
      | Finished true => audit_comments ses bid rest broken
      | Finished false | Disposed => ret (inl Returned)
      | GaveUp =>
          audit_comments ses bid rest
            (mkBroken (map_push bid (Comment.cid c) (brokenComment broken))
                      (brokenCommentId broken ++ [Comment.id c]))
      | NoFuel => ret (inl Exhausted)
      end
  end.

(** [for (let bottle of bottles)] *)
Fixpoint audit_comments_of (ses : Session) (rows : list Bottle.t)
    (broken : Broken) : M (Answer + Broken) :=
  match rows with
  | [] => ret (inr broken)
  | b :: rest =>
      let* cs := read_store (get_comment (fun c => Comment.bid c = Bottle.id b)) in
      let* audited := audit_comments ses (Bottle.id b) cs broken in
      match audited with
      | inl answer => ret (inl answer)
      | inr broken' => audit_comments_of ses rest broken'
      end
  end.

Definition delete_invalid_comments (ses : Session) (start end_ : option Z)
    : M Answer :=
  if decide (is_manager cfg (userId ses)) then
    if given start && bool_decide (end_ = None) then ret CommentAuditEndMissing
    else if js_gt start end_ then ret CommentAuditStartAfterEnd
    else
      session_send AuditWarning ;;
      let* confirm := prompt env in
      if decide (confirm <> Some "是") then ret CommentAuditCancelled
      else
        session_send AuditRunning ;;
        let* rows := read_store (get_bottle (in_range start end_)) in
        let* audited := audit_comments_of ses rows (mkBroken [] []) in
        match audited with
        | inl answer => ret answer
        | inr broken =>
            if decide (length (brokenComment broken) = 0)%nat
            then ret NoCommentUnsendable
            else
              session_send (UnsendableComments
                              (mjoin (map snd (brokenComment broken)))) ;;
              let* reply := prompt env in
              if decide (reply = Some "删除") then
                with_store (remove_comment
                              (fun c => Comment.id c ∈ brokenCommentId broken)) ;;
                ret UnsendableCommentsDeleted
              else ret CommentDeletionCancelled
        end
  else ret CommentAuditDenied.

(** *** Every command *)

Inductive Command :=
  | Ask (r : Request)
  | DeleteInvalidComments (ses : Session) (start end_ : option Z)
  | MyBottles (ses : Session) (list : bool) (page : option Z)
  | UserBottles (ses : Session) (list : bool) (user : option string)
      (page : option Z)
  | BottleIndex (page : option Z)
  | HotBottles (page : option Z).

Definition run (c : Command) : M (Reply + Answer) :=
  match c with
  | Ask r => let* a := handle cfg env r in ret (inl a)
  | DeleteInvalidComments ses start end_ =>
      let* a := delete_invalid_comments ses start end_ in ret (inr a)
  | MyBottles ses list page =>
      let* a := my_bottles ses list page in ret (inr a)
  | UserBottles ses list user page =>
      let* a := user_bottles ses list user page in ret (inr a)
  | BottleIndex page => let* a := bottle_index page in ret (inr a)
  | HotBottles page => let* a := hot_bottles page in ret (inr a)
  end.

(** The commands run one after the other, each to its end. *)
Fixpoint run_all (cs : list Command) : M (list (Reply + Answer)) :=
  match cs with
  | [] => ret []
  | c :: rest =>
      let* a := run c in
      let* others := run_all rest in
      ret (a :: others)
  end.
End Listings.

(** * The vocabulary of the properties *)

(** ** Computations *)

(** A computation that leaves the two tables as they are. *)
Definition reads {A} (m : M A) : Prop :=
  forall w, store (m w).2 = store w.

(** A computation that leaves the comment table as it is. *)
Definition keeps_comments {A} (m : M A) : Prop :=
  forall w, comments (store (m w).2) = comments (store w).

(** A computation whose result satisfies [P] from every world. *)
Definition answers {A} (P : A -> Prop) (m : M A) : Prop :=
  forall w, P (m w).1.

(** ** Stores *)

(** The ids of the rows are among those that the store has handed out. *)
Definition well_formed (s : Store) : Prop :=
  (forall b, b ∈ bottles s -> Bottle.id b <= bottle_seq s)
  /\ (forall c, c ∈ comments s -> Comment.id c <= comment_seq s).

(** The comments of a bottle, and their number. *)
Definition comments_of (s : Store) (id : Z) : list Comment.t :=
  filter (fun c => Comment.bid c = id) (comments s).

Definition count_of (s : Store) (id : Z) : Z :=
  Z.of_nat (length (comments_of s id)).

(** Every bottle carries the number of its comments. *)
Definition counted (s : Store) : Prop :=
  forall b, b ∈ bottles s -> Bottle.commentCount b = Num (count_of s (Bottle.id b)).

(** The [cid]s of the comments of a bottle. *)
Definition cids_of (s : Store) (bid : Z) : list Z :=
  map Comment.cid (comments_of s bid).

(** For every bottle, the [cid]s of its comments are the numbers from [1]
    to the number of its comments, each once. *)
Definition dense (s : Store) : Prop :=
  forall bid, cids_of s bid ≡ₚ seqZ 1 (count_of s bid).

(** Older than [N] days on day [today], by the day numbers. *)
Definition older_than (today N : Z) (time : Z) : Prop := today - time > N.

(** The message shows bottle [b]. *)
Definition shows (b : Bottle.t) (m : Message) : Prop :=
  match m with
  | BottleForward b' _ | BottleText b' _ _ => b' = b
  | _ => False
  end.

(** ** What a comment does to a store *)

(** [s'] is [s] with one more comment, [row], on bottle [id]: the row has
    the next id of the table and the next [cid] of the bottle. *)
Definition appended (s s' : Store) (id : Z) (row : Comment.t) : Prop :=
  bottles s' = bottles s
  /\ bottle_seq s' = bottle_seq s
  /\ comment_seq s' = comment_seq s + 1
  /\ comments s' = comments s ++ [row]
  /\ Comment.id row = comment_seq s + 1
  /\ Comment.bid row = id
  /\ Comment.cid row = next_cid (comments_of s id).

(** [s'] has the rows of [s]; its comment counter may have moved on. *)
Definition restored (s s' : Store) : Prop :=
  bottles s' = bottles s
  /\ comments s' = comments s
  /\ bottle_seq s' = bottle_seq s
  /\ comment_seq s <= comment_seq s'.

(** The patch of the preview loop: the counter of the first row of the
    bottle, plus one, written to the rows of the bottle. *)
Definition bump (id : Z) (first : Bottle.t) (b : Bottle.t) : Bottle.t :=
  if decide (Bottle.id b = id)
  then Bottle.with_commentCount (js_succ (Bottle.commentCount first)) b
  else b.

(** [s'] is [s] with the row appended and the counter of bottle [id]
    moved on by one. *)
Definition posted (s s' : Store) (id : Z) (first : Bottle.t) (row : Comment.t) : Prop :=
  bottles s' = map (bump id first) (bottles s)
  /\ comments s' = comments s ++ [row]
  /\ bottle_seq s' = bottle_seq s
  /\ comment_seq s' = comment_seq s + 1.

(** [s'] has the bottles of [s], up to their counters, and the comments of
    [s], or those and one more on bottle [id] with the next [cid]. *)
Definition grown (s s' : Store) (id : Z) : Prop :=
  map Bottle.id (bottles s') = map Bottle.id (bottles s)
  /\ bottle_seq s' = bottle_seq s
  /\ ((comments s' = comments s /\ comment_seq s <= comment_seq s')
      \/ exists row, comments s' = comments s ++ [row]
                     /\ Comment.bid row = id
                     /\ Comment.cid row = next_cid (comments_of s id)
                     /\ Comment.id row = comment_seq s + 1
                     /\ comment_seq s' = comment_seq s + 1).

(** ** Sequences of requests *)

Definition is_comment (r : Request) : Prop :=
  match r with
  | CommentOn _ _ _ _ _ => True
  | _ => False
  end.

Definition is_comment_or_deletion (r : Request) : Prop :=
  match r with
  | CommentOn _ _ _ _ _ | DeleteComment _ _ _ => True
  | _ => False
  end.

(** ** The properties as the specification words them *)

(** The claim of the specification about the startup pass, as it is
    written: whenever some row of the bottle table carries the sentinel,
    every bottle ends with the number of its comments. *)
Definition backfilled_when_sentinel_present (s : Store) : Prop :=
  (exists b, b ∈ bottles s /\ Bottle.commentCount b = sentinel) ->
  forall b, b ∈ bottles (startup s) ->
            Bottle.commentCount b = Num (count_of (startup s) (Bottle.id b)).

(** The claim of the specification about the sweep, as it is written: the
    bottles that go are those older than [N] days, and the comments that
    go are those of the bottles that go. *)
Definition swept_as_specified (today N : Z) (s s' : Store) : Prop :=
  (forall b, b ∈ bottles s' <->
             b ∈ bottles s /\ ~ older_than today N (Bottle.time b))
  /\ (forall c, c ∈ comments s' <->
                c ∈ comments s
                /\ ~ exists b, b ∈ bottles s
                               /\ older_than today N (Bottle.time b)
                               /\ Comment.bid c = Bottle.id b).

(** The claim of the specification about a draw by name, as it is written:
    what decides is the number of bottles whose name matches. *)
Definition drawn_by_name_as_specified (cfg : Config) (env : Env) (ses : Session)
    (pattern : string) (page : option Z) (w : World) : Prop :=
  let matching := get_bottle (name_matches env pattern) (store w) in
  let r := draw_bottle cfg env ses (Some pattern) page w in
  (matching = [] -> r.1 = NoSuchBottle)
  /\ ((1 < length matching)%nat -> exists rows total, r.1 = ChooseBottle rows total)
  /\ (forall b, matching = [b] ->
        exists m rest, outbox r.2 = outbox w ++ Sent (channelId ses) m :: rest
                       /\ shows b m).

(** The claim of the specification about the counter, as it is written:
    it is right after any sequence of comments and deletions of comments. *)
Definition counted_after (cfg : Config) (env : Env) (rs : list Request)
    (w : World) : Prop :=
  Forall is_comment_or_deletion rs ->
  well_formed (store w) ->
  counted (store w) ->
  counted (store (serve cfg env rs w).2).

(** The claim of the specification about the [cid]s, as it is written:
    they are [1..n] after any sequence of comments and deletions. *)
Definition dense_after (cfg : Config) (env : Env) (rs : list Request)
    (w : World) : Prop :=
  Forall is_comment_or_deletion rs ->
  well_formed (store w) ->
  dense (store w) ->
  dense (store (serve cfg env rs w).2).

(** ** What a command may do to the tables *)

(** A computation that takes every store [s] to a store [s'] with
    [R s s']. *)
Definition steps (R : Store -> Store -> Prop) {A} (m : M A) : Prop :=
  forall w, R (store w) (store (m w).2).

(** [b'] is [b] at a later time: who threw it, where and when are the
    same, and if it was featured it still is. *)
Definition descends (b b' : Bottle.t) : Prop :=
  Bottle.id b' = Bottle.id b
  /\ Bottle.uid b' = Bottle.uid b
  /\ Bottle.gid b' = Bottle.gid b
  /\ Bottle.cnid b' = Bottle.cnid b
  /\ Bottle.username b' = Bottle.username b
  /\ Bottle.time b' = Bottle.time b
  /\ (Bottle.isHot b = 1 -> Bottle.isHot b' = 1).

(** [c'] is [c], up to its content. *)
Definition same_comment (c c' : Comment.t) : Prop :=
  c' = Comment.with_content (Comment.content c') c.

(** [s'] comes after [s]: the counters have not gone back, and a row of
    [s'] either descends from a row of [s] or has an id that [s] had not
    handed out. *)
Definition follows (s s' : Store) : Prop :=
  bottle_seq s <= bottle_seq s'
  /\ comment_seq s <= comment_seq s'
  /\ (forall b', b' ∈ bottles s' ->
        (exists b, b ∈ bottles s /\ descends b b') \/ bottle_seq s < Bottle.id b')
  /\ (forall c', c' ∈ comments s' ->
        (exists c, c ∈ comments s /\ same_comment c c')
        \/ comment_seq s < Comment.id c').

(** The ids of a table are below its counter and no two rows share one. *)
Definition sound (s : Store) : Prop :=
  well_formed s
  /\ NoDup (map Bottle.id (bottles s))
  /\ NoDup (map Comment.id (comments s)).

(** Every comment belongs to a bottle of the table. *)
Definition linked (s : Store) : Prop :=
  forall c, c ∈ comments s -> Comment.bid c ∈ map Bottle.id (bottles s).

(** A relation on stores that holds across each of the store operations
    that the handlers perform. *)
Record Respected (R : Store -> Store -> Prop) : Prop := mkRespected {
  respected_refl : forall s, R s s;
  respected_trans : forall s1 s2 s3, R s1 s2 -> R s2 s3 -> R s1 s3;
  respected_create_bottle : forall row s, R s (create_bottle row s).2;
  respected_create_comment : forall row s, R s (create_comment row s).2;
  respected_set_bottle :
    forall (P : Bottle.t -> Prop) (dec : forall b, Decision (P b)) patch s,
      (forall b, descends b (patch b)) -> R s (set_bottle P patch s);
  respected_set_comment :
    forall (P : Comment.t -> Prop) (dec : forall c, Decision (P c)) content s,
      R s (set_comment P (Comment.with_content content) s);
  respected_remove_bottle :
    forall (P : Bottle.t -> Prop) (dec : forall b, Decision (P b)) s,
      R s (remove_bottle P s);
  respected_remove_comment :
    forall (P : Comment.t -> Prop) (dec : forall c, Decision (P c)) s,
      R s (remove_comment P s)
}.

(** [s'] has the property [I] if [s] has it. *)
Definition preserves (I : Store -> Prop) (s s' : Store) : Prop := I s -> I s'.

(** The purge of the audit of the bottles, the one command after which a
    comment can be left without its bottle. *)
Definition purges_bottles (c : Command) : Prop :=
  match c with
  | Ask (DeleteInvalid _ _ _) => True
  | _ => False
  end.

(** [s'] has the bottles of [s], id for id, and no comment that [s] has
    not. *)
Definition tame (s s' : Store) : Prop :=
  map Bottle.id (bottles s') = map Bottle.id (bottles s)
  /\ forall c, c ∈ comments s' -> c ∈ comments s.

(** ** Runs from a given store *)

(** Run in a world whose store is [s], the computation ends with a
    result and a store that satisfy [Q]. *)
Definition from (s : Store) {A} (Q : A -> Store -> Prop) (m : M A) : Prop :=
  forall w, store w = s -> Q (m w).1 (store (m w).2).

(** What the two audits may answer and do: the store changes only with
    the answer [deleted], and then by the removal of rows that satisfy
    [P]. *)
Definition purged_bottles (P : Bottle.t -> Prop) (s : Store) (a : Reply)
    (s' : Store) : Prop :=
  match a with
  | UnsendableDeleted =>
      exists brokenBottle : list Z,
        (forall i, i ∈ brokenBottle -> exists b, b ∈ bottles s /\ P b /\ Bottle.id b = i)
        /\ s' = remove_bottle (fun b => Bottle.id b ∈ brokenBottle) s
  | _ => s' = s
  end.

Definition purged_comments (P : Comment.t -> Prop) (s : Store) (a : Answer)
    (s' : Store) : Prop :=
  match a with
  | UnsendableCommentsDeleted =>
      exists broken : list Z,
        (forall i, i ∈ broken ->
                   exists c, c ∈ comments s /\ P c /\ Comment.id c = i)
        /\ s' = remove_comment (fun c => Comment.id c ∈ broken) s
  | _ => s' = s
  end.

(** ** What a deletion unlinks *)

(** The loops of a deletion over these contents, one after the other, get
    through when the files are [fs]: every media element has a [src], and
    every local file is on disk and is named once, as a file is unlinked
    where it is named and cannot be unlinked a second time. *)
Definition unlinkable (env : Env) (contents : list string) (fs : gset string)
    : Prop :=
  Forall (sourced env) contents
  /\ NoDup (mjoin (map (local_assets env) contents))
  /\ Forall (fun f => f ∈ fs) (mjoin (map (local_assets env) contents)).

#[global] Instance unlinkable_dec env contents fs :
  Decision (unlinkable env contents fs).
Proof. unfold unlinkable, sourced. apply _. Defined.

(** The contents that the deletion of the bottle [id] goes over: the
    content of its first row, then those of its comments. *)
Definition contents_of (s : Store) (id : Z) : list string :=
  match get_bottle (fun b => Bottle.id b = id) s with
  | b :: _ =>
      Bottle.content b
      :: map Comment.content (get_comment (fun c => Comment.bid c = id) s)
  | [] => []
  end.

(** The world after files were unlinked. *)
Definition without (fs : list string) (w : World) : World :=
  mkWorld (store w) (files w ∖ list_to_set fs) (bottleMap w) (clock w) (outbox w).

(** ** Attempts that fail *)

(** The attempt of a retry loop that begins in [w] fails, and so do the
    [n] attempts after it: each failure is followed by a wait that is not
    cut short, and the next attempt begins where the wait ended.  With
    [n] retries allowed, these are all the attempts of the loop. *)
Fixpoint fails_every_time (env : Env) {A} (attempt : M (option A)) (n : nat)
    (w : World) : Prop :=
  (attempt w).1 = None
  /\ match n with
     | O => True
     | S n' =>
         (sleep env (attempt w).2).1 = true
         /\ fails_every_time env attempt n' (sleep env (attempt w).2).2
     end.

(** The world in which the last of these attempts ends. *)
Fixpoint after_attempts (env : Env) {A} (attempt : M (option A)) (n : nat)
    (w : World) : World :=
  match n with
  | O => (attempt w).2
  | S n' => after_attempts env attempt n' (sleep env (attempt w).2).2
  end.

(** The world in which a handler that gave up its preview ends: the
    notice went out and the store is [s]. *)
Definition given_up (s : Store) (w : World) : World :=
  mkWorld s (files w) (bottleMap w) (clock w) (outbox w ++ [Told PreviewNotSent]).

(** ** What a comment says *)





(** ** What a throw does to the tables *)

(** Whom a thrown bottle is attributed to. *)
Definition thrower (cfg : Config) (ses : Session) : string :=
  if selfDrop cfg then userId ses
  else from_option quote_user (userId ses) (quote ses).

(** The content of a throw as it is given: the quoted message or else
    the text, without its elements when pictures are not allowed. *)
Definition given_content (cfg : Config) (ses : Session) (message : option string)
    : string :=
  let content := from_option quote_content (default "" message) (quote ses) in
  if allowPic cfg then content else strip_tags content.

(** The row of a throw, with the content [c]. *)
Definition thrown_row (cfg : Config) (ses : Session) (title : option string)
    (id : Z) (c : string) : Bottle.t :=
  Bottle.mk id (default "" title) (thrower cfg ses) (guildId ses) (channelId ses)
    (sessionName ses) c 0 (Num 0) (today ses).

(** [s'] is [s] after a throw has taken the next id: with the row of the
    throw at the end of the bottle table ([Some c], [c] its content), or
    without it. *)
Definition thrown (cfg : Config) (ses : Session) (title : option string)
    (s : Store) (kept : option string) (s' : Store) : Prop :=
  comments s' = comments s
  /\ comment_seq s' = comment_seq s
  /\ bottle_seq s' = bottle_seq s + 1
  /\ bottles s' = bottles s
                  ++ from_option
                       (fun c => [thrown_row cfg ses title (bottle_seq s + 1) c])
                       [] kept.

(** * Worlds for the examples *)

Definition is_digit (c : ascii) : bool :=
  bool_decide (48 <= nat_of_ascii c)%nat && bool_decide (nat_of_ascii c <= 57)%nat.

(** The value of a digit in a base up to 16, if it is one. *)
Definition digit_in (base : Z) (c : ascii) : option Z :=
  let n := Z.of_nat (nat_of_ascii c) in
  let v := if decide (48 <= n <= 57) then Some (n - 48)
           else if decide (97 <= n <= 102) then Some (n - 87)
           else if decide (65 <= n <= 70) then Some (n - 55)
           else None in
  v ≫= fun d => if decide (d < base) then Some d else None.

(** The leading digits of [s] in a base: their value after [acc], how
    many they are, and what follows them. *)
Fixpoint read_digits (base acc : Z) (count : nat) (s : string) : Z * nat * string :=
  match s with
  | EmptyString => (acc, count, s)
  | String c r =>
      match digit_in base c with
      | Some d => read_digits base (base * acc + d) (S count) r
      | None => (acc, count, s)
      end
  end.

Definition is_blank (c : ascii) : bool :=
  bool_decide (nat_of_ascii c = 32)%nat
  || bool_decide (9 <= nat_of_ascii c <= 13)%nat.

Fixpoint trim_left (s : string) : string :=
  match s with
  | String c r => if is_blank c then trim_left r else s
  | EmptyString => s
  end.

Definition trim (s : string) : string :=
  String.rev (trim_left (String.rev (trim_left s))).

(** A numeral in base 16, 8 or 2, after its prefix. *)
Definition in_base (base : Z) (s : string) : Numeric :=
  match read_digits base 0 0 s with
  | (v, S _, EmptyString) => Integral v
  | _ => NotANumber
  end.

(** The exponent part of a decimal numeral, which may be absent. *)
Definition exponent (s : string) : option Z :=
  match s with
  | EmptyString => Some 0
  | String c r =>
      if bool_decide (c = "e"%char) || bool_decide (c = "E"%char) then
        let (negative, r) :=
          match r with
          | String "-" r' => (true, r')
          | String "+" r' => (false, r')
          | _ => (false, r)
          end in
        match read_digits 10 0 0 r with
        | (v, S _, EmptyString) => Some (if negative then - v else v)
        | _ => None
        end
      else None
  end.

(** A decimal numeral without its sign: digits, a fraction and an
    exponent, with a digit before or after the point. *)
Definition unsigned_decimal (s : string) : Numeric :=
  let '(whole, n, r) := read_digits 10 0 0 s in
  let '(digits, m, r) :=
    match r with
    | String "." r' => read_digits 10 whole 0 r'
    | _ => (whole, 0%nat, r)
    end in
  if bool_decide (n + m = 0)%nat then NotANumber
  else
    match exponent r with
    | None => NotANumber
    | Some e =>
        let shift := e - Z.of_nat m in
        if decide (0 <= shift) then Integral (digits * 10 ^ shift)
        else if decide (digits `mod` 10 ^ (- shift) = 0)
             then Integral (digits `div` 10 ^ (- shift))
             else Fractional
    end.

(** The unary [+] of the examples, on text in ASCII: blanks around
    the numeral are dropped, the empty text is [0], a numeral is decimal
    or has one of the prefixes [0x], [0o] and [0b].  The value is exact;
    an infinity is, like a fraction, a number that is no id. *)
Definition decimal (s : string) : Numeric :=
  match trim s with
  | EmptyString => Integral 0
  | String "0" (String c r) as t =>
      if bool_decide (c = "x"%char) || bool_decide (c = "X"%char) then in_base 16 r
      else if bool_decide (c = "o"%char) || bool_decide (c = "O"%char) then in_base 8 r
      else if bool_decide (c = "b"%char) || bool_decide (c = "B"%char) then in_base 2 r
      else unsigned_decimal t
  | String c r as t =>
      let (negative, t) :=
        if bool_decide (c = "-"%char) then (true, r)
        else if bool_decide (c = "+"%char) then (false, r)
        else (false, t) in
      if bool_decide (t = "Infinity") then Fractional
      else
        match unsigned_decimal t with
        | Integral z => Integral (if negative then - z else z)
        | n => n
        end
  end.

(** The double quote. *)
Definition dq : string := String "034"%char EmptyString.

(** An image element as it is written in a content. *)
Definition img (src : string) : string :=
  "<img src=" +:+ dq +:+ src +:+ dq +:+ "/>".

(** The text before the first [c] of [s], and the text after it. *)
Fixpoint cut_at (c : ascii) (s : string) : option (string * string) :=
  match s with
  | EmptyString => None
  | String x r =>
      if bool_decide (x = c) then Some (EmptyString, r)
      else match cut_at c r with
           | Some (before, after) => Some (String x before, after)
           | None => None
           end
  end.

(** The name of a tag: what comes before its first blank or slash. *)
Fixpoint tag_name (tag : string) : string :=
  match tag with
  | EmptyString => EmptyString
  | String c r =>
      if is_blank c || bool_decide (c = "/"%char) then EmptyString
      else String c (tag_name r)
  end.

(** The value of the attribute [src] of a tag, between double quotes. *)
Definition tag_src (tag : string) : option string :=
  match String.index 0 (" src=" +:+ dq) tag with
  | Some i =>
      match cut_at "034"%char (drop_chars (i + 6) tag) with
      | Some (value, _) => Some value
      | None => None
      end
  | None => None
  end.

Fixpoint tags_from (n : nat) (s : string) : list Element :=
  match n with
  | O => []
  | S n' =>
      match s with
      | EmptyString => []
      | String c r =>
          if bool_decide (c = "<"%char) then
            match cut_at ">"%char r with
            | Some (tag, rest) =>
                if startsWith "/" tag then tags_from n' rest
                else mkElement (tag_name tag) (tag_src tag) :: tags_from n' rest
            | None => []
            end
          else tags_from n' r
      end
  end.

(** The [h.parse] of the examples: the opening tags of a content in
    their order, each with its name and its [src]; the text between the
    tags, which no handler looks at, is left out. *)
Definition parse_tags (content : string) : list Element :=
  tags_from (String.length content) content.

Definition is_meta (c : ascii) : bool :=
  bool_decide (c ∈ ["\"; "^"; "$"; "."; "|"; "?"; "*"; "+"; "("; ")";
                    "["; "]"; "{"; "}"]%char).

Fixpoint literal (pattern : string) : bool :=
  match pattern with
  | EmptyString => true
  | String c r => negb (is_meta c) && literal r
  end.

(** The [RegExp] of the examples: a pattern without a metacharacter
    matches the names in which it occurs; the examples use no other, and
    this engine refuses them. *)
Definition literal_regex (pattern : string) : option (string -> bool) :=
  if literal pattern then Some (includes pattern) else None.

(** An environment with one bot and no assets to fetch. *)
Definition example_env (sends : nat -> bool) (answers : nat -> option string) : Env :=
  mkEnv [mkBot ["g1"] (Some [])] sends (fun _ => true) answers (fun _ => 0%nat)
        (fun _ _ _ => NothingToStore) literal_regex decimal parse_tags.

Definition healthy : Env := example_env (fun _ => true) (fun _ => None).
Definition broken : Env := example_env (fun _ => false) (fun _ => None).

(** The manager answers the two prompts of the audit: "是", then "删除". *)
Definition confirming : Env :=
  example_env (fun _ => false)
              (fun n => if decide (n = 0)%nat then Some "是" else Some "删除").

(** On day 0 bob throws a bottle, alice comments on it, bob throws a
    second bottle; the first bottle then fails an audit and is purged,
    which leaves its comment behind. *)
Definition purging : Env :=
  example_env (fun n => bool_decide (n < 4)%nat)
              (fun n => if decide (n = 4)%nat then Some "是" else Some "删除").

(** Preview on, two retries, ten code units at most, assets left remote. *)
Definition example_cfg : Config :=
  mkConfig ["admin"] true false false true 2 10 SaveUrl false 0 0 0.

(** Pages of one bottle in the lists of a user's bottles; the draw by
    name is left without pages, as it is by default. *)
Definition one_per_page : Config :=
  mkConfig ["admin"] true false false true 2 10 SaveUrl false 0 1 0.

(** Previews off. *)
Definition no_preview : Config :=
  mkConfig ["admin"] true false false false 2 10 SaveUrl false 0 0 0.

Definition alice : Session := mkSession "alice" "Alice" "g1" "c1" "onebot" None 100.
Definition bob : Session := mkSession "bob" "Bob" "g1" "c1" "onebot" None 100.
Definition admin : Session := mkSession "admin" "Admin" "g1" "c1" "onebot" None 100.

Definition on_day (d : Z) (ses : Session) : Session :=
  mkSession (userId ses) (sessionName ses) (guildId ses) (channelId ses)
            (platform ses) (quote ses) d.

(** A legacy table: two bottles that carry the sentinel, three comments. *)
Definition legacy_store : Store :=
  mkStore
    [Bottle.mk 1 "" "u1" "g" "c" "U1" "first" 0 sentinel 10;
     Bottle.mk 2 "" "u2" "g" "c" "U2" "second" 0 sentinel 11]
    [Comment.mk 1 1 2 "u1" "g" "c" "U1" "a" 12;
     Comment.mk 2 1 1 "u2" "g" "c" "U2" "b" 12;
     Comment.mk 3 2 2 "u2" "g" "c" "U2" "c" 13]
    2 3.

(** A table in which the second bottle, not the first, carries the
    sentinel, and has one comment. *)
Definition legacy_second_row : Store :=
  mkStore
    [Bottle.mk 1 "" "u1" "g" "c" "U1" "first" 0 (Num 0) 10;
     Bottle.mk 2 "" "u2" "g" "c" "U2" "second" 0 sentinel 11]
    [Comment.mk 1 1 2 "u1" "g" "c" "U1" "hi" 12]
    2 1.

(** A store with one bottle, thrown by bob, and no comment yet. *)
Definition fresh_bottle : World :=
  initial_world
    (mkStore [Bottle.mk 1 "" "bob" "g1" "c1" "Bob" "hello" 0 (Num 0) 100] [] 1 0).

(** A store with one bottle, thrown by bob on day 10, whose content is a
    local file, and one comment on it. *)
Definition one_bottle : World :=
  mkWorld
    (mkStore [Bottle.mk 1 "" "bob" "g1" "c1" "Bob"
                (img "file:///assets/bottle-1-0.png") 0 (Num 1) 10]
             [Comment.mk 1 1 1 "alice" "g1" "c1" "Alice" "“nice”" 10]
             1 1)
    {["file:///assets/bottle-1-0.png"]} ∅ 0 [].

Definition two_teas : World :=
  initial_world
    (mkStore [Bottle.mk 1 "tea" "bob" "g1" "c1" "Bob" "green" 0 (Num 0) 10;
              Bottle.mk 2 "teapot" "bob" "g1" "c1" "Bob" "iron" 0 (Num 0) 10]
             [] 2 0).

Definition after_purge : World :=
  (serve example_cfg purging
     [Throw (on_day 0 bob) None (Some "first");
      CommentOn (on_day 0 alice) false 0 1 (Some "nice");
      Throw (on_day 0 bob) None (Some "second");
      DeleteInvalid (on_day 0 admin) (Some 1) (Some 1)]
     (initial_world empty_store)).2.

(** The directory and the featured list as they are configured by
    default: no pagination, text, ten comments to be featured. *)
Definition example_display : Display := mkDisplay 0 false 0 10 false.

(** * Properties *)

(** ** Running the monad *)

Lemma bind_run {A B} (m : M A) (k : A -> M B) (w : World) :
  bind m k w = k (m w).1 (m w).2.
Proof. unfold bind. destruct (m w); reflexivity. Qed.

Lemma read_store_run {A} (f : Store -> A) w : read_store f w = (f (store w), w).
Proof. reflexivity. Qed.

Lemma reads_ret {A} (a : A) : reads (ret a).
Proof. intros w; reflexivity. Qed.

Lemma reads_bind {A B} (m : M A) (k : A -> M B) :
  reads m -> (forall a, reads (k a)) -> reads (bind m k).
Proof.
  intros Hm Hk w. rewrite bind_run.
  etransitivity; [apply Hk | apply Hm].
Qed.

Lemma reads_read_store {A} (f : Store -> A) : reads (read_store f).
Proof. intros w; reflexivity. Qed.

Lemma reads_tick : reads tick.
Proof. intros w; reflexivity. Qed.

Lemma reads_emit o : reads (emit o).
Proof. intros w; reflexivity. Qed.

Lemma reads_bottleMap_set h id : reads (bottleMap_set h id).
Proof. intros w; reflexivity. Qed.

Lemma reads_unlinkSync src : reads (unlinkSync src).
Proof. intros w. unfold unlinkSync. destruct (decide (src ∈ files w)); reflexivity. Qed.

Lemma reads_write_files fs : reads (write_files fs).
Proof. intros w; reflexivity. Qed.

Lemma reads_for_each {A} (xs : list A) (body : A -> M bool) :
  (forall x, reads (body x)) -> reads (for_each xs body).
Proof.
  intros Hbody. induction xs as [|x xs IH]; simpl.
  - apply reads_ret.
  - apply reads_bind; [apply Hbody | intros [|]; [exact IH | apply reads_ret]].
Qed.

Lemma reads_unlink_element e : reads (unlink_element e).
Proof.
  unfold unlink_element. destruct (decide (is_media e)); [|apply reads_ret].
  destruct (el_src e) as [src|]; [|apply reads_ret].
  destruct (startsWith "file" src); [apply reads_unlinkSync | apply reads_ret].
Qed.

Lemma reads_unlink_assets env content : reads (unlink_assets env content).
Proof. unfold unlink_assets. apply reads_for_each. apply reads_unlink_element. Qed.

Lemma reads_unlink_comments env (cs : list Comment.t) :
  reads (for_each cs (fun c => unlink_assets env (Comment.content c))).
Proof. apply reads_for_each. intros; apply reads_unlink_assets. Qed.

Create HintDb reads discriminated.
#[global] Hint Resolve reads_ret reads_read_store reads_tick reads_emit
  reads_bottleMap_set reads_unlinkSync reads_write_files
  reads_unlink_assets reads_unlink_comments : reads.

(** Splits a goal [reads m] along the shape of [m]. *)
Ltac reads_step :=
  match goal with
  | |- reads (bind _ _) => apply reads_bind; [| intros ?]
  | |- reads (match ?x with _ => _ end) => destruct x
  | |- reads (if ?c then _ else _) => destruct c
  | |- reads (let (_, _) := ?x in _) => destruct x
  | |- reads _ => solve [eauto with reads]
  end.
Ltac reads_auto := repeat reads_step.

Lemma keeps_comments_reads {A} (m : M A) : reads m -> keeps_comments m.
Proof. intros Hm w. rewrite Hm. reflexivity. Qed.

Lemma keeps_comments_bind {A B} (m : M A) (k : A -> M B) :
  keeps_comments m -> (forall a, keeps_comments (k a)) -> keeps_comments (bind m k).
Proof.
  intros Hm Hk w. rewrite bind_run. etransitivity; [apply Hk | apply Hm].
Qed.

Lemma keeps_comments_remove_bottle (P : Bottle.t -> Prop)
    `{!forall b, Decision (P b)} :
  keeps_comments (with_store (remove_bottle P)).
Proof. intros w. reflexivity. Qed.

Lemma answers_ret {A} (P : A -> Prop) (a : A) : P a -> answers P (ret a).
Proof. intros H w; exact H. Qed.

Lemma answers_bind {A B} (Q : A -> Prop) (P : B -> Prop) (m : M A) (k : A -> M B) :
  answers Q m -> (forall a, Q a -> answers P (k a)) -> answers P (bind m k).
Proof. intros Hm Hk w. rewrite bind_run. apply Hk, Hm. Qed.

Lemma answers_any {A} (m : M A) : answers (fun _ => True) m.
Proof. intros w; exact Logic.I. Qed.

Lemma answers_weaken {A} (P Q : A -> Prop) (m : M A) :
  (forall a, P a -> Q a) -> answers P m -> answers Q m.
Proof. intros HPQ Hm w. apply HPQ, Hm. Qed.

(** Splits a goal [answers P m] along the shape of [m]. *)
Ltac answers_step :=
  match goal with
  | |- answers _ (ret _) => apply answers_ret
  | |- answers _ (bind _ _) =>
      eapply answers_bind; [apply answers_any | intros ? _]
  | |- answers _ (match ?x with _ => _ end) => destruct x
  | |- answers _ (if ?c then _ else _) => destruct c
  end.
Ltac answers_auto := repeat answers_step.

(** ** The transport and the retry loop *)

Section Loop.
Context (cfg : Config) (env : Env).

Lemma reads_sendMessage target m : reads (sendMessage env target m).
Proof. unfold sendMessage. reads_auto. Qed.

Lemma reads_session_send n : reads (session_send n).
Proof. unfold session_send. reads_auto. Qed.

Lemma reads_sleep : reads (sleep env).
Proof. unfold sleep. reads_auto. Qed.

Lemma reads_prompt : reads (prompt env).
Proof. unfold prompt. reads_auto. Qed.

Lemma reads_Random_int n : reads (Random_int env n).
Proof. unfold Random_int. reads_auto. Qed.

(** The rule of the retry loop: [I] holds while attempts fail and waits
    pass; a successful attempt establishes [Qf], giving up [Qg]. *)
Lemma retrying_spec {A} (attempt : M (option A)) (abandon : M unit)
    (I : World -> Prop) (Qf : A -> World -> Prop) (Qg : World -> Prop) :
  (forall w, I w -> match (attempt w).1 with
                    | Some a => Qf a (attempt w).2
                    | None => I (attempt w).2
                    end) ->
  (forall w, I w -> I (tick w).2) ->
  (forall w, I w -> Qg (abandon w).2) ->
  forall fuel retry w, I w ->
    match (retrying cfg env fuel retry attempt abandon w).1 with
    | Finished a => Qf a (retrying cfg env fuel retry attempt abandon w).2
    | GaveUp => Qg (retrying cfg env fuel retry attempt abandon w).2
    | Disposed => I (retrying cfg env fuel retry attempt abandon w).2
    | NoFuel => True
    end.
Proof.
  intros Hattempt Htick Habandon. induction fuel as [|fuel IH]; intros retry w Hw.
  - exact Logic.I.
  - simpl. rewrite bind_run.
    specialize (Hattempt w Hw).
    destruct (attempt w) as [[a|] w1]; simpl in *.
    + exact Hattempt.
    + destruct (decide (retry + 1 > maxRetry cfg)).
      * rewrite bind_run. simpl. apply Habandon, Hattempt.
      * unfold sleep. rewrite !bind_run. simpl.
        destruct (sleep_ok env (clock w1)).
        -- apply IH. apply (Htick w1 Hattempt).
        -- simpl. apply (Htick w1 Hattempt).
Qed.

(** The loop ends before its bound: each retry brings [retry] closer to
    [maxRetry]. *)
Lemma retrying_fuel {A} (attempt : M (option A)) (abandon : M unit) :
  forall fuel retry w,
    (Z.to_nat (maxRetry cfg - retry) < fuel)%nat ->
    (retrying cfg env fuel retry attempt abandon w).1 <> NoFuel.
Proof.
  induction fuel as [|fuel IH]; intros retry w Hfuel; [lia|].
  simpl. rewrite bind_run.
  destruct (attempt w) as [[a|] w1]; simpl; [discriminate|].
  destruct (decide (retry + 1 > maxRetry cfg)).
  - rewrite bind_run. simpl. discriminate.
  - unfold sleep. rewrite !bind_run. simpl.
    destruct (sleep_ok env (clock w1)); [|discriminate].
    apply IH. lia.
Qed.

Lemma retry_budget_enough {A} (attempt : M (option A)) (abandon : M unit) w :
  (retrying cfg env (retry_budget cfg) 0 attempt abandon w).1 <> NoFuel.
Proof. apply retrying_fuel. unfold retry_budget. lia. Qed.

(** With a plugin that is not disposed, no wait is cut short. *)
Lemma retrying_not_disposed {A} (attempt : M (option A)) (abandon : M unit) :
  (forall n, sleep_ok env n = true) ->
  forall fuel retry w,
    (retrying cfg env fuel retry attempt abandon w).1 <> Disposed.
Proof.
  intros Hawake. induction fuel as [|fuel IH]; intros retry w; [discriminate|].
  simpl. rewrite bind_run.
  destruct (attempt w) as [[a|] w1]; simpl; [discriminate|].
  destruct (decide (retry + 1 > maxRetry cfg)).
  - rewrite bind_run. simpl. discriminate.
  - unfold sleep. rewrite !bind_run. simpl. rewrite Hawake. apply IH.
Qed.

Lemma reads_retrying {A} (attempt : M (option A)) (abandon : M unit) fuel retry :
  reads attempt -> reads abandon ->
  reads (retrying cfg env fuel retry attempt abandon).
Proof.
  intros Hattempt Habandon. revert retry.
  induction fuel as [|fuel IH]; intros retry; simpl.
  - apply reads_ret.
  - apply reads_bind; [exact Hattempt|]. intros [a|]; [apply reads_ret|].
    destruct (decide (retry + 1 > maxRetry cfg)).
    + apply reads_bind; [exact Habandon | intros; apply reads_ret].
    + apply reads_bind; [apply reads_sleep|].
      intros [|]; [apply IH | apply reads_ret].
Qed.
End Loop.

#[global] Hint Resolve reads_sendMessage reads_session_send reads_sleep
  reads_prompt reads_Random_int : reads.

Lemma answers_retrying {A} cfg env (Q : A -> Prop) (attempt : M (option A))
    (abandon : M unit) :
  answers (fun r => forall a, r = Some a -> Q a) attempt ->
  answers (fun e => e <> NoFuel /\ forall a, e = Finished a -> Q a)
    (retrying cfg env (retry_budget cfg) 0 attempt abandon).
Proof.
  intros Hattempt w. split; [apply retry_budget_enough|].
  pose proof (retrying_spec cfg env attempt abandon (fun _ => True)
                (fun a _ => Q a) (fun _ => True)) as Hspec.
  specialize (Hspec
    ltac:(intros w' _; specialize (Hattempt w');
          destruct (attempt w') as [[a|] w1]; simpl in *; auto)
    ltac:(auto) ltac:(auto) (retry_budget cfg) 0 w Logic.I).
  intros a Ha. rewrite Ha in Hspec. exact Hspec.
Qed.

(** A retry loop that runs on the budget of the configuration does not run
    out of iterations. *)
Lemma retrying_ends {A} cfg env (attempt : M (option A)) (abandon : M unit) :
  answers (fun e => e <> NoFuel)
    (retrying cfg env (retry_budget cfg) 0 attempt abandon).
Proof. intros w. apply retry_budget_enough. Qed.

Lemma retrying_first {A} cfg env (attempt : M (option A)) (abandon : M unit)
    fuel retry w a w' :
  attempt w = (Some a, w') ->
  retrying cfg env (S fuel) retry attempt abandon w = (Finished a, w').
Proof. intros Hattempt. simpl. rewrite bind_run, Hattempt. reflexivity. Qed.

Lemma sendMessage_delivers env target m w :
  send_ok env (clock w) = true ->
  sendMessage env target m w
  = (Some (clock w),
     mkWorld (store w) (files w) (bottleMap w) (S (clock w))
             (outbox w ++ [Sent target m])).
Proof.
  intros Hok. unfold sendMessage. rewrite bind_run. simpl. rewrite Hok.
  reflexivity.
Qed.

Lemma sendMessage_throws env target m w :
  send_ok env (clock w) = false ->
  sendMessage env target m w
  = (None, mkWorld (store w) (files w) (bottleMap w) (S (clock w)) (outbox w)).
Proof.
  intros Hok. unfold sendMessage. rewrite bind_run. simpl. rewrite Hok.
  reflexivity.
Qed.

(** ** Lists and rows *)

Lemma filter_all {A} (P : A -> Prop) `{!forall x, Decision (P x)} (l : list A) :
  (forall x, x ∈ l -> P x) -> filter P l = l.
Proof.
  induction l as [|x l IH]; intros Hall; [reflexivity|].
  rewrite filter_cons_True by (apply Hall, list_elem_of_here).
  f_equal. apply IH. intros y Hy. apply Hall. right. exact Hy.
Qed.

Lemma map_patch_none {A} (P : A -> Prop) `{!forall x, Decision (P x)}
    (f : A -> A) (l : list A) :
  (forall x, x ∈ l -> ~ P x) -> map (fun x => if decide (P x) then f x else x) l = l.
Proof.
  induction l as [|x l IH]; intros Hnone; [reflexivity|]. simpl.
  rewrite decide_False by (apply Hnone, list_elem_of_here).
  f_equal. apply IH. intros y Hy. apply Hnone. right. exact Hy.
Qed.

Lemma page_of_unlimited {A} (rows : list A) : page_of None 0 rows = rows.
Proof. reflexivity. Qed.

Lemma with_commentCount_twice n m b :
  Bottle.with_commentCount n (Bottle.with_commentCount m b)
  = Bottle.with_commentCount n b.
Proof. reflexivity. Qed.

Lemma with_commentCount_same b :
  Bottle.with_commentCount (Bottle.commentCount b) b = b.
Proof. destruct b; reflexivity. Qed.

Lemma map_id_patched (P : Bottle.t -> Prop) `{!forall b, Decision (P b)} n l :
  map Bottle.id (map (fun b => if decide (P b)
                                then Bottle.with_commentCount n b else b) l)
  = map Bottle.id l.
Proof.
  rewrite map_map. apply map_ext. intros b. destruct (decide (P b)); reflexivity.
Qed.

Lemma foldl_max_bound (l : list Z) :
  forall a, a <= foldl Z.max a l /\ forall x, x ∈ l -> x <= foldl Z.max a l.
Proof.
  induction l as [|y l IH]; intros a; simpl.
  - split; [lia|]. intros x Hx. inversion Hx.
  - destruct (IH (Z.max a y)) as [H1 H2]. split; [lia|].
    intros x Hx. apply elem_of_cons in Hx as [->|Hx]; [lia | auto].
Qed.

Lemma foldl_max_attained (l : list Z) :
  forall a, foldl Z.max a l = a \/ foldl Z.max a l ∈ l.
Proof.
  induction l as [|y l IH]; intros a; simpl; [left; reflexivity|].
  destruct (IH (Z.max a y)) as [H|H].
  - rewrite H. destruct (Z.max_spec a y) as [[_ ->]|[_ ->]];
      [right; left | left; reflexivity].
  - right. right. exact H.
Qed.

(** The next [cid] is above every [cid] of the data. *)
Lemma next_cid_above (data : list Comment.t) (c : Comment.t) :
  c ∈ data -> Comment.cid c < next_cid data.
Proof.
  destruct data as [|c0 rest]; intros Hc; [inversion Hc|]. simpl.
  destruct (foldl_max_bound (map Comment.cid rest) (Comment.cid c0)) as [H1 H2].
  apply elem_of_cons in Hc as [->|Hc]; [lia|].
  specialize (H2 (Comment.cid c)).
  assert (Comment.cid c ∈ map Comment.cid rest) as Hin
    by (apply list_elem_of_fmap; eauto).
  specialize (H2 Hin). lia.
Qed.

(** It is [1] for no data, and otherwise one more than a [cid] of the
    data: one more than the greatest. *)
Lemma next_cid_is_max_plus_1 (data : list Comment.t) :
  (data = [] /\ next_cid data = 1)
  \/ (exists c, c ∈ data /\ next_cid data = Comment.cid c + 1
                 /\ forall c', c' ∈ data -> Comment.cid c' <= Comment.cid c).
Proof.
  destruct data as [|c0 rest]; [left; auto|]. right.
  assert (exists c, c ∈ c0 :: rest
                    /\ foldl Z.max (Comment.cid c0) (map Comment.cid rest)
                       = Comment.cid c) as (c & Hc & Hmax).
  { destruct (foldl_max_attained (map Comment.cid rest) (Comment.cid c0)) as [H|H].
    - exists c0. split; [left|exact H].
    - apply list_elem_of_fmap in H as (c & Hc1 & Hc2).
      exists c. split; [right; exact Hc2 | exact Hc1]. }
  exists c. split; [exact Hc|]. split; [simpl; lia|].
  intros c' Hc'. pose proof (next_cid_above _ _ Hc') as Habove.
  simpl in Habove. lia.
Qed.

(** ** The startup pass *)

Lemma foldl_count_bottle (bs : list Bottle.t) :
  forall (m : gmap Z jsnum) (id : Z),
    m !! id = Some (Num 0) \/ id ∈ map Bottle.id bs ->
    foldl count_bottle m bs !! id = Some (Num 0).
Proof.
  induction bs as [|b bs IH]; intros m id Hid; simpl.
  - destruct Hid as [Hid|Hid]; [exact Hid | inversion Hid].
  - apply IH. unfold count_bottle.
    destruct (decide (Bottle.id b = id)) as [->|Hne].
    + left. apply lookup_insert_eq.
    + rewrite lookup_insert_ne by exact Hne.
      destruct Hid as [Hid|Hid]; [left; exact Hid|].
      right. simpl in Hid. apply elem_of_cons in Hid as [Hid|Hid];
        [congruence | exact Hid].
Qed.

Lemma foldl_count_comment (cs : list Comment.t) :
  forall (m : gmap Z jsnum) (id k : Z),
    m !! id = Some (Num k) ->
    foldl count_comment m cs !! id
    = Some (Num (k + Z.of_nat (length (filter (fun c => Comment.bid c = id) cs)))).
Proof.
  induction cs as [|c cs IH]; intros m id k Hm; simpl.
  - rewrite Z.add_0_r. exact Hm.
  - destruct (decide (Comment.bid c = id)) as [Hc|Hc].
    + rewrite filter_cons_True by exact Hc.
      rewrite (IH _ id (k + 1)).
      * f_equal. f_equal. simpl length. lia.
      * unfold count_comment. rewrite Hc, Hm. simpl. apply lookup_insert_eq.
    + rewrite filter_cons_False by exact Hc.
      apply IH. unfold count_comment. rewrite lookup_insert_ne by exact Hc.
      exact Hm.
Qed.

(** The count table holds, for every bottle of the table, the number of
    its comments. *)
Lemma count_comments_spec (s : Store) (id : Z) :
  id ∈ map Bottle.id (bottles s) ->
  count_comments s !! id = Some (Num (count_of s id)).
Proof.
  intros Hid. unfold count_comments.
  rewrite (foldl_count_comment _ _ id 0).
  - reflexivity.
  - apply foldl_count_bottle. right. exact Hid.
Qed.

Lemma elem_of_entries (m : gmap Z jsnum) (k : Z) (v : jsnum) :
  (k, v) ∈ entries m <-> m !! k = Some v.
Proof.
  unfold entries. rewrite merge_sort_Permutation. apply elem_of_map_to_list.
Qed.

Lemma NoDup_entries (m : gmap Z jsnum) : NoDup (entries m).*1.
Proof.
  unfold entries. rewrite merge_sort_Permutation. apply NoDup_fst_map_to_list.
Qed.

Lemma upsert_one_comments s r : comments (upsert_one s r) = comments s.
Proof. destruct r as [id n]. simpl. case_decide; reflexivity. Qed.

Lemma upsert_bottle_comments rs : forall s, comments (upsert_bottle rs s) = comments s.
Proof.
  induction rs as [|r rs IH]; intros s; simpl; [reflexivity|].
  unfold upsert_bottle in *. rewrite IH. apply upsert_one_comments.
Qed.

(** The rows of an upserted table, one record at a time. *)
Lemma elem_of_upsert_one s id n b :
  b ∈ bottles (upsert_one s (id, n)) <->
  (exists b0, b0 ∈ bottles s
              /\ b = if decide (Bottle.id b0 = id)
                     then Bottle.with_commentCount n b0 else b0)
  \/ ((id ∉ map Bottle.id (bottles s)) /\ b = blank_bottle id n).
Proof.
  simpl. case_decide as Hin; simpl.
  - rewrite list_elem_of_fmap. split.
    + intros (b0 & -> & Hb0). left. exists b0. auto.
    + intros [(b0 & Hb0 & ->)|[Hout _]]; [|contradiction]. exists b0. auto.
  - rewrite elem_of_app, list_elem_of_singleton. split.
    + intros [Hb| ->]; [|right; auto].
      left. exists b. split; [exact Hb|].
      case_decide as Hid; [|reflexivity].
      exfalso. apply Hin. rewrite <- Hid. apply list_elem_of_fmap. eauto.
    + intros [(b0 & Hb0 & ->)|[_ ->]]; [|right; reflexivity].
      left. case_decide as Hid; [|exact Hb0].
      exfalso. apply Hin. rewrite <- Hid. apply list_elem_of_fmap. eauto.
Qed.

(** Every row of the table is still there after an upsert, up to its
    [commentCount]. *)
Lemma upsert_bottle_keeps_rows rs :
  forall s b, b ∈ bottles s ->
    exists n, Bottle.with_commentCount n b ∈ bottles (upsert_bottle rs s).
Proof.
  induction rs as [|[id n] rs IH]; intros s b Hb.
  - exists (Bottle.commentCount b). rewrite with_commentCount_same. exact Hb.
  - assert (exists n1, Bottle.with_commentCount n1 b
                       ∈ bottles (upsert_one s (id, n))) as [n1 Hn1].
    { destruct (decide (Bottle.id b = id)) as [Hid|Hid].
      - exists n. apply elem_of_upsert_one. left. exists b.
        split; [exact Hb|]. rewrite decide_True by exact Hid. reflexivity.
      - exists (Bottle.commentCount b). rewrite with_commentCount_same.
        apply elem_of_upsert_one. left. exists b.
        split; [exact Hb|]. rewrite decide_False by exact Hid. reflexivity. }
    destruct (IH _ _ Hn1) as [n2 Hn2].
    exists n2. rewrite with_commentCount_twice in Hn2. exact Hn2.
Qed.

(** After an upsert, a row whose id has a record carries the count of that
    record. *)
Lemma upsert_bottle_counts rs :
  forall done s,
    NoDup (done ++ rs).*1 ->
    (forall b n, b ∈ bottles s -> (Bottle.id b, n) ∈ done ->
                 Bottle.commentCount b = n) ->
    forall b n, b ∈ bottles (upsert_bottle rs s) ->
                (Bottle.id b, n) ∈ done ++ rs ->
                Bottle.commentCount b = n.
Proof.
  induction rs as [|[id0 n0] rs IH]; intros done s Hnodup Hdone b n Hb Hrec.
  - rewrite app_nil_r in Hrec. eapply Hdone; eauto.
  - replace (done ++ (id0, n0) :: rs) with ((done ++ [(id0, n0)]) ++ rs) in *
      by (rewrite <- app_assoc; reflexivity).
    apply (IH (done ++ [(id0, n0)]) (upsert_one s (id0, n0))); auto.
    clear b n Hb Hrec. intros b n Hb Hrec.
    assert (NoDup (done ++ [(id0, n0)]).*1) as Hnd.
    { rewrite fmap_app in Hnodup. apply NoDup_app in Hnodup. tauto. }
    rewrite fmap_app in Hnd. apply NoDup_app in Hnd as (_ & Hfresh & _).
    assert (forall m, (id0, m) ∈ done -> False) as Hid0.
    { intros m Hm. apply (Hfresh id0).
      - apply list_elem_of_fmap. exists (id0, m). auto.
      - simpl. apply list_elem_of_singleton. reflexivity. }
    apply elem_of_upsert_one in Hb as [(b0 & Hb0 & ->)|[_ ->]].
    + case_decide as Hid.
      * simpl in *. rewrite Hid in Hrec.
        apply elem_of_app in Hrec as [Hrec|Hrec]; [destruct (Hid0 _ Hrec)|].
        apply list_elem_of_singleton in Hrec. congruence.
      * apply elem_of_app in Hrec as [Hrec|Hrec]; [eapply Hdone; eauto|].
        apply list_elem_of_singleton in Hrec. congruence.
    + simpl in *.
      apply elem_of_app in Hrec as [Hrec|Hrec]; [destruct (Hid0 _ Hrec)|].
      apply list_elem_of_singleton in Hrec. congruence.
Qed.

(** An upsert keeps the first row first. *)
Lemma upsert_bottle_head rs :
  forall s first rest,
    bottles s = first :: rest ->
    exists n rest', bottles (upsert_bottle rs s)
                    = Bottle.with_commentCount n first :: rest'.
Proof.
  induction rs as [|[id n] rs IH]; intros s first rest Hs.
  - exists (Bottle.commentCount first), rest. rewrite with_commentCount_same.
    exact Hs.
  - assert (exists n1 rest1, bottles (upsert_one s (id, n))
                             = Bottle.with_commentCount n1 first :: rest1)
      as (n1 & rest1 & H1).
    { simpl. case_decide; simpl; rewrite Hs; simpl.
      - case_decide; eexists _, _; [reflexivity|].
        rewrite with_commentCount_same. reflexivity.
      - eexists (Bottle.commentCount first), _.
        rewrite with_commentCount_same. reflexivity. }
    destruct (IH _ _ _ H1) as (n2 & rest2 & H2).
    exists n2, rest2. exact H2.
Qed.

(** The pass looks at the first row only: here it does nothing, and the
    second bottle keeps the sentinel although it has a comment. *)
Lemma startup_misses_later_sentinel :
  startup legacy_second_row = legacy_second_row
  /\ ~ backfilled_when_sentinel_present legacy_second_row.
Proof.
  split; [reflexivity|].
  intros Hclaim.
  assert (exists b, b ∈ bottles legacy_second_row
                    /\ Bottle.commentCount b = sentinel) as Hpresent.
  { eexists. split; [apply list_elem_of_lookup; exists 1%nat; reflexivity|].
    reflexivity. }
  specialize (Hclaim Hpresent
                (Bottle.mk 2 "" "u2" "g" "c" "U2" "second" 0 sentinel 11)).
  assert (Bottle.mk 2 "" "u2" "g" "c" "U2" "second" 0 sentinel 11
          ∈ bottles (startup legacy_second_row)) as Hin.
  { apply list_elem_of_lookup. exists 1%nat. reflexivity. }
  specialize (Hclaim Hin). vm_compute in Hclaim. discriminate.
Qed.

(** C8 (as amended).  The pass is triggered by the first row of the bottle
    table.  When that row carries the sentinel, every bottle of the table
    is kept with its [commentCount] set to the number of comments whose
    [bid] is its id, every row that has the id of such a bottle carries
    that number, and no comment is touched; run again, the pass changes
    nothing.  When the first row does not carry the sentinel, or the table
    is empty, the pass changes nothing. *)
Theorem startup_backfills_from_first_row (s : Store) :
  (forall first rest,
     bottles s = first :: rest ->
     Bottle.commentCount first = sentinel ->
     comments (startup s) = comments s
     /\ (forall b, b ∈ bottles s ->
           Bottle.with_commentCount (Num (count_of s (Bottle.id b))) b
           ∈ bottles (startup s))
     /\ (forall b, b ∈ bottles (startup s) ->
           Bottle.id b ∈ map Bottle.id (bottles s) ->
           Bottle.commentCount b = Num (count_of (startup s) (Bottle.id b)))
     /\ startup (startup s) = startup s)
  /\ (forall first rest,
        bottles s = first :: rest ->
        Bottle.commentCount first <> sentinel ->
        startup s = s)
  /\ (bottles s = [] -> startup s = s).
Proof.
  split; [|split].
  - intros first rest Hs Hfirst.
    assert (startup s = upsert_bottle (entries (count_comments s)) s) as Hrun.
    { unfold startup. rewrite Hs. rewrite decide_True by exact Hfirst. reflexivity. }
    assert (forall b, b ∈ bottles (startup s) ->
              Bottle.id b ∈ map Bottle.id (bottles s) ->
              Bottle.commentCount b = Num (count_of s (Bottle.id b))) as Hcount.
    { intros b Hb Hid. rewrite Hrun in Hb.
      apply (upsert_bottle_counts (entries (count_comments s)) [] s); auto.
      - apply NoDup_entries.
      - intros b0 n _ Hn. inversion Hn.
      - simpl. apply elem_of_entries, count_comments_spec, Hid. }
    assert (comments (startup s) = comments s) as Hcomments.
    { rewrite Hrun. apply upsert_bottle_comments. }
    assert (forall id, count_of (startup s) id = count_of s id) as Hsame.
    { intros id. unfold count_of, comments_of. rewrite Hcomments. reflexivity. }
    split; [exact Hcomments|]. split; [|split].
    + intros b Hb.
      destruct (upsert_bottle_keeps_rows (entries (count_comments s)) s b Hb)
        as [n Hn].
      rewrite <- Hrun in Hn.
      assert (n = Num (count_of s (Bottle.id b))) as ->; [|exact Hn].
      apply (Hcount _ Hn). simpl. apply list_elem_of_fmap. eauto.
    + intros b Hb Hid. rewrite Hsame. apply Hcount; assumption.
    + destruct (upsert_bottle_head (entries (count_comments s)) s first rest Hs)
        as (n & rest' & Hhead).
      rewrite <- Hrun in Hhead.
      assert (n = Num (count_of s (Bottle.id first))) as ->.
      { apply (Hcount (Bottle.with_commentCount n first)).
        - rewrite Hhead. apply list_elem_of_here.
        - simpl. rewrite Hs. simpl. apply list_elem_of_here. }
      unfold startup at 1. rewrite Hhead. simpl.
      rewrite decide_False; [reflexivity|].
      unfold sentinel, count_of. intros [= Heq]. lia.
  - intros first rest Hs Hfirst. unfold startup. rewrite Hs.
    rewrite decide_False by exact Hfirst. reflexivity.
  - intros Hs. unfold startup. rewrite Hs. reflexivity.
Qed.

Lemma startup_backfills_legacy_store :
  bottles (startup legacy_store)
  = [Bottle.mk 1 "" "u1" "g" "c" "U1" "first" 0 (Num 1) 10;
     Bottle.mk 2 "" "u2" "g" "c" "U2" "second" 0 (Num 2) 11]
  /\ startup (startup legacy_store) = startup legacy_store.
Proof.
  destruct (startup_backfills_from_first_row legacy_store) as [Hfill _].
  destruct (Hfill _ _ eq_refl eq_refl) as (_ & _ & _ & Honce).
  split; [vm_compute; reflexivity | exact Honce].
Defined.

(** ** Throwing a bottle *)

Lemma reads_store_assets cfg env content : reads (store_assets cfg env content).
Proof. unfold store_assets. reads_auto. Qed.

Lemma db_create_bottle_spec row0 w :
  Bottle.id (db_create_bottle row0 w).1 = bottle_seq (store w) + 1
  /\ bottles (store (db_create_bottle row0 w).2)
     = bottles (store w) ++ [(db_create_bottle row0 w).1]
  /\ comments (store (db_create_bottle row0 w).2) = comments (store w).
Proof. unfold db_create_bottle. simpl. auto. Qed.

(** The asset loop of a bottle leaves the tables alone unless it gives
    up. *)
Lemma bottle_assets_spec cfg env content (abandon : M unit) wc :
  match (retrying cfg env (retry_budget cfg) 0 (store_assets cfg env content)
           abandon wc).1 with
  | Finished _ =>
      store (retrying cfg env (retry_budget cfg) 0 (store_assets cfg env content)
               abandon wc).2 = store wc
  | _ => True
  end.
Proof.
  pose proof (retrying_spec cfg env (store_assets cfg env content) abandon
                (fun w' => store w' = store wc)
                (fun _ w' => store w' = store wc)
                (fun _ => True)) as Hspec.
  specialize (Hspec) with (fuel := retry_budget cfg) (retry := 0) (w := wc).
  destruct (retrying cfg env (retry_budget cfg) 0 (store_assets cfg env content)
              abandon wc) as [[r| | |] w2]; cbn [fst snd] in *; auto.
  apply Hspec; auto.
  intros w' Hw'. pose proof (reads_store_assets cfg env content w') as Hreads.
  destruct (store_assets cfg env content w') as [[r'|] w3]; cbn [fst snd] in *;
    congruence.
Qed.

(** A throw that comes to its preview has put its row at the end of the
    bottle table, under the next id, with the content that it keeps; a
    throw that is found too long has put its row there too, and left it. *)
Lemma throw_prepare_cases cfg env ses title message w :
  well_formed (store w) ->
  match (throw_prepare cfg env ses title message w).1 with
  | inr row =>
      Bottle.id row = bottle_seq (store w) + 1
      /\ comments (store (throw_prepare cfg env ses title message w).2)
         = comments (store w)
      /\ exists c, bottles (store (throw_prepare cfg env ses title message w).2)
                   = bottles (store w) ++ [Bottle.with_content c row]
                   /\ strlen c <= maxLength cfg
  | inl TooLong =>
      exists row, Bottle.id row = bottle_seq (store w) + 1
                  /\ bottles (store (throw_prepare cfg env ses title message w).2)
                     = bottles (store w) ++ [row]
  | inl _ => True
  end.
Proof.
  intros [Hwf _]. unfold throw_prepare.
  destruct (title_is_number env title); [exact Logic.I|].
  destruct (_ && _); [exact Logic.I|].
  destruct (_ && _); [exact Logic.I|].
  destruct (decide (_ < 1)); [exact Logic.I|].
  rewrite bind_run.
  match goal with
  | |- context [db_create_bottle ?r w] =>
      destruct (db_create_bottle_spec r w) as (Hid & Hb & Hc);
      destruct (db_create_bottle r w) as [created wc]
  end.
  cbn [fst snd] in *. rewrite bind_run.
  match goal with
  | |- context [match saveMode cfg with
                | SaveUrl => ?u
                | SaveBase64 => ?l
                | SaveFile => _
                end] =>
      assert (match (match saveMode cfg with
                     | SaveUrl => u
                     | _ => l
                     end wc).1 with
              | Finished _ => store (match saveMode cfg with
                                     | SaveUrl => u
                                     | _ => l
                                     end wc).2 = store wc
              | _ => True
              end) as Hloop by (destruct (saveMode cfg);
                                [reflexivity | apply bottle_assets_spec
                                 | apply bottle_assets_spec]);
      destruct (match saveMode cfg with
                | SaveUrl => u
                | _ => l
                end wc) as [[rewritten| | |] w2]
  end; cbn [fst snd] in *; try exact Logic.I.
  destruct (decide (_ > _)) as [|Hlen]; cbn [ret fst snd].
  - exists created. rewrite Hloop. auto.
  - rewrite bind_run. cbn. rewrite Hloop, Hb, Hc.
    split; [exact Hid|]. split; [reflexivity|].
    eexists. split; [|apply Z.le_ngt; intros H; apply Hlen; apply Z.lt_gt, H].
    rewrite map_app. cbn. rewrite decide_True by reflexivity.
    f_equal. apply map_patch_none.
    intros b Hin. specialize (Hwf b Hin). lia.
Qed.

Lemma throw_prepare_spec cfg env ses title message w row w1 :
  well_formed (store w) ->
  throw_prepare cfg env ses title message w = (inr row, w1) ->
  Bottle.id row = bottle_seq (store w) + 1
  /\ comments (store w1) = comments (store w)
  /\ exists c, bottles (store w1) = bottles (store w) ++ [Bottle.with_content c row]
               /\ strlen c <= maxLength cfg.
Proof.
  intros Hwf Hprepare.
  pose proof (throw_prepare_cases cfg env ses title message w Hwf) as Hcases.
  rewrite Hprepare in Hcases. exact Hcases.
Qed.

(** Whenever a throw answers "too long", the row that it created is in
    the table when it returns. *)
Lemma too_long_always_leaves_the_row cfg env ses title message w :
  well_formed (store w) ->
  (throw_bottle cfg env ses title message w).1 = TooLong ->
  exists row, Bottle.id row = bottle_seq (store w) + 1
              /\ row ∈ bottles (store (throw_bottle cfg env ses title message w).2)
              /\ (forall b, b ∈ bottles (store w) -> Bottle.id b <> Bottle.id row).
Proof.
  intros Hwf. unfold throw_bottle. rewrite bind_run.
  pose proof (throw_prepare_cases cfg env ses title message w Hwf) as Hcases.
  destruct (throw_prepare cfg env ses title message w) as [[a|row] w1];
    cbn [fst snd] in *.
  - cbn. intros ->. destruct Hcases as (row & Hid & Hb).
    exists row. split; [exact Hid|]. split.
    + rewrite Hb. apply elem_of_app. right. left.
    + intros b Hin. destruct Hwf as [Hwf _]. specialize (Hwf b Hin). lia.
  - unfold throw_preview. destruct (preview cfg); [|discriminate].
    rewrite bind_run. destruct (retrying _ _ _ _ _ _ w1) as [[[]| | |] w2];
      discriminate.
Qed.

(** C3 (a defect of the code).  A bottle of 25 code units against a limit
    of 10: the handler answers "too long", and the row that it created
    before measuring is still in the table, under the id it was given. *)
Theorem too_long_bottle_stays_in_the_table :
  (throw_bottle example_cfg healthy alice None
     (Some "hello world, this is long") (initial_world empty_store)).1 = TooLong
  /\ bottles (store (throw_bottle example_cfg healthy alice None
                       (Some "hello world, this is long")
                       (initial_world empty_store)).2)
     = [Bottle.mk 1 "" "alice" "g1" "c1" "Alice" "hello world, this is long"
          0 (Num 0) 100].
Proof. split; vm_compute; reflexivity. Qed.

Lemma reads_preview_bottle env ses b : reads (preview_bottle env ses b).
Proof.
  unfold preview_bottle. pose proof (reads_sendMessage env). reads_auto.
Qed.

Lemma preview_bottle_throws env ses row w :
  (forall n, send_ok env n = false) ->
  (preview_bottle env ses row w).1 = None
  /\ store (preview_bottle env ses row w).2 = store w.
Proof.
  intros Hsend. unfold preview_bottle.
  destruct (has_av (Bottle.content row));
    rewrite bind_run, sendMessage_throws by apply Hsend; cbn; auto.
Qed.

(** The preview of a bottle over a transport on which every send throws,
    by a plugin that is not disposed: the row is removed. *)
Lemma throw_preview_fails cfg env ses row w1 :
  preview cfg = true ->
  (forall n, send_ok env n = false) ->
  (forall n, sleep_ok env n = true) ->
  (throw_preview cfg env ses row w1).1 = Silent
  /\ store (throw_preview cfg env ses row w1).2
     = remove_bottle (fun b => Bottle.id b = Bottle.id row) (store w1).
Proof.
  intros Hpreview Hsend Hawake. unfold throw_preview. rewrite Hpreview, bind_run.
  set (abandon := bind (session_send PreviewNotSent) _).
  pose proof (retrying_spec cfg env (preview_bottle env ses row) abandon
                (fun w' => store w' = store w1)
                (fun _ _ => False)
                (fun w' => store w'
                           = remove_bottle (fun b => Bottle.id b = Bottle.id row)
                               (store w1))) as Hspec.
  specialize (Hspec) with (fuel := retry_budget cfg) (retry := 0) (w := w1).
  pose proof (retry_budget_enough cfg env (preview_bottle env ses row) abandon w1)
    as Hfuel.
  pose proof (retrying_not_disposed cfg env (preview_bottle env ses row) abandon
                Hawake (retry_budget cfg) 0 w1) as Hnot.
  destruct (retrying cfg env (retry_budget cfg) 0 (preview_bottle env ses row)
              abandon w1) as [[r| | |] w2]; cbn [fst snd] in *; try congruence.
  - exfalso. apply Hspec; auto.
    + intros w' Hw'. destruct (preview_bottle_throws env ses row w' Hsend) as [E1 E2].
      rewrite E1. congruence.
    + intros w' Hw'. unfold abandon. rewrite bind_run. cbn. rewrite Hw'. reflexivity.
  - split; [reflexivity|]. apply Hspec; auto.
    + intros w' Hw'. destruct (preview_bottle_throws env ses row w' Hsend) as [E1 E2].
      rewrite E1. congruence.
    + intros w' Hw'. unfold abandon. rewrite bind_run. cbn. rewrite Hw'. reflexivity.
Qed.

Lemma throw_bottle_ends cfg env ses title message :
  answers (fun a => a <> OutOfFuel) (throw_bottle cfg env ses title message).
Proof.
  unfold throw_bottle.
  eapply (answers_bind (fun r => r <> inl OutOfFuel)).
  - unfold throw_prepare.
    repeat match goal with
           | |- answers _ (if ?c then _ else _) => destruct c
           | |- answers _ (ret _) => apply answers_ret; discriminate
           end.
    eapply answers_bind; [apply answers_any|]. intros row _.
    eapply (answers_bind (fun e => e <> NoFuel)).
    + destruct (saveMode cfg);
        [apply answers_ret; discriminate | apply retrying_ends | apply retrying_ends].
    + intros [rewritten| | |] Hfuel; try congruence;
        answers_auto; discriminate.
  - intros [a|row] Ha; [apply answers_ret; congruence|].
    unfold throw_preview. destruct (preview cfg); [|apply answers_ret; discriminate].
    eapply (answers_bind (fun e => e <> NoFuel)); [apply retrying_ends|].
    intros [[]| | |] Hfuel; try congruence; apply answers_ret; discriminate.
Qed.

(** A throw that comes to its preview has spent one id of the bottle
    table and none of the comment table. *)
Lemma throw_prepare_seq cfg env ses title message w row w1 :
  throw_prepare cfg env ses title message w = (inr row, w1) ->
  bottle_seq (store w1) = bottle_seq (store w) + 1
  /\ comment_seq (store w1) = comment_seq (store w).
Proof.
  assert (match (throw_prepare cfg env ses title message w).1 with
          | inr _ =>
              bottle_seq (store (throw_prepare cfg env ses title message w).2)
              = bottle_seq (store w) + 1
              /\ comment_seq (store (throw_prepare cfg env ses title message w).2)
                 = comment_seq (store w)
          | inl _ => True
          end) as Hcases.
  { unfold throw_prepare.
    destruct (title_is_number env title); [exact Logic.I|].
    destruct (_ && _); [exact Logic.I|].
    destruct (_ && _); [exact Logic.I|].
    destruct (decide (_ < 1)); [exact Logic.I|].
    rewrite bind_run.
    match goal with
    | |- context [db_create_bottle ?r w] =>
        assert (bottle_seq (store (db_create_bottle r w).2) = bottle_seq (store w) + 1
                /\ comment_seq (store (db_create_bottle r w).2) = comment_seq (store w))
          as [Hb Hc] by (split; reflexivity);
        destruct (db_create_bottle r w) as [created wc]
    end.
    cbn [fst snd] in *. rewrite bind_run.
    match goal with
    | |- context [match saveMode cfg with
                  | SaveUrl => ?u
                  | SaveBase64 => ?l
                  | SaveFile => _
                  end] =>
        assert (match (match saveMode cfg with
                       | SaveUrl => u
                       | _ => l
                       end wc).1 with
                | Finished _ => store (match saveMode cfg with
                                       | SaveUrl => u
                                       | _ => l
                                       end wc).2 = store wc
                | _ => True
                end) as Hloop by (destruct (saveMode cfg);
                                  [reflexivity | apply bottle_assets_spec
                                   | apply bottle_assets_spec]);
        destruct (match saveMode cfg with
                  | SaveUrl => u
                  | _ => l
                  end wc) as [[rewritten| | |] w2]
    end; cbn [fst snd] in *; try exact Logic.I.
    destruct (decide (_ > _)) as [|Hlen]; cbn [ret fst snd]; [exact Logic.I|].
    rewrite bind_run. cbn. rewrite Hloop. auto. }
  intros Hprepare. rewrite Hprepare in Hcases. exact Hcases.
Qed.

(** ** Drawing a bottle *)

Lemma reads_find_bottles cfg env bottleId page :
  reads (find_bottles cfg env bottleId page).
Proof. unfold find_bottles, one_of. reads_auto. Qed.

Lemma reads_send_bottle cfg env ses b cs total :
  reads (send_bottle cfg env ses b cs total).
Proof. unfold send_bottle. reads_auto. Qed.

Lemma reads_draw_once cfg env ses page found :
  reads (draw_once cfg env ses page found).
Proof.
  unfold draw_once. pose proof (reads_send_bottle cfg env ses). reads_auto.
Qed.

Lemma reads_draw_bottle cfg env ses bottleId page :
  reads (draw_bottle cfg env ses bottleId page).
Proof.
  unfold draw_bottle.
  apply reads_bind; [apply reads_find_bottles|].
  intros [answer|found]; [apply reads_ret|].
  apply reads_bind.
  - apply reads_retrying; [apply reads_draw_once | apply reads_ret].
  - intros sent. reads_auto.
Qed.

Lemma find_bottles_answer cfg env bottleId page :
  answers (fun r => r <> inl OutOfFuel) (find_bottles cfg env bottleId page).
Proof. unfold find_bottles, one_of. answers_auto; discriminate. Qed.

Lemma draw_once_answer cfg env ses page found :
  answers (fun r => forall a, r = Some a -> a <> inl OutOfFuel)
    (draw_once cfg env ses page found).
Proof.
  unfold draw_once. answers_auto; try (intros r [= <-]; discriminate).
  intros r Hr.
  match type of Hr with ?o ≫= _ = _ => destruct o end;
    simpl in Hr; [injection Hr as <-|]; discriminate.
Qed.

Lemma draw_bottle_ends cfg env ses bottleId page :
  answers (fun r => r <> OutOfFuel) (draw_bottle cfg env ses bottleId page).
Proof.
  unfold draw_bottle.
  eapply answers_bind; [apply find_bottles_answer|].
  intros [answer|found] Hfound; [apply answers_ret; congruence|].
  eapply answers_bind; [apply answers_retrying, draw_once_answer|].
  intros sent [Hfuel Hsent].
  destruct sent as [[answer|[]]| | |]; apply answers_ret; try discriminate.
  - specialize (Hsent _ eq_refl). congruence.
  - congruence.
Qed.

(** C10.  A draw leaves the bottle table and the comment table, rows and
    counters, exactly as it found them, whatever it is asked for and
    whatever the transport does: it ends (with an answer, never by running
    out of loop iterations) in a world whose store is the one it started
    from.  The same holds of every part of the handler, from every world,
    so no row is created, patched or removed on the way either. *)
Theorem draw_bottle_is_read_only (cfg : Config) (env : Env) (ses : Session)
    (bottleId : option string) (page : option Z) (w : World) :
  store (draw_bottle cfg env ses bottleId page w).2 = store w
  /\ (draw_bottle cfg env ses bottleId page w).1 <> OutOfFuel.
Proof.
  split; [apply reads_draw_bottle | apply draw_bottle_ends].
Qed.

(** With a transport that delivers, one iteration of the draw loop over a
    single bottle shows that bottle. *)
Lemma draw_once_single cfg env ses page b w :
  (forall n, send_ok env n = true) ->
  exists w' m rest,
    draw_once cfg env ses page [b] w = (Some (inr tt), w')
    /\ outbox w' = outbox w ++ Sent (channelId ses) m :: rest
    /\ shows b m.
Proof.
  intros Hsend. unfold draw_once, Random_int. rewrite !bind_run.
  cbn [tick ret fst snd length]. rewrite Nat.mod_1_r. cbn [lookup list_lookup].
  rewrite !bind_run. cbn [read_store fst snd].
  unfold send_bottle. destruct (messageRecord cfg).
  - rewrite !bind_run, sendMessage_delivers by apply Hsend.
    cbn. eexists _, _, _. split; [reflexivity|]. split; reflexivity.
  - rewrite !bind_run, sendMessage_delivers by apply Hsend.
    cbn [fst snd]. rewrite !bind_run. cbn [bottleMap_set fst snd].
    destruct (has_av (Bottle.content b)).
    + rewrite !bind_run, sendMessage_delivers by apply Hsend.
      cbn. eexists _, _, _. split; [reflexivity|].
      split; [rewrite <- app_assoc; reflexivity | reflexivity].
    + cbn. eexists _, _, _. split; [reflexivity|]. split; reflexivity.
Qed.

(** What the handler finds for a name that is a regular expression: it
    decides on the requested page of the matching bottles. *)
Lemma find_by_pattern cfg env pattern page w :
  pattern <> "" ->
  isNaN (to_number env pattern) = true ->
  regex env pattern <> None ->
  let matching := get_bottle (name_matches env pattern) (store w) in
  let shown := select_bottle (name_matches env pattern)
                 (limit_of (bottleLimit cfg))
                 (offset_of (bottleLimit cfg) page) (store w) in
  find_bottles cfg env (Some pattern) page w
  = if decide (length shown < 1)%nat then (inl NoSuchBottle, w)
    else if decide (1 < length shown)%nat
         then (inl (ChooseBottle
                      (map (fun b => (Bottle.id b, Bottle.name b)) shown)
                      (Z.of_nat (length matching))), w)
         else (inr shown, w).
Proof.
  intros Hpattern Hnan Hregex matching shown.
  unfold find_bottles. destruct pattern as [|c rest]; [congruence|].
  rewrite Hnan. destruct (regex env (String c rest)) as [test|] eqn:Htest;
    [|congruence].
  rewrite bind_run. unfold read_store at 1. cbn [fst snd]. fold shown.
  unfold one_of.
  destruct (decide (length shown < 1)%nat); [reflexivity|].
  destruct (decide (1 < length shown)%nat); [|reflexivity].
  rewrite Htest. reflexivity.
Qed.

(** A name that is neither a number nor a regular expression ends the
    draw with an exception, in the world it started from. *)
Lemma draw_by_no_pattern cfg env ses pattern page w :
  pattern <> "" ->
  isNaN (to_number env pattern) = true ->
  regex env pattern = None ->
  draw_bottle cfg env ses (Some pattern) page w = (Uncaught, w).
Proof.
  intros Hpattern Hnan Hregex. unfold draw_bottle, find_bottles.
  destruct pattern as [|c rest]; [congruence|].
  rewrite bind_run, Hnan, Hregex. reflexivity.
Qed.

(** For a draw whose identifier is a regular expression and not a number,
    what decides is the requested page of the matching bottles, in the
    order of their ids, [bottleLimit] to a page: an empty page answers "no
    such bottle"; a page of more than one bottle answers the list of their
    ids and names, and nothing is drawn; a page of exactly one bottle goes
    on to draw that bottle, which a transport that delivers then shows.  In
    all three cases the store is not touched.  With [bottleLimit] at [0]
    the page is the whole list of matching bottles, so then it is their
    number that decides. *)
Lemma draw_by_name_decides_on_the_page (cfg : Config) (env : Env)
    (ses : Session) (pattern : string) (page : option Z) (w : World) :
  pattern <> "" ->
  isNaN (to_number env pattern) = true ->
  regex env pattern <> None ->
  let matching := get_bottle (name_matches env pattern) (store w) in
  let shown := select_bottle (name_matches env pattern)
                 (limit_of (bottleLimit cfg))
                 (offset_of (bottleLimit cfg) page) (store w) in
  let r := draw_bottle cfg env ses (Some pattern) page w in
  (shown = [] -> r = (NoSuchBottle, w))
  /\ ((1 < length shown)%nat ->
      r = (ChooseBottle (map (fun b => (Bottle.id b, Bottle.name b)) shown)
             (Z.of_nat (length matching)), w))
  /\ (forall b, shown = [b] ->
        find_bottles cfg env (Some pattern) page w = (inr [b], w)
        /\ store r.2 = store w
        /\ ((forall n, send_ok env n = true) ->
            r.1 = Silent
            /\ exists m rest, outbox r.2 = outbox w ++ Sent (channelId ses) m :: rest
                              /\ shows b m))
  /\ (bottleLimit cfg = 0 -> shown ≡ₚ matching).
Proof.
  intros Hpattern Hnan Hregex matching shown r.
  pose proof (find_by_pattern cfg env pattern page w Hpattern Hnan Hregex) as Hfind.
  cbv zeta in Hfind. fold matching shown in Hfind.
  split; [|split; [|split]].
  - intros Hshown. subst r. unfold draw_bottle. rewrite bind_run, Hfind, Hshown.
    reflexivity.
  - intros Hshown. subst r. unfold draw_bottle. rewrite bind_run, Hfind.
    rewrite decide_False by lia. rewrite decide_True by exact Hshown. reflexivity.
  - intros b Hshown.
    assert (find_bottles cfg env (Some pattern) page w = (inr [b], w)) as Hb.
    { rewrite Hfind, Hshown. simpl. reflexivity. }
    split; [exact Hb|]. split; [apply reads_draw_bottle|].
    intros Hsend. subst r. unfold draw_bottle. rewrite bind_run, Hb.
    cbn [fst snd]. rewrite bind_run.
    destruct (draw_once_single cfg env ses page b w Hsend)
      as (w' & m & rest & Hrun & Hout & Hshows).
    unfold retry_budget. rewrite (retrying_first _ _ _ _ _ _ _ _ _ Hrun).
    cbn. split; [reflexivity|]. eauto.
  - intros Hlimit. subst shown matching. unfold select_bottle, limit_of, offset_of.
    rewrite Hlimit. rewrite !decide_False by (intros H; apply H; reflexivity).
    rewrite page_of_unlimited. apply merge_sort_Permutation.
Qed.

(** C7 (a defect of the code).  The schema gives the draw by name a page
    size of its own, [nameBottleLimit], which is [0], no pagination, by
    default; no handler reads it, so a draw is the same for every value of
    it.  The draw takes its page from [bottleLimit], the page size of the
    lists of a user's bottles.  So with [nameBottleLimit] at [0] and
    [bottleLimit] at [1], the name "tea", which matches the bottles 1 and
    2, gets bottle 1 drawn: it is sent to the channel and remembered in
    [bottleMap], and no list is answered, against the claim.  With
    [bottleLimit] at [0] as well, the same draw answers the list of the
    two bottles, as the claim has it. *)
Theorem draw_by_name_pages_by_the_wrong_limit :
  (forall n cfg env ses bottleId page w,
      draw_bottle (with_nameBottleLimit n cfg) env ses bottleId page w
      = draw_bottle cfg env ses bottleId page w)
  /\ nameBottleLimit one_per_page = 0
  /\ bottleLimit one_per_page = 1
  /\ get_bottle (name_matches healthy "tea") (store two_teas)
     = [Bottle.mk 1 "tea" "bob" "g1" "c1" "Bob" "green" 0 (Num 0) 10;
        Bottle.mk 2 "teapot" "bob" "g1" "c1" "Bob" "iron" 0 (Num 0) 10]
  /\ (let r := draw_bottle one_per_page healthy alice (Some "tea") None two_teas in
      r.1 = Silent
      /\ outbox r.2
         = [Sent "c1" (BottleText
                         (Bottle.mk 1 "tea" "bob" "g1" "c1" "Bob" "green" 0 (Num 0) 10)
                         [] 0)]
      /\ bottleMap r.2 !! 1%nat = Some 1
      /\ store r.2 = store two_teas)
  /\ ~ drawn_by_name_as_specified one_per_page healthy alice "tea" None two_teas
  /\ draw_bottle example_cfg healthy alice (Some "tea") None two_teas
     = (ChooseBottle [(1, "tea"); (2, "teapot")] 2, two_teas).
Proof.
  split; [intros; reflexivity|].
  split; [reflexivity|]. split; [reflexivity|].
  split; [vm_compute; reflexivity|].
  split; [repeat split; vm_compute; reflexivity|].
  split; [|vm_compute; reflexivity].
  intros (_ & Hmany & _).
  destruct Hmany as (rows & total & Hreply).
  - vm_compute. lia.
  - vm_compute in Hreply. discriminate.
Qed.

(** ** Commenting *)

Section Comments.
Context (cfg : Config) (env : Env).

Lemma reads_remind primary fallback m : reads (remind env primary fallback m).
Proof. unfold remind. reads_auto. Qed.

Lemma reads_remind_friend ids who target m :
  reads (remind_friend env ids who target m).
Proof.
  induction ids as [|i ids IH]; simpl; [apply reads_ret|].
  destruct (decide (i = who)); [|exact IH].
  apply reads_bind; [apply reads_sendMessage|].
  intros [h|]; [apply reads_ret|].
  apply reads_bind; [apply reads_session_send | intros _; exact IH].
Qed.

Lemma reads_notify uid id bottle answered bot ct :
  reads (notify env uid id bottle answered bot ct).
Proof.
  unfold notify.
  pose proof reads_remind. pose proof reads_remind_friend.
  destruct answered as [[replyId comment]|]; reads_auto.
Qed.

Lemma reads_notify_bots uid id bottle answered all :
  forall ct, reads (notify_bots env uid id bottle answered all ct).
Proof.
  induction all as [|bot all IH]; intros ct; simpl; [apply reads_ret|].
  apply reads_bind; [apply reads_notify | intros ct'; apply IH].
Qed.

Lemma reads_comment_check ses root rid id ct :
  reads (comment_check cfg env ses root rid id ct).
Proof.
  unfold comment_check. pose proof reads_notify_bots. reads_auto.
Qed.

(** A comment that passes the checks is a comment on a bottle of the
    table. *)
Lemma comment_check_finds_bottle ses root rid id ct w uid text :
  (comment_check cfg env ses root rid id ct w).1 = inr (uid, text) ->
  get_bottle (fun b => Bottle.id b = id) (store w) <> [].
Proof.
  unfold comment_check. rewrite bind_run. unfold read_store at 1. simpl.
  destruct (get_bottle _ (store w)); [discriminate | congruence].
Qed.

Lemma comment_check_ends ses root rid id ct :
  answers (fun r => r <> inl OutOfFuel) (comment_check cfg env ses root rid id ct).
Proof. unfold comment_check. answers_auto; discriminate. Qed.
Lemma appended_patched s s' id row c :
  well_formed s ->
  appended s s' id row ->
  appended s
    (set_comment (fun x => Comment.id x = comment_seq s + 1) (Comment.with_content c) s')
    id (Comment.with_content c row).
Proof.
  intros [_ Hwf] (Hb & Hbs & Hcs & Hc & Hid & Hbid & Hcid).
  unfold appended. simpl. rewrite Hc, map_app. simpl.
  rewrite decide_True by exact Hid.
  rewrite map_patch_none; [tauto|].
  intros x Hx. specialize (Hwf x Hx). lia.
Qed.

Lemma appended_removed s s' id row :
  well_formed s ->
  appended s s' id row ->
  restored s (remove_comment (fun x => Comment.id x = comment_seq s + 1) s').
Proof.
  intros [_ Hwf] (Hb & Hbs & Hcs & Hc & Hid & Hbid & Hcid).
  unfold restored. simpl. rewrite Hc, filter_app.
  rewrite filter_cons_False by (intros Hn; apply Hn; exact Hid).
  rewrite filter_nil, app_nil_r.
  rewrite filter_all; [repeat split; auto; lia|].
  intros x Hx. specialize (Hwf x Hx). lia.
Qed.

(** The asset loop of a comment, started in a store [s1] that is [s] with
    the row appended. *)
Lemma comment_assets_spec s id row ct w1 :
  well_formed s ->
  Comment.id row = comment_seq s + 1 ->
  (exists row', appended s (store w1) id row') ->
  let loop := retrying cfg env (retry_budget cfg) 0
                (store_comment_assets cfg env row ct)
                (session_send AssetsNotStored ;;
                 with_store (remove_comment (fun x => Comment.id x = Comment.id row))) in
  match (loop w1).1 with
  | Finished _ => exists row', appended s (store (loop w1).2) id row'
  | GaveUp => restored s (store (loop w1).2)
  | Disposed => (exists row', appended s (store (loop w1).2) id row')
                /\ ~ forall n, sleep_ok env n = true
  | NoFuel => False
  end.
Proof.
  intros Hwf Hid Happ loop.
  pose proof (retrying_spec cfg env
                (store_comment_assets cfg env row ct)
                (session_send AssetsNotStored ;;
                 with_store (remove_comment (fun x => Comment.id x = Comment.id row)))
                (fun w' => exists row', appended s (store w') id row')
                (fun _ w' => exists row', appended s (store w') id row')
                (fun w' => restored s (store w'))) as Hspec.
  pose proof (retry_budget_enough cfg env
                (store_comment_assets cfg env row ct)
                (session_send AssetsNotStored ;;
                 with_store (remove_comment (fun x => Comment.id x = Comment.id row)))
                w1) as Hfuel.
  pose proof (fun H => retrying_not_disposed cfg env
                (store_comment_assets cfg env row ct)
                (session_send AssetsNotStored ;;
                 with_store (remove_comment (fun x => Comment.id x = Comment.id row)))
                H (retry_budget cfg) 0 w1) as Hawake.
  fold loop in Hfuel, Hawake.
  specialize (Hspec) with (fuel := retry_budget cfg) (retry := 0) (w := w1).
  fold loop in Hspec.
  assert (match (loop w1).1 with
          | Finished _ => exists row', appended s (store (loop w1).2) id row'
          | GaveUp => restored s (store (loop w1).2)
          | Disposed => exists row', appended s (store (loop w1).2) id row'
          | NoFuel => True
          end) as Hend.
  { apply Hspec; [| |  | exact Happ].
    - intros w' [row' Hrow']. unfold store_comment_assets, store_assets.
      rewrite !bind_run. cbn [tick fst snd].
      destruct (externalized env (clock w') (saveMode cfg) ct) as [| |c fs];
        cbn; try (rewrite !bind_run; cbn); eauto.
      exists (Comment.with_content c row'). rewrite Hid.
      apply appended_patched; assumption.
    - intros w' Hw'. exact Hw'.
    - intros w' [row' Hrow']. rewrite bind_run. cbn. rewrite Hid.
      eapply appended_removed; eassumption. }
  destruct ((loop w1).1); auto.
  split; [exact Hend|]. intros Hall. apply (Hawake Hall). reflexivity.
Qed.

Lemma db_create_comment_spec row0 w :
  Comment.cid row0 = next_cid (comments_of (store w) (Comment.bid row0)) ->
  appended (store w) (store (db_create_comment row0 w).2) (Comment.bid row0)
    (db_create_comment row0 w).1
  /\ Comment.id (db_create_comment row0 w).1 = comment_seq (store w) + 1.
Proof.
  intros Hcid. unfold db_create_comment, appended. simpl. tauto.
Qed.

(** What the insertion leaves: the row, appended; or the table as it was,
    when the assets could not be stored.  A disposed plugin leaves the row
    and answers nothing. *)
Lemma comment_insert_spec ses id uid ct w :
  well_formed (store w) ->
  match (comment_insert cfg env ses id uid ct w).1 with
  | inr cid =>
      exists row, appended (store w) (store (comment_insert cfg env ses id uid ct w).2)
                    id row
                  /\ cid = Comment.cid row
  | inl a =>
      a = Silent
      /\ (restored (store w) (store (comment_insert cfg env ses id uid ct w).2)
          \/ ((exists row, appended (store w)
                             (store (comment_insert cfg env ses id uid ct w).2) id row)
              /\ ~ forall n, sleep_ok env n = true))
  end.
Proof.
  intros Hwf. unfold comment_insert.
  rewrite bind_run. unfold read_store. cbn [fst snd]. rewrite bind_run.
  match goal with
  | |- context [db_create_comment ?r w] =>
      destruct (db_create_comment_spec r w eq_refl) as [Happ Hid];
      destruct (db_create_comment r w) as [row w1]
  end.
  cbn [fst snd Comment.bid Comment.cid] in *. rewrite bind_run.
  assert (forall row' s', appended (store w) s' id row' ->
            exists row0, appended (store w) s' id row0
                         /\ next_cid (get_comment (fun c => Comment.bid c = id) (store w))
                            = Comment.cid row0) as Hfinish.
  { intros row' s' Hrow'. exists row'. split; [exact Hrow'|].
    destruct Hrow' as (_ & _ & _ & _ & _ & _ & ->). reflexivity. }
  destruct (saveMode cfg).
  - cbn. eapply Hfinish, Happ.
  - pose proof (comment_assets_spec (store w) id row ct w1 Hwf Hid
                  (ex_intro _ row Happ)) as Hloop.
    cbv zeta in Hloop.
    destruct (retrying _ _ _ _ _ _ w1) as [[[]| | |] w2]; cbn in *.
    + destruct Hloop as [row' Hrow']. eapply Hfinish, Hrow'.
    + auto.
    + auto.
    + contradiction.
  - pose proof (comment_assets_spec (store w) id row ct w1 Hwf Hid
                  (ex_intro _ row Happ)) as Hloop.
    cbv zeta in Hloop.
    destruct (retrying _ _ _ _ _ _ w1) as [[[]| | |] w2]; cbn in *.
    + destruct Hloop as [row' Hrow']. eapply Hfinish, Hrow'.
    + auto.
    + auto.
    + contradiction.
Qed.
Lemma appended_unposted s s' id row :
  appended s s' id row ->
  restored s (remove_comment
                (fun x => Comment.bid x = id /\ Comment.cid x = Comment.cid row) s').
Proof.
  intros (Hb & Hbs & Hcs & Hc & Hid & Hbid & Hcid).
  unfold restored. simpl. rewrite Hc, filter_app.
  rewrite filter_cons_False by (intros Hn; apply Hn; auto).
  rewrite filter_nil, app_nil_r.
  rewrite filter_all; [repeat split; auto; lia|].
  intros x Hx [Hx1 Hx2].
  assert (x ∈ comments_of s id) as Hin
    by (unfold comments_of; apply list_elem_of_filter; auto).
  pose proof (next_cid_above _ _ Hin). lia.
Qed.

(** The preview of a comment, when previews are on, started in a store
    that is [s] with the row appended: the comment is posted, when some
    send got through; or rolled back, after as many failed sends as the
    retries allow; or left as it is by a plugin that is disposed. *)
Lemma comment_preview_spec ses id ct s row first rest w1 :
  appended s (store w1) id row ->
  get_bottle (fun b => Bottle.id b = id) s = first :: rest ->
  preview cfg = true ->
  (comment_preview cfg env ses id (Comment.cid row) ct w1).1 = Silent
  /\ ((posted s (store (comment_preview cfg env ses id (Comment.cid row) ct w1).2)
         id first row
       /\ exists n, send_ok env n = true)
      \/ restored s (store (comment_preview cfg env ses id (Comment.cid row) ct w1).2)
      \/ ((store (comment_preview cfg env ses id (Comment.cid row) ct w1).2 = store w1)
          /\ ~ forall n, sleep_ok env n = true)).
Proof.
  intros Happ Hfirst Hpreview. unfold comment_preview. rewrite Hpreview.
  rewrite bind_run.
  set (attempt := preview_comment env ses id (Comment.cid row) ct).
  set (abandon := bind (session_send PreviewNotSent) _).
  pose proof (retrying_spec cfg env attempt abandon
                (fun w' => store w' = store w1)
                (fun _ w' => posted s (store w') id first row
                             /\ exists n, send_ok env n = true)
                (fun w' => restored s (store w'))) as Hspec.
  pose proof (retry_budget_enough cfg env attempt abandon w1) as Hfuel.
  pose proof (fun H => retrying_not_disposed cfg env attempt abandon
                H (retry_budget cfg) 0 w1) as Hawake.
  specialize (Hspec) with (fuel := retry_budget cfg) (retry := 0) (w := w1).
  assert (match (retrying cfg env (retry_budget cfg) 0 attempt abandon w1).1 with
          | Finished _ =>
              posted s (store (retrying cfg env (retry_budget cfg) 0 attempt abandon w1).2)
                id first row
              /\ exists n, send_ok env n = true
          | GaveUp =>
              restored s (store (retrying cfg env (retry_budget cfg) 0 attempt abandon w1).2)
          | Disposed =>
              store (retrying cfg env (retry_budget cfg) 0 attempt abandon w1).2 = store w1
          | NoFuel => True
          end) as Hend.
  { apply Hspec; [| | | reflexivity].
    - intros w' Hw'. unfold attempt, preview_comment. rewrite bind_run.
      destruct (send_ok env (clock w')) eqn:Hok.
      + rewrite sendMessage_delivers by exact Hok. cbn [fst snd].
        rewrite bind_run. unfold read_store. cbn [fst snd store].
        rewrite Hw'. unfold get_bottle in *.
        destruct Happ as (Hb & Hbs & Hcs & Hc & _).
        rewrite Hb, Hfirst. rewrite bind_run. cbn.
        unfold posted. simpl. rewrite Hb, Hc, Hbs, Hcs.
        split; [tauto | eauto].
      + rewrite sendMessage_throws by exact Hok. cbn. exact Hw'.
    - intros w' Hw'. exact Hw'.
    - intros w' Hw'. unfold abandon. rewrite bind_run. cbn. rewrite Hw'.
      apply appended_unposted. exact Happ. }
  destruct (retrying cfg env (retry_budget cfg) 0 attempt abandon w1)
    as [[[]| | |] w2]; cbn in *.
  - auto.
  - auto.
  - split; [reflexivity|]. right. right. split; [exact Hend|].
    intros Hall. apply (Hawake Hall). reflexivity.
  - congruence.
Qed.
(** The two ways of a comment through its handler: it ends before the
    preview, with the table as it was (or, disposed, with the row left in
    it); or it comes to the preview with its row appended. *)
Lemma comment_bottle_cases ses root rid id ct w :
  well_formed (store w) ->
  (exists a w', comment_bottle cfg env ses root rid id ct w = (a, w')
                /\ a <> OutOfFuel
                /\ (restored (store w) (store w')
                    \/ ((exists row, appended (store w) (store w') id row)
                        /\ ~ forall n, sleep_ok env n = true)))
  \/ (exists first rest row text w2,
        get_bottle (fun b => Bottle.id b = id) (store w) = first :: rest
        /\ appended (store w) (store w2) id row
        /\ comment_bottle cfg env ses root rid id ct w
           = comment_preview cfg env ses id (Comment.cid row) text w2).
Proof.
  intros Hwf. unfold comment_bottle. rewrite bind_run.
  pose proof (reads_comment_check ses root rid id ct w) as Hreads.
  pose proof (comment_check_ends ses root rid id ct w) as Hends.
  pose proof (comment_check_finds_bottle ses root rid id ct w) as Hfinds.
  destruct (comment_check cfg env ses root rid id ct w) as [[a|[uid text]] w0];
    cbn [fst snd] in *.
  - left. exists a, w0. split; [reflexivity|]. split; [congruence|].
    left. rewrite Hreads. unfold restored. repeat split; auto; lia.
  - specialize (Hfinds uid text eq_refl).
    destruct (get_bottle (fun b => Bottle.id b = id) (store w))
      as [|first rest] eqn:Hfirst; [congruence|].
    rewrite bind_run.
    pose proof (comment_insert_spec ses id uid text w0) as Hins.
    rewrite Hreads in Hins. specialize (Hins Hwf).
    destruct (comment_insert cfg env ses id uid text w0) as [[a|cid] w2];
      cbn [fst snd] in *.
    + left. exists a, w2. destruct Hins as [-> Hins].
      split; [reflexivity|]. split; [discriminate | exact Hins].
    + right. destruct Hins as (row & Happ & ->).
      exists first, rest, row, text, w2. auto.
Qed.

(** With previews on, a comment ends in one of three ways: the table as it
    was; the comment posted and counted; or, for a disposed plugin, the
    row left in the table. *)
Lemma comment_bottle_outcome ses root rid id ct w :
  well_formed (store w) ->
  preview cfg = true ->
  (comment_bottle cfg env ses root rid id ct w).1 <> OutOfFuel
  /\ (restored (store w) (store (comment_bottle cfg env ses root rid id ct w).2)
      \/ (exists first rest row,
            get_bottle (fun b => Bottle.id b = id) (store w) = first :: rest
            /\ Comment.bid row = id
            /\ Comment.id row = comment_seq (store w) + 1
            /\ Comment.cid row = next_cid (comments_of (store w) id)
            /\ posted (store w) (store (comment_bottle cfg env ses root rid id ct w).2)
                 id first row
            /\ exists n, send_ok env n = true)
      \/ ((exists row, appended (store w)
                         (store (comment_bottle cfg env ses root rid id ct w).2) id row)
          /\ ~ forall n, sleep_ok env n = true)).
Proof.
  intros Hwf Hpreview.
  destruct (comment_bottle_cases ses root rid id ct w Hwf)
    as [(a & w' & -> & Ha & Hw')|(first & rest & row & text & w2 & Hfirst & Happ & ->)].
  - split; [exact Ha|]. cbn. tauto.
  - destruct (comment_preview_spec ses id text (store w) row first rest w2
                Happ Hfirst Hpreview) as [Hsilent Hcases].
    split; [rewrite Hsilent; discriminate|].
    destruct Hcases as [[Hposted Hsent]|[Hrestored|[Hsame Hdisposed]]].
    + right. left. exists first, rest, row.
      destruct Happ as (_ & _ & _ & _ & Hid & Hbid & Hcid). auto 10.
    + left. exact Hrestored.
    + right. right. split; [|exact Hdisposed]. exists row. rewrite Hsame. exact Happ.
Qed.
End Comments.

Lemma comment_bottle_ends cfg env ses root rid id ct :
  answers (fun a => a <> OutOfFuel) (comment_bottle cfg env ses root rid id ct).
Proof.
  unfold comment_bottle.
  eapply answers_bind; [apply comment_check_ends|].
  intros [a|[uid text]] Ha; [apply answers_ret; congruence|].
  eapply (answers_bind (fun r => r <> inl OutOfFuel)).
  - unfold comment_insert.
    eapply answers_bind; [apply answers_any|]. intros data _.
    eapply answers_bind; [apply answers_any|]. intros row _.
    eapply (answers_bind (fun e => e <> NoFuel)).
    + destruct (saveMode cfg);
        [apply answers_ret; discriminate | apply retrying_ends | apply retrying_ends].
    + intros [[]| | |] Hfuel; try congruence; apply answers_ret; discriminate.
  - intros [a|cid] Hins; [apply answers_ret; congruence|].
    unfold comment_preview. destruct (preview cfg).
    + eapply (answers_bind (fun e => e <> NoFuel)); [apply retrying_ends|].
      intros [[]| | |] Hfuel; try congruence; apply answers_ret; discriminate.
    + answers_auto; discriminate.
Qed.

(** ** A preview that cannot be sent *)

Section GivingUp.
Context (cfg : Config) (env : Env).

(** A loop whose attempts all fail gives up after the last of them. *)
Lemma retrying_gives_up {A} (attempt : M (option A)) (abandon : M unit) :
  forall n retry w,
    Z.to_nat (maxRetry cfg - retry) = n ->
    fails_every_time env attempt n w ->
    retrying cfg env (S n) retry attempt abandon w
    = (GaveUp, (abandon (after_attempts env attempt n w)).2).
Proof.
  induction n as [|n IH]; intros retry w Hn Hfails.
  - destruct Hfails as [Hfail _]. cbn [retrying after_attempts].
    rewrite bind_run, Hfail. rewrite decide_True by lia.
    rewrite bind_run. reflexivity.
  - destruct Hfails as (Hfail & Hawake & Hrest).
    change (retrying cfg env (S (S n)) retry attempt abandon w)
      with ((let* r := attempt in
             match r with
             | Some a => ret (Finished a)
             | None =>
                 if decide (retry + 1 > maxRetry cfg) then abandon ;; ret GaveUp
                 else
                   let* awake := sleep env in
                   if awake then retrying cfg env (S n) (retry + 1) attempt abandon
                   else ret Disposed
             end) w).
    rewrite bind_run, Hfail. rewrite decide_False by lia.
    rewrite bind_run, Hawake. cbn [after_attempts].
    apply IH; [lia | exact Hrest].
Qed.

(** Attempts that leave the store alone when they fail leave it alone
    all together. *)
Lemma after_attempts_store {A} (attempt : M (option A)) :
  (forall w, (attempt w).1 = None -> store (attempt w).2 = store w) ->
  forall n w,
    fails_every_time env attempt n w ->
    store (after_attempts env attempt n w) = store w.
Proof.
  intros Hkeeps. induction n as [|n IH]; intros w Hfails.
  - destruct Hfails as [Hfail _]. apply Hkeeps, Hfail.
  - destruct Hfails as (Hfail & _ & Hrest). cbn [after_attempts].
    rewrite (IH _ Hrest). rewrite reads_sleep. apply Hkeeps, Hfail.
Qed.

Lemma preview_comment_keeps ses id cid ct w :
  (preview_comment env ses id cid ct w).1 = None ->
  store (preview_comment env ses id cid ct w).2 = store w.
Proof.
  unfold preview_comment. rewrite bind_run.
  pose proof (reads_sendMessage env (channelId ses)
                (CommentPreview cid (sessionName ses) ct) w) as Hsend.
  destruct (sendMessage env _ _ w) as [[handle|] w1]; cbn [fst snd] in *;
    [|intros _; exact Hsend].
  rewrite bind_run, read_store_run. cbn [fst snd].
  destruct (get_bottle _ (store w1)); [intros _; exact Hsend|].
  rewrite !bind_run. cbn. discriminate.
Qed.

(** The preview of a bottle, every attempt of which fails: nothing is
    answered, the notice goes out and the row is removed. *)
Lemma throw_preview_gives_up ses row w1 :
  preview cfg = true ->
  fails_every_time env (preview_bottle env ses row) (Z.to_nat (maxRetry cfg)) w1 ->
  throw_preview cfg env ses row w1
  = (Silent,
     given_up (remove_bottle (fun b => Bottle.id b = Bottle.id row) (store w1))
       (after_attempts env (preview_bottle env ses row) (Z.to_nat (maxRetry cfg)) w1)).
Proof.
  intros Hpreview Hfails. unfold throw_preview. rewrite Hpreview, bind_run.
  unfold retry_budget.
  rewrite (retrying_gives_up _ _ _ 0 w1) by (f_equal; lia || exact Hfails).
  rewrite bind_run. cbn [fst snd ret session_send emit with_store given_up
                           store files bottleMap clock outbox].
  rewrite (after_attempts_store (preview_bottle env ses row)
             (fun w _ => reads_preview_bottle env ses row w) _ _ Hfails).
  reflexivity.
Qed.

(** The same for the preview of a comment. *)
Lemma comment_preview_gives_up ses id cid ct w2 :
  preview cfg = true ->
  fails_every_time env (preview_comment env ses id cid ct)
    (Z.to_nat (maxRetry cfg)) w2 ->
  comment_preview cfg env ses id cid ct w2
  = (Silent,
     given_up (remove_comment (fun x => Comment.bid x = id /\ Comment.cid x = cid)
                 (store w2))
       (after_attempts env (preview_comment env ses id cid ct)
          (Z.to_nat (maxRetry cfg)) w2)).
Proof.
  intros Hpreview Hfails. unfold comment_preview. rewrite Hpreview, bind_run.
  unfold retry_budget.
  rewrite (retrying_gives_up _ _ _ 0 w2) by (f_equal; lia || exact Hfails).
  rewrite bind_run. cbn [fst snd ret session_send emit with_store given_up
                           store files bottleMap clock outbox].
  rewrite (after_attempts_store (preview_comment env ses id cid ct)
             (preview_comment_keeps ses id cid ct) _ _ Hfails).
  reflexivity.
Qed.
End GivingUp.

(** C6.  Previews are on, and the preview of the row that a request has
    just created fails at every attempt the retry loop makes, [maxRetry]
    retries after the first, with no wait between them cut short.  What
    else the transport does, a reminder or the caption of an audio that
    it delivers, does not matter.

    For a throw that has come to its preview: its row, which took the
    next id of the bottle table, is in the table when the preview begins;
    the handler answers nothing, tells the caller that the preview was
    not sent after the last attempt, and removes the row.  The bottle
    table and the comment table end as they were before the request, and
    the id of the row is spent.

    For a comment that has come to its preview, the same: its row, which
    took the next id of the comment table, is in the table when the
    preview begins and is removed after the last attempt, the caller is
    told, both tables end as they were before the request, no counter of
    a bottle has moved, and the id of the row is spent. *)
Theorem failed_preview_deletes_the_row (cfg : Config) (env : Env) :
  preview cfg = true ->
  (forall ses title message w row w1,
     well_formed (store w) ->
     throw_prepare cfg env ses title message w = (inr row, w1) ->
     fails_every_time env (preview_bottle env ses row)
       (Z.to_nat (maxRetry cfg)) w1 ->
     let r := throw_bottle cfg env ses title message w in
     Bottle.id row = bottle_seq (store w) + 1
     /\ Bottle.id row ∈ map Bottle.id (bottles (store w1))
     /\ r = (Silent,
             given_up (remove_bottle (fun b => Bottle.id b = Bottle.id row)
                         (store w1))
               (after_attempts env (preview_bottle env ses row)
                  (Z.to_nat (maxRetry cfg)) w1))
     /\ (Bottle.id row ∉ map Bottle.id (bottles (store r.2)))
     /\ bottles (store r.2) = bottles (store w)
     /\ comments (store r.2) = comments (store w)
     /\ bottle_seq (store r.2) = bottle_seq (store w) + 1
     /\ last (outbox r.2) = Some (Told PreviewNotSent))
  /\ (forall ses root rid id ct w uid text w1 cid w2,
        well_formed (store w) ->
        comment_check cfg env ses root rid id ct w = (inr (uid, text), w1) ->
        comment_insert cfg env ses id uid text w1 = (inr cid, w2) ->
        fails_every_time env (preview_comment env ses id cid text)
          (Z.to_nat (maxRetry cfg)) w2 ->
        let r := comment_bottle cfg env ses root rid id ct w in
        (exists row, row ∈ comments (store w2)
                     /\ Comment.id row = comment_seq (store w) + 1
                     /\ Comment.bid row = id /\ Comment.cid row = cid
                     /\ (row ∉ comments (store w))
                     /\ (row ∉ comments (store r.2)))
        /\ r = (Silent,
                given_up (remove_comment
                            (fun x => Comment.bid x = id /\ Comment.cid x = cid)
                            (store w2))
                  (after_attempts env (preview_comment env ses id cid text)
                     (Z.to_nat (maxRetry cfg)) w2))
        /\ bottles (store r.2) = bottles (store w)
        /\ comments (store r.2) = comments (store w)
        /\ comment_seq (store r.2) = comment_seq (store w) + 1
        /\ last (outbox r.2) = Some (Told PreviewNotSent)).
Proof.
  intros Hpreview. split.
  - intros ses title message w row w1 Hwf Hprepare Hfails r.
    destruct (throw_prepare_spec cfg env ses title message w row w1 Hwf Hprepare)
      as (Hid & Hc & c & Hb & _).
    destruct (throw_prepare_seq cfg env ses title message w row w1 Hprepare)
      as [Hseq _].
    assert (r = throw_preview cfg env ses row w1) as Hr.
    { subst r. unfold throw_bottle. rewrite bind_run, Hprepare. reflexivity. }
    rewrite (throw_preview_gives_up cfg env ses row w1 Hpreview Hfails) in Hr.
    rewrite Hr. cbn [fst snd given_up store outbox remove_bottle bottles comments
                       bottle_seq].
    assert (filter (fun b => Bottle.id b <> Bottle.id row) (bottles (store w1))
            = bottles (store w)) as Hgone.
    { rewrite Hb, filter_app.
      rewrite filter_cons_False by (intros Hn; apply Hn; reflexivity).
      rewrite filter_nil, app_nil_r. apply filter_all.
      intros b Hin. destruct Hwf as [Hwf _]. specialize (Hwf b Hin). lia. }
    split; [exact Hid|]. split.
    { rewrite Hb, map_app. apply elem_of_app. right. cbn. left. }
    split; [reflexivity|]. split.
    { rewrite Hgone. intros Hin. apply list_elem_of_fmap in Hin as (b & Hbid & Hin).
      destruct Hwf as [Hwf _]. specialize (Hwf b Hin). lia. }
    split; [exact Hgone|]. split; [exact Hc|]. split; [exact Hseq|].
    apply last_snoc.
  - intros ses root rid id ct w uid text w1 cid w2 Hwf Hcheck Hinsert Hfails r.
    pose proof (reads_comment_check cfg env ses root rid id ct w) as Hreads.
    pose proof (comment_check_finds_bottle cfg env ses root rid id ct w uid text)
      as Hfinds.
    rewrite Hcheck in Hreads, Hfinds. cbn [fst snd] in *.
    specialize (Hfinds eq_refl).
    destruct (get_bottle (fun b => Bottle.id b = id) (store w))
      as [|first rest] eqn:Hfirst; [congruence|].
    pose proof (comment_insert_spec cfg env ses id uid text w1) as Hins.
    rewrite Hreads, Hinsert in Hins. cbn [fst snd] in Hins.
    destruct (Hins Hwf) as (row & Happ & ->).
    assert (r = comment_preview cfg env ses id (Comment.cid row) text w2) as Hr.
    { subst r. unfold comment_bottle. rewrite bind_run, Hcheck. cbn [fst snd].
      rewrite bind_run, Hinsert. reflexivity. }
    rewrite (comment_preview_gives_up cfg env ses id (Comment.cid row) text w2
               Hpreview Hfails) in Hr.
    rewrite Hr. cbn [fst snd given_up store outbox].
    pose proof (appended_unposted (store w) (store w2) id row Happ)
      as (Hb' & Hc' & Hbs' & Hcs').
    destruct Happ as (Hb & Hbs & Hcs & Hc & Hid & Hbid & Hcid).
    assert (row ∉ comments (store w)) as Hnew.
    { intros Hin. destruct Hwf as [_ Hwf]. specialize (Hwf row Hin). lia. }
    split.
    { exists row. rewrite Hc. split; [apply elem_of_app; right; left|].
      split; [exact Hid|]. split; [exact Hbid|]. split; [reflexivity|].
      split; [exact Hnew|]. rewrite Hc'. exact Hnew. }
    split; [reflexivity|]. split; [exact Hb'|]. split; [exact Hc'|].
    split; [cbn; lia|]. apply last_snoc.
Qed.

(** Two runs of it.  Alice throws an audio over a transport that delivers
    the caption and throws on the audio, three times: the captions went
    out, the caller was told, and the table is empty again.  Alice
    comments on the bottle of bob over a transport that delivers the
    reminder to bob and throws on every send after it: bob has his
    reminder, and the comment is gone. *)
Lemma failed_previews_leave_no_row :
  (let r := throw_bottle example_cfg
              (example_env (fun n => bool_decide (n `mod` 3 = 0)%nat) (fun _ => None))
              alice None (Some "<audio/>") (initial_world empty_store) in
   bottles (store r.2) = []
   /\ bottle_seq (store r.2) = 1
   /\ outbox r.2 = [Sent "c1" (ThrownCaption 1); Sent "c1" (ThrownCaption 1);
                    Sent "c1" (ThrownCaption 1); Told PreviewNotSent])
  /\ (let r := comment_bottle example_cfg
                 (example_env (fun n => bool_decide (n < 1)%nat) (fun _ => None))
                 alice false 0 1 (Some "nice") fresh_bottle in
      comments (store r.2) = []
      /\ comment_seq (store r.2) = 1
      /\ outbox r.2 = [Sent "c1" (NewComment 1 "“nice”"); Told PreviewNotSent]).
Proof.
  set (captions := example_env (fun n => bool_decide (n `mod` 3 = 0)%nat)
                     (fun _ => None)).
  set (reminded := example_env (fun n => bool_decide (n < 1)%nat) (fun _ => None)).
  destruct (failed_preview_deletes_the_row example_cfg captions eq_refl)
    as [Hthrow _].
  destruct (failed_preview_deletes_the_row example_cfg reminded eq_refl)
    as [_ Hcomment].
  assert (well_formed (store (initial_world empty_store))) as Hempty
    by (split; intros x Hx; inversion Hx).
  assert (well_formed (store fresh_bottle)) as Hfresh.
  { split; intros x Hx; simpl in Hx.
    - apply list_elem_of_singleton in Hx as ->. simpl. lia.
    - inversion Hx. }
  split.
  - specialize (Hthrow alice None (Some "<audio/>") (initial_world empty_store)
                  _ _ Hempty eq_refl).
    destruct Hthrow as (_ & _ & Hrun & _).
    { vm_compute. tauto. }
    cbv zeta. rewrite Hrun. vm_compute. tauto.
  - specialize (Hcomment alice false 0 1 (Some "nice") fresh_bottle
                  _ _ _ _ _ Hfresh eq_refl eq_refl).
    destruct Hcomment as (_ & Hrun & _).
    { vm_compute. tauto. }
    cbv zeta. rewrite Hrun. vm_compute. tauto.
Defined.

(** ** Every handler ends *)

Lemma audit_bottles_ends cfg env ses rows :
  forall brokenBottle,
    answers (fun r => r <> inl OutOfFuel)
      (audit_bottles cfg env ses rows brokenBottle).
Proof.
  induction rows as [|b rows IH]; intros brokenBottle; simpl.
  - apply answers_ret. discriminate.
  - eapply (answers_bind (fun e => e <> NoFuel)); [apply retrying_ends|].
    intros [[|]| | |] Hfuel; try congruence; try apply IH;
      apply answers_ret; discriminate.
Qed.

Lemma delete_invalid_bottles_ends cfg env ses start end_ :
  answers (fun a => a <> OutOfFuel) (delete_invalid_bottles cfg env ses start end_).
Proof.
  unfold delete_invalid_bottles.
  repeat match goal with
         | |- answers _ (if ?c then _ else _) => destruct c
         | |- answers _ (ret _) => apply answers_ret; discriminate
         | |- answers _ (bind (session_send _) _) =>
             eapply answers_bind; [apply answers_any | intros ? _]
         | |- answers _ (bind (prompt _) _) =>
             eapply answers_bind; [apply answers_any | intros ? _]
         | |- answers _ (bind (read_store _) _) =>
             eapply answers_bind; [apply answers_any | intros ? _]
         end.
  eapply answers_bind; [apply audit_bottles_ends|].
  intros [answer|brokenBottle] Hanswer; [apply answers_ret; congruence|].
  answers_auto; discriminate.
Qed.

Lemma handle_ends cfg env r :
  answers (fun a => a <> OutOfFuel) (handle cfg env r).
Proof.
  destruct r; simpl.
  - apply throw_bottle_ends.
  - apply draw_bottle_ends.
  - apply comment_bottle_ends.
  - unfold delete_bottle. answers_auto; discriminate.
  - unfold delete_comment. answers_auto; discriminate.
  - unfold delete_expired. answers_auto; discriminate.
  - apply delete_invalid_bottles_ends.
  - unfold name_bottle. answers_auto; discriminate.
  - unfold set_hot_bottle. answers_auto; discriminate.
Qed.

(** No run of the handlers ends for want of loop iterations. *)
Lemma serve_ends cfg env rs :
  answers (fun answers => OutOfFuel ∉ answers) (serve cfg env rs).
Proof.
  induction rs as [|r rs IH]; simpl.
  - apply answers_ret. intros H. inversion H.
  - eapply answers_bind; [apply handle_ends|]. intros a Ha.
    eapply answers_bind; [apply IH|]. intros others Hothers.
    apply answers_ret. intros H. apply elem_of_cons in H as [H|H]; auto.
Qed.

Lemma serve_cons cfg env r rs w :
  (serve cfg env (r :: rs) w).2 = (serve cfg env rs (handle cfg env r w).2).2.
Proof.
  simpl. rewrite !bind_run. reflexivity.
Qed.

(** ** The comment counter *)

Lemma count_of_restored s s' id :
  restored s s' -> count_of s' id = count_of s id.
Proof.
  intros (_ & Hc & _). unfold count_of, comments_of. rewrite Hc. reflexivity.
Qed.

Lemma counted_restored s s' : restored s s' -> counted s -> counted s'.
Proof.
  intros Hr Hs b Hb. rewrite (count_of_restored s s' _ Hr).
  apply Hs. destruct Hr as (<- & _). exact Hb.
Qed.

Lemma well_formed_restored s s' : restored s s' -> well_formed s -> well_formed s'.
Proof.
  intros (Hb & Hc & Hbs & Hcs) [H1 H2]. split.
  - intros b. rewrite Hb, Hbs. apply H1.
  - intros c. rewrite Hc. intros Hin. specialize (H2 c Hin). lia.
Qed.

Lemma count_of_posted s s' id first row bid :
  posted s s' id first row ->
  Comment.bid row = id ->
  count_of s' bid = count_of s bid + (if decide (bid = id) then 1 else 0).
Proof.
  intros (_ & Hc & _) Hbid. unfold count_of, comments_of.
  rewrite Hc, filter_app, length_app.
  destruct (decide (bid = id)) as [->|Hne].
  - rewrite filter_cons_True by exact Hbid. simpl. lia.
  - rewrite filter_cons_False by congruence. simpl. lia.
Qed.

Lemma counted_posted s s' id first rest row :
  get_bottle (fun b => Bottle.id b = id) s = first :: rest ->
  posted s s' id first row ->
  Comment.bid row = id ->
  counted s -> counted s'.
Proof.
  intros Hfirst Hposted Hbid Hs b' Hb'.
  rewrite (count_of_posted _ _ _ _ _ _ Hposted Hbid).
  destruct Hposted as (Hb & _). rewrite Hb in Hb'.
  apply list_elem_of_fmap in Hb' as (b & -> & Hin).
  assert (first ∈ bottles s /\ Bottle.id first = id) as [Hfin Hfid].
  { assert (first ∈ get_bottle (fun b => Bottle.id b = id) s) as H
      by (rewrite Hfirst; left).
    unfold get_bottle in H. apply list_elem_of_filter in H. tauto. }
  unfold bump. destruct (decide (Bottle.id b = id)) as [Hid|Hid]; simpl.
  - rewrite (Hs first Hfin), Hfid, Hid. rewrite decide_True by reflexivity.
    reflexivity.
  - rewrite (Hs b Hin). rewrite decide_False by exact Hid.
    rewrite Z.add_0_r. reflexivity.
Qed.

Lemma well_formed_posted s s' id first row :
  posted s s' id first row ->
  Comment.id row = comment_seq s + 1 ->
  well_formed s -> well_formed s'.
Proof.
  intros (Hb & Hc & Hbs & Hcs) Hid [H1 H2]. split.
  - intros b'. rewrite Hb, Hbs. intros Hb'.
    apply list_elem_of_fmap in Hb' as (b & -> & Hin).
    unfold bump. destruct (decide (Bottle.id b = id)); simpl; apply H1, Hin.
  - intros c. rewrite Hc, Hcs. intros Hin.
    apply elem_of_app in Hin as [Hin|Hin].
    + specialize (H2 c Hin). lia.
    + apply list_elem_of_singleton in Hin as ->. lia.
Qed.

(** What the deletion of a comment does to the two tables. *)
Lemma delete_comment_spec cfg env ses bid cid w :
  bottles (store (delete_comment cfg env ses bid cid w).2) = bottles (store w)
  /\ ((delete_comment cfg env ses bid cid w).1 = CommentDeleted ->
      comments (store (delete_comment cfg env ses bid cid w).2)
      = filter (fun c => ~ (Comment.bid c = bid /\ Comment.cid c = cid))
               (comments (store w))
      /\ count_of (store (delete_comment cfg env ses bid cid w).2) bid
         < count_of (store w) bid).
Proof.
  unfold delete_comment. rewrite bind_run. unfold read_store. cbn [fst snd].
  destruct (get_comment _ (store w)) as [|c rest] eqn:Hget; [cbn; split; [auto|discriminate]|].
  destruct (_ && _); [cbn; split; [auto|discriminate]|].
  rewrite bind_run.
  pose proof (reads_unlink_assets env (Comment.content c) w) as Hunlink.
  destruct (unlink_assets env (Comment.content c) w) as [[|] w1];
    cbn [fst snd negb] in *; [|cbn; split; [congruence|discriminate]].
  rewrite !bind_run. cbn [with_store fst snd store ret remove_comment bottles comments].
  rewrite Hunlink. split; [reflexivity|]. intros _. split; [reflexivity|].
  unfold count_of, comments_of. cbn.
  assert (c ∈ comments (store w) /\ Comment.bid c = bid /\ Comment.cid c = cid)
    as (Hc & Hbid & Hcid).
  { assert (c ∈ get_comment (fun c => Comment.bid c = bid /\ Comment.cid c = cid)
                  (store w)) as H by (rewrite Hget; left).
    unfold get_comment in H. apply list_elem_of_filter in H. tauto. }
  clear Hget Hunlink. induction (comments (store w)) as [|x l IH]; [inversion Hc|].
  apply elem_of_cons in Hc as [<-|Hc].
  - rewrite (filter_cons_False (fun c0 => ~ _)) by tauto.
    rewrite (filter_cons_True (fun c0 => Comment.bid c0 = bid)) by exact Hbid.
    simpl length.
    pose proof (length_filter (fun c0 => Comment.bid c0 = bid)
                  (filter (fun c0 => ~ (Comment.bid c0 = bid /\ Comment.cid c0 = cid)) l)).
    pose proof (length_filter (fun c0 => ~ (Comment.bid c0 = bid /\ Comment.cid c0 = cid)) l).
    assert (length (filter (fun c0 => Comment.bid c0 = bid)
                      (filter (fun c0 => ~ (Comment.bid c0 = bid /\ Comment.cid c0 = cid)) l))
            <= length (filter (fun c0 => Comment.bid c0 = bid) l))%nat; [|lia].
    rewrite list_filter_filter. clear.
    induction l as [|y l IH]; [simpl; lia|].
    destruct (decide (Comment.bid y = bid)) as [Hy|Hy].
    + rewrite (filter_cons_True (fun c0 => Comment.bid c0 = bid)) by exact Hy.
      destruct (decide ((Comment.bid y = bid) /\ ~ (Comment.bid y = bid /\ Comment.cid y = cid))).
      * rewrite filter_cons_True by assumption. simpl. lia.
      * rewrite filter_cons_False by assumption. simpl. lia.
    + rewrite (filter_cons_False (fun c0 => Comment.bid c0 = bid)) by exact Hy.
      rewrite filter_cons_False by tauto. exact IH.
  - specialize (IH Hc).
    destruct (decide (Comment.bid x = bid /\ Comment.cid x = cid)) as [Hx|Hx].
    + rewrite (filter_cons_False (fun c0 => ~ _)) by tauto.
      rewrite (filter_cons_True (fun c0 => Comment.bid c0 = bid)) by tauto.
      simpl length. lia.
    + rewrite (filter_cons_True (fun c0 => ~ _)) by exact Hx.
      destruct (decide (Comment.bid x = bid)) as [Hb|Hb].
      * rewrite !(filter_cons_True (fun c0 => Comment.bid c0 = bid)) by exact Hb.
        simpl length. lia.
      * rewrite !(filter_cons_False (fun c0 => Comment.bid c0 = bid)) by exact Hb.
        exact IH.
Qed.

(** alice comments on the bottle and then deletes her comment: the bottle
    is left with a counter of one and no comment. *)
Lemma deletion_leaves_the_counter :
  bottles (store (serve example_cfg healthy
                    [CommentOn alice false 0 1 (Some "nice");
                     DeleteComment alice 1 1] fresh_bottle).2)
  = [Bottle.mk 1 "" "bob" "g1" "c1" "Bob" "hello" 0 (Num 1) 100]
  /\ comments (store (serve example_cfg healthy
                        [CommentOn alice false 0 1 (Some "nice");
                         DeleteComment alice 1 1] fresh_bottle).2) = []
  /\ ~ counted_after example_cfg healthy
         [CommentOn alice false 0 1 (Some "nice"); DeleteComment alice 1 1]
         fresh_bottle.
Proof.
  split; [vm_compute; reflexivity|]. split; [vm_compute; reflexivity|].
  intros Hclaim.
  assert (counted (store (serve example_cfg healthy
                            [CommentOn alice false 0 1 (Some "nice");
                             DeleteComment alice 1 1] fresh_bottle).2)) as Hcounted.
  { apply Hclaim.
    - repeat constructor.
    - split; intros x Hx; simpl in Hx.
      + apply list_elem_of_singleton in Hx as ->. simpl. lia.
      + inversion Hx.
    - intros b Hb. simpl in Hb. apply list_elem_of_singleton in Hb as ->.
      reflexivity. }
  specialize (Hcounted (Bottle.mk 1 "" "bob" "g1" "c1" "Bob" "hello" 0 (Num 1) 100)).
  assert (Bottle.mk 1 "" "bob" "g1" "c1" "Bob" "hello" 0 (Num 1) 100
          ∈ bottles (store (serve example_cfg healthy
                              [CommentOn alice false 0 1 (Some "nice");
                               DeleteComment alice 1 1] fresh_bottle).2)) as Hin.
  { apply list_elem_of_lookup. exists 0%nat. vm_compute. reflexivity. }
  specialize (Hcounted Hin). vm_compute in Hcounted. discriminate.
Qed.

Lemma comment_without_preview_counts_two :
  bottles (store (comment_bottle no_preview healthy alice false 0 1 (Some "nice")
                    fresh_bottle).2)
  = [Bottle.mk 1 "" "bob" "g1" "c1" "Bob" "hello" 0 (Num 2) 100]
  /\ length (comments (store (comment_bottle no_preview healthy alice false 0 1
                                (Some "nice") fresh_bottle).2)) = 1%nat.
Proof. split; vm_compute; reflexivity. Qed.

Lemma comment_keeps_counted cfg env ses root rid id ct w :
  preview cfg = true ->
  (forall n, sleep_ok env n = true) ->
  well_formed (store w) ->
  counted (store w) ->
  well_formed (store (comment_bottle cfg env ses root rid id ct w).2)
  /\ counted (store (comment_bottle cfg env ses root rid id ct w).2).
Proof.
  intros Hpreview Hawake Hwf Hcounted.
  destruct (comment_bottle_outcome cfg env ses root rid id ct w Hwf Hpreview)
    as [_ [Hr|[(first & rest & row & Hfirst & Hbid & Hid & _ & Hposted & _)|[_ Hd]]]].
  - split; [eapply well_formed_restored | eapply counted_restored]; eassumption.
  - split; [eapply well_formed_posted | eapply counted_posted]; eassumption.
  - contradiction.
Qed.

(** C1 (as amended).  With previews on and a plugin that is not disposed
    while a comment is being posted, any sequence of comments, started in
    a store whose bottles carry the number of their comments, ends in such
    a store: a comment whose preview is sent adds the row and one to the
    counter, a comment that is rolled back adds neither.  The deletion of a
    comment does not touch the bottle table: where it removes rows, the
    counter stays and is then above the number of rows. *)
Theorem comment_count_follows_comments (cfg : Config) (env : Env)
    (rs : list Request) (w : World) :
  preview cfg = true ->
  (forall n, sleep_ok env n = true) ->
  Forall is_comment rs ->
  well_formed (store w) ->
  counted (store w) ->
  (OutOfFuel ∉ (serve cfg env rs w).1)
  /\ counted (store (serve cfg env rs w).2)
  /\ (forall ses bid cid w0,
        bottles (store (delete_comment cfg env ses bid cid w0).2)
        = bottles (store w0)
        /\ ((delete_comment cfg env ses bid cid w0).1 = CommentDeleted ->
            count_of (store (delete_comment cfg env ses bid cid w0).2) bid
            < count_of (store w0) bid)).
Proof.
  intros Hpreview Hawake Hrs Hwf Hcounted. split; [apply serve_ends|]. split.
  - revert w Hwf Hcounted. induction Hrs as [|r rs Hr Hrs IH]; intros w Hwf Hcounted.
    + exact Hcounted.
    + rewrite serve_cons. destruct r; try contradiction. simpl handle.
      destruct (comment_keeps_counted cfg env ses root rid id ct w
                  Hpreview Hawake Hwf Hcounted) as [Hwf' Hcounted'].
      apply IH; assumption.
  - intros ses bid cid w0.
    destruct (delete_comment_spec cfg env ses bid cid w0) as [Hb Hc].
    split; [exact Hb|]. intros Hdel. apply Hc, Hdel.
Qed.

Lemma comment_count_after_two_comments :
  counted (store (serve example_cfg healthy
                    [CommentOn alice false 0 1 (Some "nice");
                     CommentOn bob false 1 1 (Some "thanks")] fresh_bottle).2).
Proof.
  apply (comment_count_follows_comments example_cfg healthy
           [CommentOn alice false 0 1 (Some "nice");
            CommentOn bob false 1 1 (Some "thanks")] fresh_bottle).
  - reflexivity.
  - intros n. reflexivity.
  - repeat constructor.
  - split; intros x Hx; simpl in Hx.
    + apply list_elem_of_singleton in Hx as ->. simpl. lia.
    + inversion Hx.
  - intros b Hb. simpl in Hb. apply list_elem_of_singleton in Hb as ->.
    reflexivity.
Defined.

(** ** The numbers of the comments *)

Lemma grown_restored s s' id : restored s s' -> grown s s' id.
Proof.
  intros (Hb & Hc & Hbs & Hcs). unfold grown. rewrite Hb. auto.
Qed.

Lemma grown_appended s s' id row : appended s s' id row -> grown s s' id.
Proof.
  intros (Hb & Hbs & Hcs & Hc & Hid & Hbid & Hcid). unfold grown.
  rewrite Hb. split; [reflexivity|]. split; [exact Hbs|]. right. exists row. auto.
Qed.

Lemma comment_preview_grows cfg env ses id ct s row first rest w1 :
  appended s (store w1) id row ->
  get_bottle (fun b => Bottle.id b = id) s = first :: rest ->
  grown s (store (comment_preview cfg env ses id (Comment.cid row) ct w1).2) id.
Proof.
  intros Happ Hfirst. destruct (preview cfg) eqn:Hpreview.
  - destruct (comment_preview_spec cfg env ses id ct s row first rest w1
                Happ Hfirst Hpreview) as [_ [[Hp _]|[Hr|[Hs _]]]].
    + destruct Hp as (Hb & Hc & Hbs & Hcs).
      destruct Happ as (_ & _ & _ & _ & Hid & Hbid & Hcid).
      unfold grown. rewrite Hb. unfold bump. rewrite map_id_patched.
      split; [reflexivity|]. split; [exact Hbs|]. right. exists row. auto.
    + apply grown_restored, Hr.
    + rewrite Hs. eapply grown_appended, Happ.
  - unfold comment_preview. rewrite Hpreview. rewrite bind_run.
    destruct (send_ok env (clock w1)) eqn:Hok.
    + rewrite sendMessage_delivers by exact Hok. cbn [fst snd].
      rewrite !bind_run. cbn.
      destruct Happ as (Hb & Hbs & Hcs & Hc & Hid & Hbid & Hcid).
      unfold grown. simpl. rewrite map_id_patched, Hb.
      split; [reflexivity|]. split; [exact Hbs|]. right. exists row. auto.
    + rewrite sendMessage_throws by exact Hok. cbn.
      eapply grown_appended, Happ.
Qed.

(** Whatever the configuration and the environment, a comment leaves the
    comment table as it was or with its own row appended. *)
Lemma comment_bottle_grows cfg env ses root rid id ct w :
  well_formed (store w) ->
  grown (store w) (store (comment_bottle cfg env ses root rid id ct w).2) id.
Proof.
  intros Hwf.
  destruct (comment_bottle_cases cfg env ses root rid id ct w Hwf)
    as [(a & w' & -> & _ & [Hr|[[row Happ] _]])
       |(first & rest & row & text & w2 & Hfirst & Happ & ->)].
  - apply grown_restored, Hr.
  - eapply grown_appended, Happ.
  - eapply comment_preview_grows; eassumption.
Qed.

Lemma well_formed_grown s s' id : grown s s' id -> well_formed s -> well_formed s'.
Proof.
  intros (Hb & Hbs & Hc) [H1 H2]. split.
  - intros b Hin. rewrite Hbs.
    assert (Bottle.id b ∈ map Bottle.id (bottles s)) as Hid
      by (rewrite <- Hb; apply list_elem_of_fmap; eauto).
    apply list_elem_of_fmap in Hid as (b0 & -> & Hb0). apply H1, Hb0.
  - intros c Hin. destruct Hc as [[Hc Hcs]|(row & Hc & _ & _ & Hid & Hcs)].
    + rewrite Hc in Hin. specialize (H2 c Hin). lia.
    + rewrite Hc in Hin. apply elem_of_app in Hin as [Hin|Hin].
      * specialize (H2 c Hin). lia.
      * apply list_elem_of_singleton in Hin as ->. lia.
Qed.

(** Two comments, then the first is deleted: what is left is number 2. *)
Lemma deletion_leaves_a_gap :
  cids_of (store (serve example_cfg healthy
                    [CommentOn alice false 0 1 (Some "one");
                     CommentOn alice false 0 1 (Some "two");
                     DeleteComment alice 1 1] fresh_bottle).2) 1 = [2]
  /\ ~ dense_after example_cfg healthy
         [CommentOn alice false 0 1 (Some "one");
          CommentOn alice false 0 1 (Some "two");
          DeleteComment alice 1 1] fresh_bottle.
Proof.
  split; [vm_compute; reflexivity|].
  intros Hclaim.
  assert (dense (store (serve example_cfg healthy
                          [CommentOn alice false 0 1 (Some "one");
                           CommentOn alice false 0 1 (Some "two");
                           DeleteComment alice 1 1] fresh_bottle).2)) as Hdense.
  { apply Hclaim.
    - repeat constructor.
    - split; intros x Hx; simpl in Hx.
      + apply list_elem_of_singleton in Hx as ->. simpl. lia.
      + inversion Hx.
    - intros bid. reflexivity. }
  specialize (Hdense 1). vm_compute in Hdense.
  apply Permutation_singleton_r in Hdense. discriminate.
Qed.

Lemma dense_grown s s' id : grown s s' id -> dense s -> dense s'.
Proof.
  intros (_ & _ & [[Hc _]|(row & Hc & Hbid & Hcid & _)]) Hdense bid.
  - unfold cids_of, count_of, comments_of. rewrite Hc. apply Hdense.
  - specialize (Hdense bid). unfold cids_of, count_of, comments_of in *.
    rewrite Hc, filter_app.
    destruct (decide (bid = id)) as [->|Hne].
    + rewrite filter_cons_True by exact Hbid. rewrite filter_nil.
      rewrite map_app, length_app. simpl.
      set (data := filter (fun c => Comment.bid c = id) (comments s)) in *.
      assert (Comment.cid row = Z.of_nat (length data) + 1) as ->.
      { rewrite Hcid. unfold comments_of. fold data.
        destruct (next_cid_is_max_plus_1 data) as [[Hnil ->]|(c & Hin & -> & Hmax)].
        - rewrite Hnil. reflexivity.
        - f_equal.
          assert (Comment.cid c ∈ seqZ 1 (Z.of_nat (length data))) as Hc1.
          { rewrite <- Hdense. apply list_elem_of_fmap. eauto. }
          apply elem_of_seqZ in Hc1.
          assert (Z.of_nat (length data) ∈ map Comment.cid data) as Hn.
          { rewrite Hdense. apply elem_of_seqZ.
            destruct data; [inversion Hin | simpl length; lia]. }
          apply list_elem_of_fmap in Hn as (c' & Hc' & Hin').
          specialize (Hmax c' Hin'). lia. }
      rewrite Hdense.
      replace (Z.of_nat (length data + 1)) with (Z.of_nat (length data) + 1) by lia.
      rewrite seqZ_app by lia. simpl.
      replace (1 + Z.of_nat (length data)) with (Z.of_nat (length data) + 1) by lia.
      reflexivity.
    + rewrite filter_cons_False by congruence. rewrite filter_nil, app_nil_r.
      exact Hdense.
Qed.

(** C2 (as amended).  A comment that is inserted gets the next [cid] of its
    bottle: [1] when the bottle has no comment, and otherwise one more
    than the greatest [cid] among its comments.  Under comments alone,
    whatever the configuration and whatever the transport does, the
    [cid]s of every bottle stay the numbers from [1] to the number of its
    comments.  (A deletion takes a number out and nothing renumbers the
    rest.) *)
Theorem cids_follow_comments (cfg : Config) (env : Env) :
  (forall ses root rid id ct w,
     well_formed (store w) ->
     forall c, c ∈ comments (store (comment_bottle cfg env ses root rid id ct w).2) ->
               c ∈ comments (store w)
               \/ (Comment.bid c = id
                   /\ Comment.cid c = next_cid (comments_of (store w) id)))
  /\ (forall data,
        (data = [] /\ next_cid data = 1)
        \/ (exists c, c ∈ data /\ next_cid data = Comment.cid c + 1
                      /\ forall c', c' ∈ data -> Comment.cid c' <= Comment.cid c))
  /\ (forall rs w,
        Forall is_comment rs ->
        well_formed (store w) ->
        dense (store w) ->
        (OutOfFuel ∉ (serve cfg env rs w).1)
        /\ dense (store (serve cfg env rs w).2)).
Proof.
  split; [|split].
  - intros ses root rid id ct w Hwf c Hc.
    destruct (comment_bottle_grows cfg env ses root rid id ct w Hwf)
      as (_ & _ & [[Hsame _]|(row & Hrow & Hbid & Hcid & _)]).
    + left. rewrite <- Hsame. exact Hc.
    + rewrite Hrow in Hc. apply elem_of_app in Hc as [Hc|Hc]; [left; exact Hc|].
      apply list_elem_of_singleton in Hc as ->. right. auto.
  - apply next_cid_is_max_plus_1.
  - intros rs w Hrs Hwf Hdense. split; [apply serve_ends|].
    revert w Hwf Hdense.
    induction Hrs as [|r rs Hr Hrs IH]; intros w Hwf Hdense; [exact Hdense|].
    rewrite serve_cons. destruct r; try contradiction. simpl handle.
    pose proof (comment_bottle_grows cfg env ses root rid id ct w Hwf) as Hgrown.
    apply IH.
    + eapply well_formed_grown; eassumption.
    + eapply dense_grown; eassumption.
Qed.

Lemma cids_after_two_comments :
  dense (store (serve no_preview broken
                  [CommentOn alice false 0 1 (Some "one");
                   CommentOn bob false 0 1 (Some "two")] fresh_bottle).2).
Proof.
  destruct (cids_follow_comments no_preview broken) as (_ & _ & Hdense).
  apply Hdense.
  - repeat constructor.
  - split; intros x Hx; simpl in Hx.
    + apply list_elem_of_singleton in Hx as ->. simpl. lia.
    + inversion Hx.
  - intros bid. reflexivity.
Defined.

(** ** What the deletions take with them *)

Lemma without_nil w : without [] w = w.
Proof.
  unfold without. destruct w as [s fs m c o]; cbn. f_equal.
  apply difference_empty_L.
Qed.

Lemma without_cons f fs w :
  without fs (without [f] w) = without (f :: fs) w.
Proof.
  unfold without. cbn [store files bottleMap clock outbox]. f_equal.
  rewrite list_to_set_cons. cbn [list_to_set].
  rewrite (right_id_L ∅ (∪)). apply difference_difference_l_L.
Qed.

Lemma unlinkSync_run src w :
  unlinkSync src w = if decide (src ∈ files w) then (true, without [src] w)
                     else (false, w).
Proof.
  unfold unlinkSync, without. destruct (decide (src ∈ files w)); [|reflexivity].
  cbn [list_to_set]. rewrite (right_id_L ∅ (∪)). reflexivity.
Qed.

Lemma for_each_app {A} (xs ys : list A) (body : A -> M bool) w :
  for_each (xs ++ ys) body w
  = (let* done := for_each xs body in
     if done then for_each ys body else ret false) w.
Proof.
  revert w. induction xs as [|x xs IH]; intros w; cbn [app for_each].
  - reflexivity.
  - rewrite !bind_run. destruct ((body x w).1); [|reflexivity].
    rewrite IH, bind_run. reflexivity.
Qed.

(** The condition of [unlinkable] on the elements of a content. *)
Definition loose (es : list Element) (fs : gset string) : Prop :=
  Forall (fun e => is_media e -> el_src e <> None) es
  /\ NoDup (omap local_asset es)
  /\ Forall (fun f => f ∈ fs) (omap local_asset es).

#[global] Instance loose_dec es fs : Decision (loose es fs).
Proof. unfold loose. apply _. Defined.

Lemma loose_cons e es fs :
  loose (e :: es) fs
  <-> (is_media e -> el_src e <> None)
      /\ match local_asset e with
         | Some f => f ∈ fs /\ loose es (fs ∖ {[f]})
         | None => loose es fs
         end.
Proof.
  unfold loose. rewrite Forall_cons. cbn [omap list_omap].
  destruct (local_asset e) as [f|].
  - rewrite NoDup_cons, Forall_cons.
    assert (Forall (fun g => g ∈ fs ∖ {[f]}) (omap local_asset es)
            <-> (f ∉ omap local_asset es)
                /\ Forall (fun g => g ∈ fs) (omap local_asset es)) as ->.
    { rewrite !Forall_forall. split.
      - intros Hall. split.
        + intros Hin. specialize (Hall f Hin).
          apply elem_of_difference in Hall as [_ Hout].
          apply Hout, elem_of_singleton. reflexivity.
        + intros g Hg. specialize (Hall g Hg).
          apply elem_of_difference in Hall as [Hin _]. exact Hin.
      - intros [Hf Hall] g Hg. specialize (Hall g Hg).
        apply elem_of_difference. split; [exact Hall|].
        rewrite elem_of_singleton. intros ->. exact (Hf Hg). }
    tauto.
  - tauto.
Qed.

(** The loop over the elements gets through exactly when they are loose,
    and then the local files are gone; in any case it unlinks files and
    does nothing else. *)
Lemma unlink_elements_run (es : list Element) (w : World) :
  for_each es unlink_element w
  = if decide (loose es (files w)) then (true, without (omap local_asset es) w)
    else (false, (for_each es unlink_element w).2).
Proof.
  revert w. induction es as [|e es IH]; intros w.
  - cbn [for_each omap list_omap]. rewrite without_nil.
    rewrite decide_True; [reflexivity|].
    repeat split; constructor.
  - cbn [for_each]. rewrite bind_run.
    pose proof (loose_cons e es (files w)) as Hcons.
    unfold unlink_element, local_asset in *. cbn [omap list_omap].
    destruct (decide (is_media e)) as [Hmedia|Hmedia].
    + destruct (el_src e) as [src|] eqn:Hsrc.
      * destruct (startsWith "file" src).
        -- rewrite unlinkSync_run.
           destruct (decide (src ∈ files w)) as [Hin|Hout]; cbn [fst snd].
           ++ rewrite IH. cbn [without files].
              assert (files w ∖ list_to_set [src] = files w ∖ {[src]}) as ->.
              { cbn [list_to_set]. rewrite (right_id_L ∅ (∪)). reflexivity. }
              destruct (decide (loose es (files w ∖ {[src]}))) as [Hes|Hes].
              ** rewrite decide_True by (apply Hcons; split; [congruence|tauto]).
                 rewrite without_cons. reflexivity.
              ** rewrite decide_False by (rewrite Hcons; tauto). reflexivity.
           ++ rewrite decide_False by (rewrite Hcons; tauto). reflexivity.
        -- cbn [ret fst snd]. rewrite IH.
           destruct (decide (loose es (files w))) as [Hes|Hes].
           ++ rewrite decide_True by (apply Hcons; split; [congruence|tauto]).
              reflexivity.
           ++ rewrite decide_False by (rewrite Hcons; tauto). reflexivity.
      * cbn [ret fst snd]. rewrite decide_False; [reflexivity|].
        rewrite Hcons. intros [Hno _]. apply Hno; [exact Hmedia | reflexivity].
    + cbn [ret fst snd]. rewrite IH.
      destruct (decide (loose es (files w))) as [Hes|Hes].
      * rewrite decide_True by (apply Hcons; split; [tauto|tauto]). reflexivity.
      * rewrite decide_False by (rewrite Hcons; tauto). reflexivity.
Qed.

(** The loops over several contents are one loop over their elements. *)
Lemma unlink_contents_elements env (contents : list string) (w : World) :
  for_each contents (unlink_assets env) w
  = for_each (mjoin (map (h_parse env) contents)) unlink_element w.
Proof.
  revert w. induction contents as [|c cs IH]; intros w; [reflexivity|].
  cbn [for_each map mjoin list_join]. rewrite for_each_app, !bind_run.
  unfold unlink_assets at 1 2.
  destruct ((for_each (h_parse env c) unlink_element w).1); [apply IH | reflexivity].
Qed.

Lemma omap_join {A B} (f : A -> option B) (xss : list (list A)) :
  omap f (mjoin xss) = mjoin (map (omap f) xss).
Proof.
  induction xss as [|xs xss IH]; [reflexivity|].
  change (mjoin (xs :: xss)) with (xs ++ mjoin xss).
  rewrite omap_app, IH. reflexivity.
Qed.

Lemma loose_unlinkable env contents fs :
  loose (mjoin (map (h_parse env) contents)) fs <-> unlinkable env contents fs.
Proof.
  unfold loose, unlinkable. rewrite omap_join, map_map.
  assert (Forall (fun e => is_media e -> el_src e <> None)
                 (mjoin (map (h_parse env) contents))
          <-> Forall (sourced env) contents) as ->; [|reflexivity].
  unfold sourced. induction contents as [|c cs IH].
  - split; constructor.
  - cbn [map mjoin list_join]. rewrite Forall_app, Forall_cons, IH. reflexivity.
Qed.

(** The loops of a deletion over some contents get through exactly when
    the contents are unlinkable, and then their local files are gone. *)
Lemma unlink_contents_run env (contents : list string) (w : World) :
  for_each contents (unlink_assets env) w
  = if decide (unlinkable env contents (files w))
    then (true, without (mjoin (map (local_assets env) contents)) w)
    else (false, (for_each contents (unlink_assets env) w).2).
Proof.
  rewrite unlink_contents_elements, unlink_elements_run.
  pose proof (loose_unlinkable env contents (files w)) as Hiff.
  destruct (decide (loose _ (files w))) as [H|H].
  - rewrite decide_True by (apply Hiff, H).
    rewrite omap_join, map_map. reflexivity.
  - rewrite decide_False by (rewrite <- Hiff; exact H). reflexivity.
Qed.

Lemma unlink_assets_run env content (w : World) :
  unlink_assets env content w
  = if decide (unlinkable env [content] (files w))
    then (true, without (local_assets env content) w)
    else (false, (unlink_assets env content w).2).
Proof.
  unfold unlink_assets. rewrite unlink_elements_run.
  pose proof (loose_unlinkable env [content] (files w)) as Hiff.
  change (mjoin (map (h_parse env) [content])) with (h_parse env content ++ [])
    in Hiff.
  rewrite app_nil_r in Hiff.
  destruct (decide (loose _ (files w))) as [H|H].
  - rewrite decide_True by (apply Hiff, H). reflexivity.
  - rewrite decide_False by (rewrite <- Hiff; exact H). reflexivity.
Qed.

Lemma unlink_comments_run env (cs : list Comment.t) (w : World) :
  for_each cs (fun c => unlink_assets env (Comment.content c)) w
  = for_each (map Comment.content cs) (unlink_assets env) w.
Proof.
  revert w. induction cs as [|c cs IH]; intros w; [reflexivity|].
  cbn [for_each map]. rewrite !bind_run.
  destruct ((unlink_assets env (Comment.content c) w).1); [apply IH | reflexivity].
Qed.

Lemma unlinkable_cons env content contents fs :
  unlinkable env (content :: contents) fs
  <-> unlinkable env [content] fs
      /\ unlinkable env contents (fs ∖ list_to_set (local_assets env content)).
Proof.
  unfold unlinkable. cbn [map mjoin list_join]. rewrite app_nil_r.
  rewrite Forall_cons, NoDup_app, Forall_app, !Forall_forall.
  split.
  - intros ((Hc & Hcs) & (Hnd1 & Hdisj & Hnd2) & Hin1 & Hin2).
    repeat split; try assumption.
    + intros x Hx. apply list_elem_of_singleton in Hx as ->. exact Hc.
    + intros f Hf. apply elem_of_difference. split; [apply Hin2, Hf|].
      rewrite elem_of_list_to_set. intros Hf1. exact (Hdisj f Hf1 Hf).
  - intros ((Hc & Hnd1 & Hin1) & (Hcs & Hnd2 & Hin2)).
    repeat split; try assumption.
    + apply Hc. left.
    + intros f Hf1 Hf. specialize (Hin2 f Hf).
      apply elem_of_difference in Hin2 as [_ Hout].
      apply Hout, elem_of_list_to_set, Hf1.
    + intros f Hf. specialize (Hin2 f Hf).
      apply elem_of_difference in Hin2 as [Hin _]. exact Hin.
Qed.

(** Between two worlds, files were unlinked and nothing else happened. *)
Definition only_unlinked (w w' : World) : Prop :=
  store w' = store w /\ bottleMap w' = bottleMap w /\ clock w' = clock w
  /\ outbox w' = outbox w /\ files w' ⊆ files w.

Lemma only_unlinked_refl w : only_unlinked w w.
Proof. repeat split; reflexivity. Qed.

Lemma only_unlinked_trans w1 w2 w3 :
  only_unlinked w1 w2 -> only_unlinked w2 w3 -> only_unlinked w1 w3.
Proof.
  intros (Hs & Hm & Hc & Ho & Hf) (Hs' & Hm' & Hc' & Ho' & Hf').
  split; [congruence|]. split; [congruence|]. split; [congruence|].
  split; [congruence|]. etransitivity; eassumption.
Qed.

Lemma only_unlinked_without fs w : only_unlinked w (without fs w).
Proof.
  split; [reflexivity|]. split; [reflexivity|]. split; [reflexivity|].
  split; [reflexivity|]. cbn. apply subseteq_difference_l. reflexivity.
Qed.

Lemma unlink_elements_frame (es : list Element) (w : World) :
  only_unlinked w (for_each es unlink_element w).2.
Proof.
  revert w. induction es as [|e es IH]; intros w; [apply only_unlinked_refl|].
  cbn [for_each]. rewrite bind_run.
  assert (only_unlinked w (unlink_element e w).2) as He.
  { unfold unlink_element. destruct (decide (is_media e)); [|apply only_unlinked_refl].
    destruct (el_src e) as [src|]; [|apply only_unlinked_refl].
    destruct (startsWith "file" src); [|apply only_unlinked_refl].
    rewrite unlinkSync_run. destruct (decide (src ∈ files w));
      [apply only_unlinked_without | apply only_unlinked_refl]. }
  destruct ((unlink_element e w).1); [|exact He].
  eapply only_unlinked_trans; [exact He | apply IH].
Qed.

Lemma unlink_contents_frame env (contents : list string) (w : World) :
  only_unlinked w (for_each contents (unlink_assets env) w).2.
Proof. rewrite unlink_contents_elements. apply unlink_elements_frame. Qed.

Lemma unlink_assets_frame env (content : string) (w : World) :
  only_unlinked w (unlink_assets env content w).2.
Proof. apply unlink_elements_frame. Qed.

(** The explicit deletion, step by step, when the caller may delete the
    bottle. *)
Lemma delete_bottle_steps cfg env ses id w first rest :
  get_bottle (fun b => Bottle.id b = id) (store w) = first :: rest ->
  is_manager cfg (userId ses) \/ userId ses = Bottle.uid first ->
  let cs := map Comment.content
              (get_comment (fun c => Comment.bid c = id) (store w)) in
  let w1 := without (local_assets env (Bottle.content first)) w in
  delete_bottle cfg env ses id w
  = if decide (unlinkable env [Bottle.content first] (files w)) then
      if decide (unlinkable env cs (files w1)) then
        (BottleDeleted,
         mkWorld
           (remove_comment (fun c => Comment.bid c = id)
              (remove_bottle (fun b => Bottle.id b = id) (store w)))
           (files w ∖ list_to_set
                        (mjoin (map (local_assets env) (Bottle.content first :: cs))))
           (bottleMap w) (clock w) (outbox w))
      else (Uncaught, (for_each cs (unlink_assets env) w1).2)
    else (Uncaught, (unlink_assets env (Bottle.content first) w).2).
Proof.
  intros Hfirst Hmay cs w1. unfold delete_bottle.
  rewrite bind_run, read_store_run. cbn [fst snd]. rewrite Hfirst.
  assert (bool_decide (~ is_manager cfg (userId ses))
          && bool_decide (userId ses <> Bottle.uid first) = false) as ->.
  { destruct Hmay as [Hm|Ho].
    - rewrite (bool_decide_eq_false_2 (~ _)) by tauto. reflexivity.
    - rewrite (bool_decide_eq_false_2 (_ <> _)) by tauto.
      apply andb_false_r. }
  rewrite bind_run, unlink_assets_run.
  destruct (decide (unlinkable env [Bottle.content first] (files w))) as [H1|H1];
    cbn [fst snd negb ret]; [|reflexivity].
  fold w1. rewrite bind_run, read_store_run. cbn [fst snd].
  change (store w1) with (store w). fold cs.
  rewrite bind_run, unlink_comments_run. fold cs. rewrite unlink_contents_run.
  destruct (decide (unlinkable env cs (files w1))) as [H2|H2];
    cbn [fst snd negb ret]; [|reflexivity].
  rewrite !bind_run. cbn [with_store ret fst snd without store files bottleMap
                            clock outbox w1].
  f_equal. f_equal.
  change (mjoin (map (local_assets env) (Bottle.content first :: cs)))
    with (local_assets env (Bottle.content first)
          ++ mjoin (map (local_assets env) cs)).
  rewrite list_to_set_app_L. unfold w1. cbn [without files].
  apply difference_difference_l_L.
Qed.

(** What the explicit deletion does when the caller may delete the
    bottle: with unlinkable contents the rows of the bottle, its comments
    and the local files are gone; otherwise an exception ends it, the
    tables are as they were, and files may have been unlinked. *)
Lemma delete_bottle_permitted cfg env ses id w first rest :
  get_bottle (fun b => Bottle.id b = id) (store w) = first :: rest ->
  is_manager cfg (userId ses) \/ userId ses = Bottle.uid first ->
  let r := delete_bottle cfg env ses id w in
  (unlinkable env (contents_of (store w) id) (files w) ->
   r = (BottleDeleted,
        mkWorld
          (remove_comment (fun c => Comment.bid c = id)
             (remove_bottle (fun b => Bottle.id b = id) (store w)))
          (files w ∖ list_to_set
                       (mjoin (map (local_assets env) (contents_of (store w) id))))
          (bottleMap w) (clock w) (outbox w)))
  /\ (~ unlinkable env (contents_of (store w) id) (files w) ->
      r.1 = Uncaught /\ only_unlinked w r.2).
Proof.
  intros Hfirst Hmay r. subst r.
  rewrite (delete_bottle_steps cfg env ses id w first rest Hfirst Hmay).
  unfold contents_of. rewrite Hfirst.
  set (cs := map Comment.content _).
  pose proof (unlinkable_cons env (Bottle.content first) cs (files w)) as Hcons.
  change (files w ∖ list_to_set (local_assets env (Bottle.content first)))
    with (files (without (local_assets env (Bottle.content first)) w)) in Hcons.
  destruct (decide (unlinkable env [Bottle.content first] (files w))) as [H1|H1];
    [destruct (decide (unlinkable env cs _)) as [H2|H2]|].
  - split; [reflexivity | tauto].
  - split; [tauto|]. intros _. split; [reflexivity|]. cbn [snd].
    eapply only_unlinked_trans;
      [apply only_unlinked_without | apply unlink_contents_frame].
  - split; [tauto|]. intros _. split; [reflexivity|].
    apply unlink_assets_frame.
Qed.

(** The explicit deletion, for the owner or a manager, of a bottle whose
    contents are unlinkable: the bottle, its comments, and the local files
    that the bottle or one of its comments refers to are gone. *)
Lemma delete_bottle_cascades cfg env ses id w first rest :
  get_bottle (fun b => Bottle.id b = id) (store w) = first :: rest ->
  is_manager cfg (userId ses) \/ userId ses = Bottle.uid first ->
  unlinkable env (contents_of (store w) id) (files w) ->
  (delete_bottle cfg env ses id w).1 = BottleDeleted
  /\ (forall b, b ∈ bottles (store (delete_bottle cfg env ses id w).2) ->
                Bottle.id b <> id)
  /\ (forall c, c ∈ comments (store (delete_bottle cfg env ses id w).2) ->
                Comment.bid c <> id)
  /\ (forall f, f ∈ local_assets env (Bottle.content first) ->
                f ∉ files (delete_bottle cfg env ses id w).2)
  /\ (forall c f, c ∈ comments (store w) -> Comment.bid c = id ->
                  f ∈ local_assets env (Comment.content c) ->
                  f ∉ files (delete_bottle cfg env ses id w).2).
Proof.
  intros Hfirst Hmay Hloose.
  destruct (delete_bottle_permitted cfg env ses id w first rest Hfirst Hmay)
    as [Hrun _].
  rewrite (Hrun Hloose).
  unfold contents_of. rewrite Hfirst.
  cbn. split; [reflexivity|]. split; [|split; [|split]].
  - intros b Hb. apply list_elem_of_filter in Hb. tauto.
  - intros c Hc. apply list_elem_of_filter in Hc. tauto.
  - intros f Hf Hin. apply elem_of_difference in Hin as [_ Hout].
    apply Hout, elem_of_list_to_set, elem_of_app. left. exact Hf.
  - intros c f Hc Hbid Hf Hfiles.
    apply elem_of_difference in Hfiles as [_ Hout].
    apply Hout, elem_of_list_to_set, elem_of_app. right.
    apply (list_elem_of_join f). exists (local_assets env (Comment.content c)).
    split; [exact Hf|]. rewrite map_map. apply list_elem_of_fmap. exists c.
    split; [reflexivity|]. unfold get_comment. apply list_elem_of_filter. auto.
Qed.

(** The sweep unlinks nothing, whoever asks and whatever it removes. *)
Lemma delete_expired_keeps_files cfg ses days w :
  files (delete_expired cfg ses days w).2 = files w.
Proof.
  unfold delete_expired.
  destruct days as [deleteDays|]; [|reflexivity].
  destruct (decide (deleteDays = 0)); [reflexivity|].
  destruct (decide (is_manager cfg (userId ses))); [|reflexivity].
  rewrite bind_run. unfold read_store. cbn [fst snd].
  destruct (decide _); reflexivity.
Qed.

Lemma reads_audit_bottles cfg env ses rows :
  forall brokenBottle, reads (audit_bottles cfg env ses rows brokenBottle).
Proof.
  induction rows as [|b rows IH]; intros brokenBottle; cbn [audit_bottles].
  - apply reads_ret.
  - apply reads_bind.
    + apply reads_retrying; [unfold audit_send; reads_auto | apply reads_session_send].
    + intros [[|]| | |]; try apply IH; apply reads_ret.
Qed.

(** The purge of the audit removes no comment, whatever it is asked and
    whatever the transport does. *)
Lemma delete_invalid_bottles_keeps_comments cfg env ses start end_ :
  keeps_comments (delete_invalid_bottles cfg env ses start end_).
Proof.
  unfold delete_invalid_bottles.
  repeat match goal with
         | |- keeps_comments (if ?c then _ else _) => destruct c
         | |- keeps_comments (match ?x with _ => _ end) => destruct x
         | |- keeps_comments (bind _ _) => apply keeps_comments_bind; [| intros ?]
         | |- keeps_comments (with_store (remove_bottle _)) =>
             apply keeps_comments_remove_bottle
         | |- keeps_comments _ =>
             apply keeps_comments_reads;
             solve [eauto with reads | apply reads_audit_bottles]
         end.
Qed.

(** C5 (a defect of the code).  The purge of the audit removes the bottle
    and nothing else: the comment of the bottle is left in the comment
    table with no bottle to belong to, and the asset file is left on disk.
    The expiry sweep removes the bottle and its comment, and leaves the
    file on disk as well.  The explicit deletion does all three. *)
Theorem purge_and_sweep_leave_remains :
  (let w := (delete_invalid_bottles example_cfg confirming admin None None
               one_bottle) in
   w.1 = UnsendableDeleted
   /\ bottles (store w.2) = []
   /\ comments (store w.2) = comments (store one_bottle)
   /\ files w.2 = files one_bottle)
  /\ (let w := delete_expired example_cfg admin (Some 5) one_bottle in
      w.1 = ExpiredDeleted
      /\ bottles (store w.2) = []
      /\ comments (store w.2) = []
      /\ files w.2 = files one_bottle)
  /\ (let w := delete_bottle example_cfg healthy admin 1 one_bottle in
      w.1 = BottleDeleted
      /\ bottles (store w.2) = []
      /\ comments (store w.2) = []
      /\ files w.2 = ∅).
Proof.
  repeat split; vm_compute; reflexivity.
Qed.

(** ** The expiry sweep *)

(** Ten days later a sweep of five days finds the second bottle expired,
    and with it removes the comment that was left behind, a comment of no
    bottle that the sweep deletes. *)
Lemma sweep_deletes_a_comment_of_no_swept_bottle :
  map Bottle.id (bottles (store after_purge)) = [2]
  /\ map Comment.bid (comments (store after_purge)) = [1]
  /\ ~ swept_as_specified 10 5 (store after_purge)
         (store (delete_expired example_cfg (on_day 10 admin) (Some 5)
                   after_purge).2).
Proof.
  split; [vm_compute; reflexivity|]. split; [vm_compute; reflexivity|].
  intros [_ Hcomments].
  assert (exists c, comments (store after_purge) = [c] /\ Comment.bid c = 1)
    as (c & Hc & Hbid) by (eexists; split; vm_compute; reflexivity).
  assert (c ∈ comments (store (delete_expired example_cfg (on_day 10 admin)
                                 (Some 5) after_purge).2)) as Hin.
  { apply Hcomments. split.
    - rewrite Hc. apply list_elem_of_here.
    - intros (b & Hb & _ & Hid).
      assert (Bottle.id b ∈ map Bottle.id (bottles (store after_purge))) as Hids
        by (apply list_elem_of_fmap; eauto).
      replace (map Bottle.id (bottles (store after_purge))) with [2] in Hids
        by (vm_compute; reflexivity).
      apply list_elem_of_singleton in Hids. congruence. }
  vm_compute in Hin. inversion Hin.
Qed.

(** C4 (as amended).  A sweep of [N] days run by a manager removes exactly
    the bottles older than [N] days by the day numbers, so a bottle of age
    [N] stays.  When there is such a bottle, it removes exactly the
    comments that belong to one of them or are themselves older than [N]
    days; when there is none, it removes nothing.  In a store where every
    comment belongs to a bottle of the table that is no younger than the
    comment, this is what the specification says: the comments that go are
    those of the bottles that go. *)
Theorem sweep_deletes_by_age (cfg : Config) (ses : Session) (N : Z) (w : World) :
  is_manager cfg (userId ses) ->
  N <> 0 ->
  let s := store w in
  let s' := store (delete_expired cfg ses (Some N) w).2 in
  let swept := exists b, b ∈ bottles s /\ older_than (today ses) N (Bottle.time b) in
  (forall b, b ∈ bottles s' <->
             b ∈ bottles s /\ ~ older_than (today ses) N (Bottle.time b))
  /\ (forall c, c ∈ comments s' <->
        c ∈ comments s
        /\ ~ (swept
              /\ (older_than (today ses) N (Comment.time c)
                  \/ exists b, b ∈ bottles s
                               /\ older_than (today ses) N (Bottle.time b)
                               /\ Comment.bid c = Bottle.id b)))
  /\ ((forall c, c ∈ comments s ->
         exists b, b ∈ bottles s /\ Bottle.id b = Comment.bid c
                   /\ Bottle.time b <= Comment.time c) ->
      swept_as_specified (today ses) N s s').
Proof.
  intros Hmanager HN s s' swept.
  assert (forall t, t < today ses - N <-> older_than (today ses) N t) as Hold
    by (intros t; unfold older_than; lia).
  assert (forall id, id ∈ map Bottle.id
                       (get_bottle (fun b => Bottle.time b < today ses - N) s)
                     <-> exists b, b ∈ bottles s
                                   /\ older_than (today ses) N (Bottle.time b)
                                   /\ id = Bottle.id b) as Hids.
  { intros id. rewrite list_elem_of_fmap. unfold get_bottle. split.
    - intros (b & -> & Hb). apply list_elem_of_filter in Hb as [Hb1 Hb2].
      exists b. rewrite <- Hold. auto.
    - intros (b & Hb1 & Hb2 & ->). exists b. split; [reflexivity|].
      apply list_elem_of_filter. rewrite Hold. auto. }
  set (old := get_bottle (fun b => Bottle.time b < today ses - N) s) in *.
  assert ((length old < 1)%nat <-> ~ swept) as Hnone.
  { split.
    - intros Hlen (b & Hb1 & Hb2).
      assert (Bottle.id b ∈ map Bottle.id old) as Hin by (apply Hids; eauto).
      destruct old; [inversion Hin | simpl in Hlen; lia].
    - intros Hnot.
      destruct old as [|b l] eqn:Hget; [simpl; lia|].
      exfalso. apply Hnot.
      assert (b ∈ old) as Hb by (rewrite Hget; apply list_elem_of_here).
      unfold old, get_bottle in Hb. apply list_elem_of_filter in Hb as [Hb1 Hb2].
      exists b. rewrite <- Hold. auto. }
  assert ((forall b, b ∈ bottles s' <->
             b ∈ bottles s /\ ~ older_than (today ses) N (Bottle.time b))
          /\ (forall c, c ∈ comments s' <->
                c ∈ comments s
                /\ ~ (swept
                      /\ (older_than (today ses) N (Comment.time c)
                          \/ exists b, b ∈ bottles s
                               /\ older_than (today ses) N (Bottle.time b)
                               /\ Comment.bid c = Bottle.id b))))
    as [Hbottles Hcomments].
  { subst s'. unfold delete_expired.
    rewrite decide_False by exact HN. rewrite decide_True by exact Hmanager.
    rewrite bind_run. unfold read_store at 1. simpl.
    fold s. fold old. destruct (decide (length old < 1)%nat) as [Hlen|Hlen]; simpl.
    - apply Hnone in Hlen. split.
      + intros b. split; [|tauto]. intros Hb. split; [exact Hb|].
        intros Hb'. apply Hlen. exists b. auto.
      + intros c. split; [|tauto]. intros Hc. split; [exact Hc|]. tauto.
    - assert (swept) as Hswept.
      { destruct old as [|b l] eqn:Hget; [simpl in Hlen; lia|].
        assert (b ∈ old) as Hb by (rewrite Hget; apply list_elem_of_here).
        unfold old, get_bottle in Hb. apply list_elem_of_filter in Hb as [Hb1 Hb2].
        exists b. rewrite <- Hold. auto. }
      split.
      + intros b. rewrite list_elem_of_filter, Hold. tauto.
      + intros c. rewrite !list_elem_of_filter, Hold, Hids. fold s. tauto. }
  split; [exact Hbottles|]. split; [exact Hcomments|].
  intros Hbelongs. split; [exact Hbottles|].
  intros c. rewrite Hcomments. split.
  - intros [Hc Hkeep]. split; [exact Hc|].
    intros (b & Hb1 & Hb2 & Hb3). apply Hkeep. split; [exists b; auto|].
    right. exists b. auto.
  - intros [Hc Hkeep]. split; [exact Hc|].
    intros [_ [Hage|Hbottle]]; [|contradiction].
    destruct (Hbelongs c Hc) as (b & Hb1 & Hb2 & Hb3).
    apply Hkeep. exists b. split; [exact Hb1|]. split; [|congruence].
    unfold older_than in *. lia.
Qed.

Lemma sweep_deletes_by_age_on_one_bottle :
  swept_as_specified 20 5 (store one_bottle)
    (store (delete_expired example_cfg (on_day 20 admin) (Some 5) one_bottle).2).
Proof.
  apply (sweep_deletes_by_age example_cfg (on_day 20 admin) 5 one_bottle).
  - apply list_elem_of_here.
  - lia.
  - intros c Hc. simpl in Hc. apply list_elem_of_singleton in Hc as ->.
    eexists. split; [apply list_elem_of_here|]. simpl. split; [reflexivity | lia].
Defined.

(** ** Naming and featuring a bottle *)

(** C9.  Both handlers look for the bottle before they look at the caller.
    With no bottle of that id the answer is "no such bottle", for a
    manager and for anybody else alike; with a bottle of that id, a caller
    who may not act on it gets the refusal instead (for featuring: every
    caller who is not a manager; for naming: every such caller who did not
    throw the bottle).  In each of these cases the handler returns in the
    very world it started from. *)
Theorem existence_is_checked_before_permission (cfg : Config) (env : Env)
    (ses : Session) (id : Z) (name : string) (w : World) :
  (get_bottle (fun b => Bottle.id b = id) (store w) = [] ->
     name_bottle cfg env ses id name w = (NoSuchBottle, w)
     /\ set_hot_bottle cfg ses id w = (NoSuchBottle, w))
  /\ (forall first rest,
        get_bottle (fun b => Bottle.id b = id) (store w) = first :: rest ->
        ~ is_manager cfg (userId ses) ->
        set_hot_bottle cfg ses id w = (FeatureDenied, w)
        /\ (Bottle.uid first <> userId ses ->
            name_bottle cfg env ses id name w = (RenameDenied, w))).
Proof.
  split.
  - intros Hnone. unfold name_bottle, set_hot_bottle.
    rewrite !bind_run. unfold read_store; simpl. rewrite Hnone. auto.
  - intros first rest Hsome Hnot. unfold name_bottle, set_hot_bottle.
    rewrite !bind_run. unfold read_store; simpl. rewrite Hsome.
    rewrite (bool_decide_eq_true_2 _ Hnot). split; [reflexivity|].
    intros Hother. rewrite (bool_decide_eq_true_2 _ Hother). reflexivity.
Qed.

Lemma unknown_bottle_is_reported_to_everybody :
  name_bottle example_cfg healthy alice 7 "tea" fresh_bottle
  = (NoSuchBottle, fresh_bottle)
  /\ set_hot_bottle example_cfg alice 7 fresh_bottle = (NoSuchBottle, fresh_bottle)
  /\ set_hot_bottle example_cfg alice 1 fresh_bottle = (FeatureDenied, fresh_bottle)
  /\ name_bottle example_cfg healthy alice 1 "tea" fresh_bottle
     = (RenameDenied, fresh_bottle).
Proof.
  destruct (existence_is_checked_before_permission example_cfg healthy alice 7
              "tea" fresh_bottle) as [Hnone _].
  destruct (existence_is_checked_before_permission example_cfg healthy alice 1
              "tea" fresh_bottle) as [_ Hsome].
  destruct (Hnone eq_refl) as [H1 H2].
  destruct (Hsome _ _ eq_refl) as [H3 H4].
  - intros Hin. apply list_elem_of_singleton in Hin. discriminate.
  - assert ("bob" <> "alice") as Hother by discriminate.
    exact (conj H1 (conj H2 (conj H3 (H4 Hother)))).
Defined.

(** * The commands together *)

(** ** What every command respects *)

Lemma reads_audit_comments cfg env ses bid rows :
  forall broken, reads (audit_comments cfg env ses bid rows broken).
Proof.
  induction rows as [|c rows IH]; intros broken; cbn [audit_comments].
  - apply reads_ret.
  - apply reads_bind.
    + apply reads_retrying; [unfold audit_comment_send; reads_auto
                            | apply reads_session_send].
    + intros [[|]| | |]; try apply IH; apply reads_ret.
Qed.

Lemma reads_audit_comments_of cfg env ses rows :
  forall broken, reads (audit_comments_of cfg env ses rows broken).
Proof.
  induction rows as [|b rows IH]; intros broken; cbn [audit_comments_of].
  - apply reads_ret.
  - apply reads_bind; [apply reads_read_store|]. intros cs.
    apply reads_bind; [apply reads_audit_comments|].
    intros [a|broken']; [apply reads_ret | apply IH].
Qed.

Lemma reads_list_bottles cfg whose uid list page :
  reads (list_bottles cfg whose uid list page).
Proof. unfold list_bottles. reads_auto. Qed.

#[global] Hint Resolve reads_store_assets reads_preview_bottle
  reads_comment_check
  reads_audit_bottles reads_audit_comments_of reads_draw_bottle
  reads_list_bottles : reads.

Section Preorder.
Context (R : Store -> Store -> Prop).
Hypothesis R_refl : forall s, R s s.
Hypothesis R_trans : forall s1 s2 s3, R s1 s2 -> R s2 s3 -> R s1 s3.

Lemma steps_reads {A} (m : M A) : reads m -> steps R m.
Proof. intros Hm w. rewrite Hm. apply R_refl. Qed.

Lemma steps_bind {A B} (m : M A) (k : A -> M B) :
  steps R m -> (forall a, steps R (k a)) -> steps R (bind m k).
Proof.
  intros Hm Hk w. rewrite bind_run.
  eapply R_trans; [apply Hm | apply Hk].
Qed.

Lemma steps_with_store (f : Store -> Store) :
  (forall s, R s (f s)) -> steps R (with_store f).
Proof. intros Hf w. apply Hf. Qed.

Lemma steps_retrying cfg env {A} (attempt : M (option A)) (abandon : M unit)
    fuel retry :
  steps R attempt -> steps R abandon ->
  steps R (retrying cfg env fuel retry attempt abandon).
Proof.
  intros Hattempt Habandon. revert retry.
  induction fuel as [|fuel IH]; intros retry; simpl.
  - apply steps_reads, reads_ret.
  - apply steps_bind; [exact Hattempt|].
    intros [a|]; [apply steps_reads, reads_ret|].
    destruct (decide (retry + 1 > maxRetry cfg)).
    + apply steps_bind; [exact Habandon | intros; apply steps_reads, reads_ret].
    + apply steps_bind; [apply steps_reads, reads_sleep|].
      intros [|]; [apply IH | apply steps_reads, reads_ret].
Qed.
End Preorder.

(** Splits a goal [steps R m] along the shape of [m], down to the store
    operations, which are left to [leaf]. *)
Ltac steps_walk Hrefl Htrans leaf :=
  repeat match goal with
    | |- steps _ (bind _ _) => apply (steps_bind _ Htrans); [| intros ?]
    | |- steps _ (retrying _ _ _ _ _ _) => apply (steps_retrying _ Hrefl Htrans)
    | |- steps _ (with_store _) => apply steps_with_store; intros ?; leaf
    | |- steps _ (db_create_bottle _) => leaf
    | |- steps _ (db_create_comment _) => leaf
    | |- steps _ (match ?x with _ => _ end) => destruct x
    | |- steps _ (if ?c then _ else _) => destruct c
    | |- steps _ (let (_, _) := ?x in _) => destruct x
    | |- steps _ _ => apply (steps_reads _ Hrefl); solve [eauto with reads]
    end.

Lemma descends_with_content c b : descends b (Bottle.with_content c b).
Proof. unfold descends. simpl. tauto. Qed.

Lemma descends_with_commentCount n b : descends b (Bottle.with_commentCount n b).
Proof. unfold descends. simpl. tauto. Qed.

Lemma descends_with_name n b : descends b (Bottle.with_name n b).
Proof. unfold descends. simpl. tauto. Qed.

Lemma descends_with_isHot b : descends b (Bottle.with_isHot 1 b).
Proof. unfold descends. simpl. tauto. Qed.

Create HintDb descends.
#[global] Hint Resolve descends_with_content descends_with_commentCount
  descends_with_name descends_with_isHot : descends.

Section Steps.
Context (R : Store -> Store -> Prop) (HR : Respected R).

Lemma steps_db_create_bottle row : steps R (db_create_bottle row).
Proof.
  intros w. unfold db_create_bottle.
  pose proof (respected_create_bottle R HR row (store w)) as Hrow.
  destruct (create_bottle row (store w)). exact Hrow.
Qed.

Lemma steps_db_create_comment row : steps R (db_create_comment row).
Proof.
  intros w. unfold db_create_comment.
  pose proof (respected_create_comment R HR row (store w)) as Hrow.
  destruct (create_comment row (store w)). exact Hrow.
Qed.

(** Each store operation of a handler is one that [R] holds across. *)
Ltac respected_leaf :=
  first [ apply steps_db_create_bottle
        | apply steps_db_create_comment
        | apply (respected_remove_bottle R HR)
        | apply (respected_remove_comment R HR)
        | apply (respected_set_comment R HR)
        | apply (respected_set_bottle R HR); solve [auto with descends] ].

Ltac steps_auto :=
  steps_walk (respected_refl R HR) (respected_trans R HR) ltac:(respected_leaf).

Lemma steps_throw_bottle cfg env ses title message :
  steps R (throw_bottle cfg env ses title message).
Proof.
  unfold throw_bottle, throw_prepare, throw_preview.
  steps_auto.
Qed.

Lemma steps_comment_bottle cfg env ses root rid id ct :
  steps R (comment_bottle cfg env ses root rid id ct).
Proof.
  unfold comment_bottle, comment_insert, comment_preview, preview_comment,
    store_comment_assets.
  steps_auto.
Qed.

Lemma steps_handle cfg env r : steps R (handle cfg env r).
Proof.
  destruct r; simpl.
  - apply steps_throw_bottle.
  - apply (steps_reads R (respected_refl R HR)), reads_draw_bottle.
  - apply steps_comment_bottle.
  - unfold delete_bottle. steps_auto.
  - unfold delete_comment. steps_auto.
  - unfold delete_expired. steps_auto.
  - unfold delete_invalid_bottles. steps_auto.
  - unfold name_bottle. steps_auto.
  - unfold set_hot_bottle. steps_auto.
Qed.

Lemma steps_delete_invalid_comments cfg env ses start end_ :
  steps R (delete_invalid_comments cfg env ses start end_).
Proof. unfold delete_invalid_comments. steps_auto. Qed.

Lemma steps_run cfg display env c : steps R (run cfg display env c).
Proof.
  destruct c; simpl;
    (apply (steps_bind R (respected_trans R HR));
     [| intros; apply (steps_reads R (respected_refl R HR)), reads_ret]).
  - apply steps_handle.
  - apply steps_delete_invalid_comments.
  - unfold my_bottles. steps_auto.
  - unfold user_bottles. steps_auto.
  - unfold bottle_index. steps_auto.
  - unfold hot_bottles. steps_auto.
Qed.

Lemma steps_run_all cfg display env cs : steps R (run_all cfg display env cs).
Proof.
  induction cs as [|c cs IH]; simpl.
  - apply (steps_reads R (respected_refl R HR)), reads_ret.
  - apply (steps_bind R (respected_trans R HR)); [apply steps_run|]. intros a.
    apply (steps_bind R (respected_trans R HR)); [apply IH|].
    intros; apply (steps_reads R (respected_refl R HR)), reads_ret.
Qed.

End Steps.

(** ** The rows across the commands *)

Lemma descends_refl b : descends b b.
Proof. unfold descends. tauto. Qed.

Lemma descends_trans b1 b2 b3 : descends b1 b2 -> descends b2 b3 -> descends b1 b3.
Proof.
  unfold descends. intros (-> & -> & -> & -> & -> & -> & H12) (-> & -> & -> & -> & -> & -> & H23).
  repeat split; auto.
Qed.

Lemma same_comment_refl c : same_comment c c.
Proof. unfold same_comment. destruct c; reflexivity. Qed.

Lemma same_comment_trans c1 c2 c3 :
  same_comment c1 c2 -> same_comment c2 c3 -> same_comment c1 c3.
Proof.
  unfold same_comment. intros H12 H23. rewrite H23 at 1. rewrite H12.
  destruct c1; reflexivity.
Qed.

Lemma same_comment_id c c' : same_comment c c' -> Comment.id c' = Comment.id c.
Proof. unfold same_comment. intros ->. reflexivity. Qed.

Lemma follows_respected : Respected follows.
Proof.
  split.
  - intros s. unfold follows. split; [lia|]. split; [lia|]. split.
    + intros b Hb. left. exists b. split; [exact Hb | apply descends_refl].
    + intros c Hc. left. exists c. split; [exact Hc | apply same_comment_refl].
  - intros s1 s2 s3 (Hb12 & Hc12 & Hbs12 & Hcs12) (Hb23 & Hc23 & Hbs23 & Hcs23).
    split; [lia|]. split; [lia|]. split.
    + intros b3 Hin. destruct (Hbs23 b3 Hin) as [(b2 & Hin2 & Hd23)|Hnew]; [|right; lia].
      destruct (Hbs12 b2 Hin2) as [(b1 & Hin1 & Hd12)|Hnew].
      * left. exists b1. split; [exact Hin1|]. eapply descends_trans; eassumption.
      * right. destruct Hd23 as (-> & _). exact Hnew.
    + intros c3 Hin. destruct (Hcs23 c3 Hin) as [(c2 & Hin2 & Hd23)|Hnew]; [|right; lia].
      destruct (Hcs12 c2 Hin2) as [(c1 & Hin1 & Hd12)|Hnew].
      * left. exists c1. split; [exact Hin1|]. eapply same_comment_trans; eassumption.
      * right. rewrite (same_comment_id _ _ Hd23). exact Hnew.
  - intros row s. unfold follows. simpl. split; [lia|]. split; [lia|]. split.
    + intros b Hin. apply elem_of_app in Hin as [Hin|Hin].
      * left. exists b. split; [exact Hin | apply descends_refl].
      * apply list_elem_of_singleton in Hin as ->. right. simpl. lia.
    + intros c Hc. left. exists c. split; [exact Hc | apply same_comment_refl].
  - intros row s. unfold follows. simpl. split; [lia|]. split; [lia|]. split.
    + intros b Hb. left. exists b. split; [exact Hb | apply descends_refl].
    + intros c Hin. apply elem_of_app in Hin as [Hin|Hin].
      * left. exists c. split; [exact Hin | apply same_comment_refl].
      * apply list_elem_of_singleton in Hin as ->. right. simpl. lia.
  - intros P dec patch s Hpatch. unfold follows. simpl.
    split; [lia|]. split; [lia|]. split.
    + intros b' Hin. apply list_elem_of_fmap in Hin as (b & -> & Hin).
      left. exists b. split; [exact Hin|].
      destruct (decide (P b)); [apply Hpatch | apply descends_refl].
    + intros c Hc. left. exists c. split; [exact Hc | apply same_comment_refl].
  - intros P dec content s. unfold follows. simpl.
    split; [lia|]. split; [lia|]. split.
    + intros b Hb. left. exists b. split; [exact Hb | apply descends_refl].
    + intros c' Hin. apply list_elem_of_fmap in Hin as (c & -> & Hin).
      left. exists c. split; [exact Hin|].
      destruct (decide (P c)); [reflexivity | apply same_comment_refl].
  - intros P dec s. unfold follows. simpl.
    split; [lia|]. split; [lia|]. split.
    + intros b Hin. apply list_elem_of_filter in Hin as [_ Hin].
      left. exists b. split; [exact Hin | apply descends_refl].
    + intros c Hc. left. exists c. split; [exact Hc | apply same_comment_refl].
  - intros P dec s. unfold follows. simpl.
    split; [lia|]. split; [lia|]. split.
    + intros b Hb. left. exists b. split; [exact Hb | apply descends_refl].
    + intros c Hin. apply list_elem_of_filter in Hin as [_ Hin].
      left. exists c. split; [exact Hin | apply same_comment_refl].
Qed.

Lemma map_id_set_bottle (P : Bottle.t -> Prop) `{!forall b, Decision (P b)}
    (patch : Bottle.t -> Bottle.t) (l : list Bottle.t) :
  (forall b, Bottle.id (patch b) = Bottle.id b) ->
  map Bottle.id (map (fun b => if decide (P b) then patch b else b) l)
  = map Bottle.id l.
Proof.
  intros Hpatch. induction l as [|b l IH]; simpl; [reflexivity|].
  rewrite IH. destruct (decide (P b)); [rewrite Hpatch|]; reflexivity.
Qed.

Lemma map_id_set_comment (P : Comment.t -> Prop) `{!forall c, Decision (P c)}
    (content : string) (l : list Comment.t) :
  map Comment.id (map (fun c => if decide (P c)
                                then Comment.with_content content c else c) l)
  = map Comment.id l.
Proof.
  induction l as [|c l IH]; simpl; [reflexivity|].
  rewrite IH. destruct (decide (P c)); reflexivity.
Qed.

Lemma well_formed_ids s :
  well_formed s <->
  (forall i, i ∈ map Bottle.id (bottles s) -> i <= bottle_seq s)
  /\ (forall i, i ∈ map Comment.id (comments s) -> i <= comment_seq s).
Proof.
  unfold well_formed. split; intros [Hb Hc]; split.
  - intros i Hi. apply list_elem_of_fmap in Hi as (b & -> & Hin). apply Hb, Hin.
  - intros i Hi. apply list_elem_of_fmap in Hi as (c & -> & Hin). apply Hc, Hin.
  - intros b Hin. apply Hb, list_elem_of_fmap. eauto.
  - intros c Hin. apply Hc, list_elem_of_fmap. eauto.
Qed.

Lemma sound_respected : Respected (preserves sound).
Proof.
  split; unfold preserves, sound.
  - auto.
  - auto.
  - intros row s (Hwf & Hbs & Hcs). apply well_formed_ids in Hwf as [Hb Hc].
    rewrite well_formed_ids. simpl. rewrite map_app. simpl.
    split; [split|split].
    + intros i Hi. apply elem_of_app in Hi as [Hi|Hi].
      * specialize (Hb i Hi). lia.
      * apply list_elem_of_singleton in Hi as ->. lia.
    + exact Hc.
    + apply NoDup_app. split; [exact Hbs|]. split; [|apply NoDup_singleton].
      intros i Hi Hnew. apply list_elem_of_singleton in Hnew as ->.
      specialize (Hb _ Hi). lia.
    + exact Hcs.
  - intros row s (Hwf & Hbs & Hcs). apply well_formed_ids in Hwf as [Hb Hc].
    rewrite well_formed_ids. simpl. rewrite map_app. simpl.
    split; [split|split].
    + exact Hb.
    + intros i Hi. apply elem_of_app in Hi as [Hi|Hi].
      * specialize (Hc i Hi). lia.
      * apply list_elem_of_singleton in Hi as ->. lia.
    + exact Hbs.
    + apply NoDup_app. split; [exact Hcs|]. split; [|apply NoDup_singleton].
      intros i Hi Hnew. apply list_elem_of_singleton in Hnew as ->.
      specialize (Hc _ Hi). lia.
  - intros P dec patch s Hpatch (Hwf & Hbs & Hcs).
    rewrite well_formed_ids in *. simpl.
    rewrite map_id_set_bottle by (intros b; apply (Hpatch b)). auto.
  - intros P dec content s (Hwf & Hbs & Hcs).
    rewrite well_formed_ids in *. simpl. rewrite map_id_set_comment. auto.
  - intros P dec s (Hwf & Hbs & Hcs). rewrite well_formed_ids in *. simpl.
    assert (map Bottle.id (filter (fun b => ~ P b) (bottles s))
            `sublist_of` map Bottle.id (bottles s)) as Hsub
      by apply fmap_sublist, sublist_filter.
    split; [split|split]; try tauto.
    + intros i Hi. apply Hwf. eapply elem_of_sublist; eassumption.
    + exact (sublist_NoDup _ _ Hbs Hsub).
  - intros P dec s (Hwf & Hbs & Hcs). rewrite well_formed_ids in *. simpl.
    assert (map Comment.id (filter (fun c => ~ P c) (comments s))
            `sublist_of` map Comment.id (comments s)) as Hsub
      by apply fmap_sublist, sublist_filter.
    split; [split|split]; try tauto.
    + intros i Hi. apply Hwf. eapply elem_of_sublist; eassumption.
    + exact (sublist_NoDup _ _ Hcs Hsub).
Qed.

(** ** What a throw leaves behind *)

Lemma thrown_remove cfg ses title s kept s' k :
  well_formed s ->
  k = bottle_seq s + 1 ->
  thrown cfg ses title s kept s' ->
  thrown cfg ses title s None (remove_bottle (fun b => Bottle.id b = k) s').
Proof.
  intros [Hwf _] -> (Hc & Hcs & Hbs & Hb). unfold thrown. simpl.
  rewrite Hb, filter_app. repeat split; auto.
  rewrite filter_all by (intros b Hin; specialize (Hwf b Hin); lia).
  destruct kept as [c|]; simpl.
  - rewrite filter_cons_False by (simpl; tauto). reflexivity.
  - reflexivity.
Qed.

Lemma thrown_set cfg ses title s c s' k c' :
  well_formed s ->
  k = bottle_seq s + 1 ->
  thrown cfg ses title s (Some c) s' ->
  thrown cfg ses title s (Some c')
    (set_bottle (fun b => Bottle.id b = k) (Bottle.with_content c') s').
Proof.
  intros [Hwf _] -> (Hc & Hcs & Hbs & Hb). unfold thrown. simpl.
  rewrite Hb, map_app. repeat split; auto. simpl.
  rewrite decide_True by reflexivity.
  rewrite map_patch_none by (intros b Hin; specialize (Hwf b Hin); lia).
  reflexivity.
Qed.

(** A loop whose attempts leave the tables alone and that removes the row
    [k] when it gives up. *)
Lemma removing_loop cfg env {A} (attempt : M (option A)) (n : Notice) (k : Z) wc :
  reads attempt ->
  let loop := retrying cfg env (retry_budget cfg) 0 attempt
                (session_send n ;;
                 with_store (remove_bottle (fun b => Bottle.id b = k))) in
  match (loop wc).1 with
  | Finished _ | Disposed => store (loop wc).2 = store wc
  | GaveUp => store (loop wc).2
              = remove_bottle (fun b => Bottle.id b = k) (store wc)
  | NoFuel => False
  end.
Proof.
  intros Hattempt loop.
  pose proof (retrying_spec cfg env attempt
                (session_send n ;;
                 with_store (remove_bottle (fun b => Bottle.id b = k)))
                (fun w' => store w' = store wc)
                (fun _ w' => store w' = store wc)
                (fun w' => store w'
                           = remove_bottle (fun b => Bottle.id b = k) (store wc)))
    as Hspec.
  specialize (Hspec) with (fuel := retry_budget cfg) (retry := 0) (w := wc).
  pose proof (retry_budget_enough cfg env attempt
                (session_send n ;;
                 with_store (remove_bottle (fun b => Bottle.id b = k))) wc) as Hfuel.
  fold loop in Hspec, Hfuel.
  destruct (loop wc) as [[r| | |] w2]; cbn [fst snd] in *;
    try (apply Hspec; clear Hspec); try congruence; auto.
  all: try (intros w' Hw'; pose proof (Hattempt w') as Hreads;
            destruct (attempt w') as [[r'|] w3]; cbn [fst snd] in *; congruence).
  all: try (intros w' Hw'; rewrite bind_run; cbn; congruence).
Qed.

Lemma throw_bottle_cases cfg env ses title message w :
  well_formed (store w) ->
  match (throw_bottle cfg env ses title message w).1 with
  | NameIsNumber | ContentMissing | NotYourMessage | TooShort =>
      (throw_bottle cfg env ses title message w).2 = w
  | TooLong =>
      exists c, thrown cfg ses title (store w) (Some c)
                  (store (throw_bottle cfg env ses title message w).2)
  | BottleThrown id =>
      preview cfg = false
      /\ id = bottle_seq (store w) + 1
      /\ exists c, strlen c <= maxLength cfg
                   /\ (saveMode cfg = SaveUrl -> c = given_content cfg ses message)
                   /\ thrown cfg ses title (store w) (Some c)
                        (store (throw_bottle cfg env ses title message w).2)
  | Silent =>
      exists kept, thrown cfg ses title (store w) kept
                     (store (throw_bottle cfg env ses title message w).2)
  | _ => False
  end.
Proof.
  intros Hwf. unfold throw_bottle, throw_prepare. rewrite bind_run.
  destruct (title_is_number env title); [reflexivity|].
  destruct (_ && _); [reflexivity|].
  destruct (_ && _); [reflexivity|].
  match goal with
  | |- context [strlen ?c < 1] => set (content := c)
  end.
  destruct (decide (_ < 1)); [reflexivity|].
  rewrite bind_run.
  match goal with
  | |- context [db_create_bottle ?r w] =>
      assert (thrown cfg ses title (store w) (Some content)
                (store (db_create_bottle r w).2)
              /\ Bottle.id (db_create_bottle r w).1 = bottle_seq (store w) + 1)
        as [Hcreated Hid]
        by (unfold db_create_bottle, thrown, thrown_row, thrower; simpl; auto);
      destruct (db_create_bottle r w) as [created wc]
  end.
  cbn [fst snd] in *. rewrite bind_run.
  match goal with
  | |- context [match saveMode cfg with
                | SaveUrl => ?u
                | SaveBase64 => ?l
                | SaveFile => _
                end] =>
      assert (match (match saveMode cfg with
                     | SaveUrl => u
                     | _ => l
                     end wc).1 with
              | Finished r =>
                  store (match saveMode cfg with
                         | SaveUrl => u
                         | _ => l
                         end wc).2 = store wc
                  /\ (saveMode cfg = SaveUrl -> r = None)
              | Disposed =>
                  store (match saveMode cfg with
                         | SaveUrl => u
                         | _ => l
                         end wc).2 = store wc
              | GaveUp =>
                  store (match saveMode cfg with
                         | SaveUrl => u
                         | _ => l
                         end wc).2
                  = remove_bottle (fun b => Bottle.id b = Bottle.id created) (store wc)
              | NoFuel => False
              end) as Hloop
        by (destruct (saveMode cfg);
            [split; reflexivity | |];
            (pose proof (removing_loop cfg env (store_assets cfg env content)
                           AssetsNotStored (Bottle.id created) wc
                           (reads_store_assets cfg env content)) as Hrun;
             cbn zeta in Hrun;
             destruct (retrying _ _ _ _ _ _ wc) as [[r| | |] wr];
             cbn [fst snd] in *; try split; auto; discriminate));
      destruct (match saveMode cfg with
                | SaveUrl => u
                | _ => l
                end wc) as [[rewritten| | |] w2]
  end; cbn [fst snd] in *; [| | |contradiction].
  - destruct Hloop as [Hloop Hurl]. destruct (decide (_ > _)) as [|Hlen].
    + cbn. exists content. rewrite Hloop. exact Hcreated.
    + rewrite bind_run. cbn [with_store ret fst snd].
      match goal with
      | |- context [throw_preview cfg env ses created ?w3] => set (w3' := w3)
      end.
      assert (thrown cfg ses title (store w) (Some (default content rewritten))
                (store w3')) as Hset.
      { subst w3'. cbn [store]. rewrite Hloop.
        eapply thrown_set; [exact Hwf | exact Hid | exact Hcreated]. }
      clearbody w3'. unfold throw_preview.
      destruct (preview cfg) eqn:Hpreview.
      * rewrite bind_run.
        pose proof (removing_loop cfg env (preview_bottle env ses created)
                      PreviewNotSent (Bottle.id created) w3'
                      (reads_preview_bottle env ses created)) as Hsent.
        cbn zeta in Hsent.
        destruct (retrying _ _ _ _ _ _ w3') as [[[]| | |] w4];
          cbn [fst snd] in *; [| | |contradiction].
        -- cbn. exists (Some (default content rewritten)). rewrite Hsent. exact Hset.
        -- cbn. exists None. rewrite Hsent.
           eapply thrown_remove; [exact Hwf | exact Hid | exact Hset].
        -- cbn. exists (Some (default content rewritten)). rewrite Hsent. exact Hset.
      * cbn. split; [reflexivity|]. split; [exact Hid|].
        exists (default content rewritten). split; [lia|]. split; [|exact Hset].
        intros Hmode. rewrite (Hurl Hmode). reflexivity.
  - cbn. exists None. rewrite Hloop.
    eapply thrown_remove; [exact Hwf | exact Hid | exact Hcreated].
  - cbn. exists (Some content). rewrite Hloop. exact Hcreated.
Qed.

(** ** Across any sequence of commands *)

(** X1.  Whatever commands run, with whatever configuration and
    environment, the store they end in comes after the store they started
    in: the two counters have not gone back; a bottle whose id the store
    had already handed out is a bottle of the initial table with the same
    id, thrower, guild, channel, user name and date, still featured if it
    was; a comment whose id had already been handed out is a comment of
    the initial table, the same but for its content.  So no command
    re-attributes, re-dates or un-features a bottle, and none reuses an
    id. *)
Theorem rows_keep_their_identity (cfg : Config) (display : Display) (env : Env)
    (cs : list Command) (w : World) :
  follows (store w) (store (run_all cfg display env cs w).2).
Proof.
  apply (steps_run_all follows follows_respected).
Qed.

(** X2.  If the ids of the rows are below the counters of their tables
    and no two rows of a table share an id, this is so again after any
    sequence of commands. *)
Theorem ids_stay_distinct (cfg : Config) (display : Display) (env : Env)
    (cs : list Command) (w : World) :
  sound (store w) ->
  sound (store (run_all cfg display env cs w).2).
Proof.
  apply (steps_run_all (preserves sound) sound_respected).
Qed.

Lemma ids_stay_distinct_from_nothing :
  sound (store (run_all example_cfg example_display healthy
                  [Ask (Throw alice None (Some "hello"));
                   Ask (CommentOn bob false 0 1 (Some "nice"));
                   Ask (Throw bob (Some "tea") (Some "green"));
                   DeleteInvalidComments admin None None;
                   Ask (DeleteBottle alice 1)]
                  (initial_world empty_store)).2).
Proof.
  apply (ids_stay_distinct example_cfg example_display healthy).
  split; [split; intros x Hx; inversion Hx | split; constructor].
Defined.

(** ** The deletions, run *)

Lemma may_act (P Q : Prop) `{!Decision P, !Decision Q} :
  bool_decide (~ P) && bool_decide (~ Q) = false <-> P \/ Q.
Proof.
  rewrite andb_false_iff, !bool_decide_eq_false. split.
  - intros [H|H]; [left | right].
    + destruct (decide P); tauto.
    + destruct (decide Q); tauto.
  - intros [H|H]; tauto.
Qed.

Lemma may_not_act (P Q : Prop) `{!Decision P, !Decision Q} :
  bool_decide (~ P) && bool_decide (~ Q) = true <-> ~ P /\ ~ Q.
Proof. rewrite andb_true_iff, !bool_decide_eq_true. tauto. Qed.

Lemma permitted_or_not cfg (user owner : string) :
  (is_manager cfg user \/ user = owner)
  \/ (~ is_manager cfg user /\ user <> owner).
Proof.
  destruct (is_manager_dec cfg user); destruct (decide (user = owner)); tauto.
Qed.

Lemma filter_none {A} (P : A -> Prop) `{!forall x, Decision (P x)} (l : list A) :
  (forall x, x ∈ l -> ~ P x) -> filter P l = [].
Proof.
  induction l as [|a l IH]; intros Hnone; [reflexivity|].
  rewrite filter_cons_False by (apply Hnone; left).
  apply IH. intros x Hx. apply Hnone. right. exact Hx.
Qed.

Lemma delete_bottle_missing cfg env ses id w :
  get_bottle (fun b => Bottle.id b = id) (store w) = [] ->
  delete_bottle cfg env ses id w = (NoBottleToDelete, w).
Proof.
  intros Hnone. unfold delete_bottle. rewrite bind_run.
  unfold read_store. cbn [fst snd]. rewrite Hnone. reflexivity.
Qed.

Lemma delete_bottle_denied cfg env ses id w first rest :
  get_bottle (fun b => Bottle.id b = id) (store w) = first :: rest ->
  ~ is_manager cfg (userId ses) ->
  userId ses <> Bottle.uid first ->
  delete_bottle cfg env ses id w = (NotYourBottle, w).
Proof.
  intros Hfirst Hm Ho. unfold delete_bottle. rewrite bind_run.
  unfold read_store. cbn [fst snd]. rewrite Hfirst.
  rewrite (proj2 (may_not_act _ _)) by auto. reflexivity.
Qed.

Lemma delete_comment_missing cfg env ses bid cid w :
  get_comment (fun c => Comment.bid c = bid /\ Comment.cid c = cid) (store w) = [] ->
  delete_comment cfg env ses bid cid w = (NoCommentToDelete, w).
Proof.
  intros Hnone. unfold delete_comment. rewrite bind_run.
  unfold read_store. cbn [fst snd]. rewrite Hnone. reflexivity.
Qed.

Lemma delete_comment_denied cfg env ses bid cid w first rest :
  get_comment (fun c => Comment.bid c = bid /\ Comment.cid c = cid) (store w)
  = first :: rest ->
  ~ is_manager cfg (userId ses) ->
  userId ses <> Comment.uid first ->
  delete_comment cfg env ses bid cid w = (NotYourComment, w).
Proof.
  intros Hfirst Hm Ho. unfold delete_comment. rewrite bind_run.
  unfold read_store. cbn [fst snd]. rewrite Hfirst.
  rewrite (proj2 (may_not_act _ _)) by auto. reflexivity.
Qed.

Lemma unlinkable_mono env contents (fs fs' : gset string) :
  fs ⊆ fs' -> unlinkable env contents fs -> unlinkable env contents fs'.
Proof.
  intros Hsub (Hsrc & Hnd & Hin). split; [exact Hsrc|]. split; [exact Hnd|].
  rewrite Forall_forall in *. intros f Hf. apply Hsub, Hin, Hf.
Qed.

Lemma delete_comment_steps cfg env ses bid cid w first rest :
  get_comment (fun c => Comment.bid c = bid /\ Comment.cid c = cid) (store w)
  = first :: rest ->
  is_manager cfg (userId ses) \/ userId ses = Comment.uid first ->
  delete_comment cfg env ses bid cid w
  = if decide (unlinkable env [Comment.content first] (files w)) then
      (CommentDeleted,
       mkWorld
         (remove_comment (fun c => Comment.bid c = bid /\ Comment.cid c = cid)
            (store w))
         (files w ∖ list_to_set (local_assets env (Comment.content first)))
         (bottleMap w) (clock w) (outbox w))
    else (Uncaught, (unlink_assets env (Comment.content first) w).2).
Proof.
  intros Hfirst Hmay. unfold delete_comment.
  rewrite bind_run, read_store_run. cbn [fst snd]. rewrite Hfirst.
  rewrite (proj2 (may_act _ _)) by exact Hmay.
  rewrite bind_run, unlink_assets_run.
  destruct (decide (unlinkable env [Comment.content first] (files w)));
    reflexivity.
Qed.

(** X8.  删除瓶子.  With no bottle of that id the answer is "no such
    bottle", and for a caller who is neither a manager nor the thrower of
    the bottle it is the refusal; both return in the world they started
    from.  For a manager or the thrower, what happens depends on the
    files: the handler unlinks the local assets of the bottle and then of
    its comments before it removes a row, and [unlinkSync] throws on a
    file that is not there.  When every media element of these contents
    has a [src] and every local asset is on disk and named once, the
    bottle table loses the rows of that id and no other, the comment
    table loses the comments of that bottle and no other, whoever wrote
    them, the order of the rows that stay is kept, a file is on disk
    afterwards when it was there before and neither the bottle nor one of
    its comments referred to it as a local asset, nothing is sent, and
    asking again answers "no such bottle".  Otherwise the handler ends
    with an exception: both tables are as they were, nothing is sent, no
    file appears, and asking again ends with the exception again. *)
Theorem delete_bottle_takes_its_own (cfg : Config) (env : Env) (ses : Session)
    (id : Z) (w : World) :
  let r := delete_bottle cfg env ses id w in
  (get_bottle (fun b => Bottle.id b = id) (store w) = [] ->
   r = (NoBottleToDelete, w))
  /\ (forall first rest,
        get_bottle (fun b => Bottle.id b = id) (store w) = first :: rest ->
        (~ is_manager cfg (userId ses) -> userId ses <> Bottle.uid first ->
         r = (NotYourBottle, w))
        /\ (is_manager cfg (userId ses) \/ userId ses = Bottle.uid first ->
            (unlinkable env (contents_of (store w) id) (files w) ->
             r.1 = BottleDeleted
             /\ bottles (store r.2)
                = filter (fun b => Bottle.id b <> id) (bottles (store w))
             /\ comments (store r.2)
                = filter (fun c => Comment.bid c <> id) (comments (store w))
             /\ (forall f, f ∈ files r.2 <->
                   f ∈ files w
                   /\ (f ∉ local_assets env (Bottle.content first))
                   /\ forall c, c ∈ comments (store w) -> Comment.bid c = id ->
                                f ∉ local_assets env (Comment.content c))
             /\ outbox r.2 = outbox w
             /\ delete_bottle cfg env ses id r.2 = (NoBottleToDelete, r.2))
            /\ (~ unlinkable env (contents_of (store w) id) (files w) ->
                r.1 = Uncaught
                /\ store r.2 = store w
                /\ outbox r.2 = outbox w
                /\ files r.2 ⊆ files w
                /\ (delete_bottle cfg env ses id r.2).1 = Uncaught))).
Proof.
  intros r. subst r. split; [apply delete_bottle_missing|].
  intros first rest Hfirst. split; [apply delete_bottle_denied with rest, Hfirst|].
  intros Hmay.
  destruct (delete_bottle_permitted cfg env ses id w first rest Hfirst Hmay)
    as [Hdone Hthrown].
  split.
  - intros Hloose. rewrite (Hdone Hloose).
    unfold contents_of. rewrite Hfirst.
    cbn [fst snd store files outbox remove_comment remove_bottle bottles comments].
    split; [reflexivity|]. split; [reflexivity|]. split; [reflexivity|]. split.
    + intros f. rewrite elem_of_difference, elem_of_list_to_set.
      change (mjoin (map (local_assets env)
                       (Bottle.content first
                        :: map Comment.content
                             (get_comment (fun c => Comment.bid c = id) (store w)))))
        with (local_assets env (Bottle.content first)
              ++ mjoin (map (local_assets env)
                          (map Comment.content
                             (get_comment (fun c => Comment.bid c = id) (store w))))).
      rewrite elem_of_app, (list_elem_of_join f), map_map. split.
      * intros [Hin Hnone]. split; [exact Hin|]. split; [tauto|].
        intros c Hcin Hbid Hf. apply Hnone. right.
        exists (local_assets env (Comment.content c)). split; [exact Hf|].
        apply list_elem_of_fmap. exists c. split; [reflexivity|].
        unfold get_comment. apply list_elem_of_filter. auto.
      * intros (Hin & Hb & Hc). split; [exact Hin|].
        intros [Hf|(l & Hf & Hl)]; [exact (Hb Hf)|].
        apply list_elem_of_fmap in Hl as (c & -> & Hcin).
        unfold get_comment in Hcin. apply list_elem_of_filter in Hcin as [Hbid Hcin].
        exact (Hc c Hcin Hbid Hf).
    + split; [reflexivity|]. apply delete_bottle_missing.
      unfold get_bottle. cbn [store bottles remove_comment remove_bottle].
      rewrite list_filter_filter. apply filter_none. intros b _. tauto.
  - intros Hstuck. destruct (Hthrown Hstuck) as (Hreply & Hs & _ & _ & Ho & Hf).
    split; [exact Hreply|]. split; [exact Hs|]. split; [exact Ho|].
    split; [exact Hf|].
    set (w' := (delete_bottle cfg env ses id w).2) in *.
    assert (get_bottle (fun b => Bottle.id b = id) (store w') = first :: rest)
      as Hfirst' by (rewrite Hs; exact Hfirst).
    destruct (delete_bottle_permitted cfg env ses id w' first rest Hfirst' Hmay)
      as [_ Hagain].
    apply Hagain. rewrite Hs. intros Hloose. apply Hstuck.
    exact (unlinkable_mono env _ _ _ Hf Hloose).
Qed.

Lemma bob_deletes_his_bottle :
  bottles (store (delete_bottle example_cfg healthy bob 1 one_bottle).2) = []
  /\ comments (store (delete_bottle example_cfg healthy bob 1 one_bottle).2) = []
  /\ delete_bottle example_cfg healthy alice 1 one_bottle = (NotYourBottle, one_bottle)
  /\ (delete_bottle example_cfg healthy bob 1
        (initial_world (store one_bottle))).1 = Uncaught.
Proof.
  destruct (delete_bottle_takes_its_own example_cfg healthy bob 1 one_bottle)
    as [_ Hbob].
  destruct (Hbob _ _ eq_refl) as [_ Hmay].
  destruct (Hmay (or_intror eq_refl)) as [Hdone _].
  destruct Hdone as (_ & Hb & Hc & _); [compute_done|].
  destruct (delete_bottle_takes_its_own example_cfg healthy alice 1 one_bottle)
    as [_ Halice].
  destruct (Halice _ _ eq_refl) as [Hdenied _].
  destruct (delete_bottle_takes_its_own example_cfg healthy bob 1
              (initial_world (store one_bottle))) as [_ Hgone].
  destruct (Hgone _ _ eq_refl) as [_ Hmay'].
  destruct (Hmay' (or_intror eq_refl)) as [_ Hstuck].
  split; [rewrite Hb; reflexivity|]. split; [rewrite Hc; reflexivity|].
  split.
  - apply Hdenied.
    + intros H. apply list_elem_of_singleton in H. discriminate.
    + discriminate.
  - apply Hstuck. compute_done.
Defined.

(** X9.  删除评论.  With no comment of that number on that bottle the
    answer is "no such comment", and for a caller who is neither a
    manager nor the author of the comment (the thrower of the bottle
    included) it is the refusal; both return in the world they started
    from.  For a manager or the author, the handler unlinks the local
    assets of the comment before it removes the row, and [unlinkSync]
    throws on a file that is not there.  When every media element of the
    comment has a [src] and every local asset is on disk and named once,
    the comment table loses the rows with that bottle and number and no
    other, the bottle table stays as it is, a file is on disk afterwards
    when it was there before and the comment did not refer to it as a
    local asset, nothing is sent, and asking again answers "no such
    comment".  Otherwise the handler ends with an exception: both tables
    are as they were, nothing is sent, no file appears, and asking again
    ends with the exception again. *)
Theorem delete_comment_takes_its_own (cfg : Config) (env : Env) (ses : Session)
    (bid cid : Z) (w : World) :
  let r := delete_comment cfg env ses bid cid w in
  let mine := fun c => Comment.bid c = bid /\ Comment.cid c = cid in
  (get_comment mine (store w) = [] -> r = (NoCommentToDelete, w))
  /\ (forall first rest,
        get_comment mine (store w) = first :: rest ->
        (~ is_manager cfg (userId ses) -> userId ses <> Comment.uid first ->
         r = (NotYourComment, w))
        /\ (is_manager cfg (userId ses) \/ userId ses = Comment.uid first ->
            (unlinkable env [Comment.content first] (files w) ->
             r.1 = CommentDeleted
             /\ comments (store r.2)
                = filter (fun c => ~ mine c) (comments (store w))
             /\ bottles (store r.2) = bottles (store w)
             /\ (forall f, f ∈ files r.2 <->
                   f ∈ files w /\ (f ∉ local_assets env (Comment.content first)))
             /\ outbox r.2 = outbox w
             /\ delete_comment cfg env ses bid cid r.2 = (NoCommentToDelete, r.2))
            /\ (~ unlinkable env [Comment.content first] (files w) ->
                r.1 = Uncaught
                /\ store r.2 = store w
                /\ outbox r.2 = outbox w
                /\ files r.2 ⊆ files w
                /\ (delete_comment cfg env ses bid cid r.2).1 = Uncaught))).
Proof.
  intros r mine. subst r mine. split; [apply delete_comment_missing|].
  intros first rest Hfirst. split; [apply delete_comment_denied with rest, Hfirst|].
  intros Hmay.
  rewrite (delete_comment_steps cfg env ses bid cid w first rest Hfirst Hmay).
  split.
  - intros Hloose. rewrite decide_True by exact Hloose.
    cbn [fst snd store files outbox remove_comment bottles comments].
    split; [reflexivity|]. split; [reflexivity|]. split; [reflexivity|]. split.
    + intros f. rewrite elem_of_difference, elem_of_list_to_set. reflexivity.
    + split; [reflexivity|]. apply delete_comment_missing.
      unfold get_comment. cbn [store comments remove_comment].
      rewrite list_filter_filter. apply filter_none. intros c _. tauto.
  - intros Hstuck. rewrite decide_False by exact Hstuck. cbn [fst snd].
    destruct (unlink_assets_frame env (Comment.content first) w)
      as (Hs & _ & _ & Ho & Hf).
    split; [reflexivity|]. split; [exact Hs|]. split; [exact Ho|].
    split; [exact Hf|].
    set (w' := (unlink_assets env (Comment.content first) w).2) in *.
    assert (get_comment (fun c => Comment.bid c = bid /\ Comment.cid c = cid)
              (store w') = first :: rest) as Hfirst' by (rewrite Hs; exact Hfirst).
    rewrite (delete_comment_steps cfg env ses bid cid w' first rest Hfirst' Hmay).
    rewrite decide_False; [reflexivity|].
    intros Hloose. apply Hstuck.
    exact (unlinkable_mono env _ _ _ Hf Hloose).
Qed.

Lemma alice_deletes_her_comment :
  comments (store (delete_comment example_cfg healthy alice 1 1 one_bottle).2) = []
  /\ bottles (store (delete_comment example_cfg healthy alice 1 1 one_bottle).2)
     = bottles (store one_bottle)
  /\ delete_comment example_cfg healthy bob 1 1 one_bottle
     = (NotYourComment, one_bottle).
Proof.
  destruct (delete_comment_takes_its_own example_cfg healthy alice 1 1 one_bottle)
    as [_ Halice].
  destruct (Halice _ _ eq_refl) as [_ Hmay].
  destruct (Hmay (or_intror eq_refl)) as [Hdone _].
  destruct Hdone as (_ & Hc & Hb & _); [compute_done|].
  destruct (delete_comment_takes_its_own example_cfg healthy bob 1 1 one_bottle)
    as [_ Hbob].
  destruct (Hbob _ _ eq_refl) as [Hdenied _].
  split; [rewrite Hc; reflexivity|]. split; [exact Hb|].
  apply Hdenied.
  - intros H. apply list_elem_of_singleton in H. discriminate.
  - discriminate.
Defined.

(** ** Comments and their bottles *)

Lemma throw_bottle_store cfg env ses title message w :
  well_formed (store w) ->
  store (throw_bottle cfg env ses title message w).2 = store w
  \/ exists kept, thrown cfg ses title (store w) kept
                    (store (throw_bottle cfg env ses title message w).2).
Proof.
  intros Hwf.
  pose proof (throw_bottle_cases cfg env ses title message w Hwf) as Hcases.
  destruct (throw_bottle cfg env ses title message w) as [a w'].
  destruct a; cbn [fst snd] in *; try contradiction;
    try (left; rewrite Hcases; reflexivity); right.
  - exact Hcases.
  - destruct Hcases as [c Hc]. eauto.
  - destruct Hcases as (_ & _ & c & _ & _ & Hc). eauto.
Qed.

Lemma linked_thrown cfg ses title s kept s' :
  thrown cfg ses title s kept s' -> linked s -> linked s'.
Proof.
  intros (Hc & _ & _ & Hb) Hlinked c Hin. rewrite Hc in Hin.
  rewrite Hb, map_app. apply elem_of_app. left. apply Hlinked, Hin.
Qed.

Lemma comment_bottle_missing cfg env ses root rid id ct w :
  get_bottle (fun b => Bottle.id b = id) (store w) = [] ->
  comment_bottle cfg env ses root rid id ct w = (NoBottleToComment, w).
Proof.
  intros Hnone. unfold comment_bottle, comment_check. rewrite !bind_run.
  unfold read_store. cbn [fst snd]. rewrite Hnone. reflexivity.
Qed.

Lemma linked_comment_bottle cfg env ses root rid id ct w :
  well_formed (store w) ->
  linked (store w) ->
  linked (store (comment_bottle cfg env ses root rid id ct w).2).
Proof.
  intros Hwf Hlinked.
  destruct (get_bottle (fun b => Bottle.id b = id) (store w)) as [|first rest] eqn:Hrows.
  - rewrite comment_bottle_missing by exact Hrows. exact Hlinked.
  - assert (id ∈ map Bottle.id (bottles (store w))) as Hid.
    { assert (first ∈ get_bottle (fun b => Bottle.id b = id) (store w)) as Hin
        by (rewrite Hrows; left).
      unfold get_bottle in Hin. apply list_elem_of_filter in Hin as [<- Hin].
      apply list_elem_of_fmap. eauto. }
    destruct (comment_bottle_grows cfg env ses root rid id ct w Hwf)
      as (Hb & _ & [[Hc _]|(row & Hc & Hbid & _)]);
      intros c Hin; rewrite Hb, Hc in *.
    + apply Hlinked, Hin.
    + apply elem_of_app in Hin as [Hin|Hin]; [apply Hlinked, Hin|].
      apply list_elem_of_singleton in Hin as ->. rewrite Hbid. exact Hid.
Qed.

Lemma linked_delete_bottle cfg env ses id w :
  linked (store w) -> linked (store (delete_bottle cfg env ses id w).2).
Proof.
  intros Hlinked.
  destruct (get_bottle (fun b => Bottle.id b = id) (store w)) as [|first rest] eqn:Hrows.
  - rewrite delete_bottle_missing by exact Hrows. exact Hlinked.
  - destruct (permitted_or_not cfg (userId ses) (Bottle.uid first)) as [Hmay|Hnot].
    + destruct (delete_bottle_permitted cfg env ses id w first rest Hrows Hmay)
        as [Hdone Hthrown].
      destruct (decide (unlinkable env (contents_of (store w) id) (files w)))
        as [Hloose|Hstuck].
      * rewrite (Hdone Hloose).
        intros c Hin. cbn in Hin. apply list_elem_of_filter in Hin as [Hbid Hin].
        specialize (Hlinked c Hin).
        apply list_elem_of_fmap in Hlinked as (b & Hb & Hbin).
        cbn. apply list_elem_of_fmap. exists b. split; [exact Hb|].
        apply list_elem_of_filter. split; [congruence | exact Hbin].
      * destruct (Hthrown Hstuck) as (_ & -> & _). exact Hlinked.
    + rewrite (delete_bottle_denied cfg env ses id w first rest Hrows) by tauto.
      exact Hlinked.
Qed.

Lemma linked_delete_expired cfg ses days w :
  linked (store w) -> linked (store (delete_expired cfg ses days w).2).
Proof.
  intros Hlinked. unfold delete_expired.
  destruct days as [deleteDays|]; [|exact Hlinked].
  destruct (decide (deleteDays = 0)); [exact Hlinked|].
  destruct (decide (is_manager cfg (userId ses))); [|exact Hlinked].
  rewrite bind_run. unfold read_store. cbn [fst snd].
  destruct (decide _); [exact Hlinked|].
  rewrite !bind_run. cbn.
  intros c Hin. cbn in Hin.
  apply list_elem_of_filter in Hin as [Hkept Hin].
  apply list_elem_of_filter in Hin as [_ Hin].
  specialize (Hlinked c Hin).
  apply list_elem_of_fmap in Hlinked as (b & Hb & Hbin).
  apply list_elem_of_fmap. exists b. split; [exact Hb|].
  apply list_elem_of_filter. split; [|exact Hbin].
  intros Hold. apply Hkept. rewrite Hb.
  apply list_elem_of_fmap. exists b. split; [reflexivity|].
  unfold get_bottle. apply list_elem_of_filter. auto.
Qed.

Lemma tame_refl s : tame s s.
Proof. unfold tame. auto. Qed.

Lemma tame_trans s1 s2 s3 : tame s1 s2 -> tame s2 s3 -> tame s1 s3.
Proof. unfold tame. intros [H1 H2] [H3 H4]. split; [congruence | auto]. Qed.

Lemma tame_set_bottle (P : Bottle.t -> Prop) `{!forall b, Decision (P b)} patch s :
  (forall b, descends b (patch b)) -> tame s (set_bottle P patch s).
Proof.
  intros Hpatch. split; simpl; [|auto].
  apply map_id_set_bottle. intros b. apply (Hpatch b).
Qed.

Lemma tame_remove_comment (P : Comment.t -> Prop) `{!forall c, Decision (P c)} s :
  tame s (remove_comment P s).
Proof.
  split; simpl; [reflexivity|].
  intros c Hin. apply list_elem_of_filter in Hin as [_ Hin]. exact Hin.
Qed.

Lemma linked_tame s s' : tame s s' -> linked s -> linked s'.
Proof. intros [Hb Hc] Hlinked c Hin. rewrite Hb. apply Hlinked, Hc, Hin. Qed.

(** The store operations of the commands that neither throw nor comment
    nor delete a bottle. *)
Ltac tame_leaf :=
  first [ apply tame_remove_comment
        | apply tame_set_bottle; solve [auto with descends] ].

Ltac tame_auto := steps_walk tame_refl tame_trans ltac:(tame_leaf).

Lemma tame_delete_comment cfg env ses bid cid :
  steps tame (delete_comment cfg env ses bid cid).
Proof. unfold delete_comment. tame_auto. Qed.

Lemma tame_name_bottle cfg env ses id name :
  steps tame (name_bottle cfg env ses id name).
Proof. unfold name_bottle. tame_auto. Qed.

Lemma tame_set_hot_bottle cfg ses id : steps tame (set_hot_bottle cfg ses id).
Proof. unfold set_hot_bottle. tame_auto. Qed.

Lemma tame_delete_invalid_comments cfg env ses start end_ :
  steps tame (delete_invalid_comments cfg env ses start end_).
Proof. unfold delete_invalid_comments. tame_auto. Qed.

Lemma linked_run cfg display env c w :
  ~ purges_bottles c ->
  sound (store w) ->
  linked (store w) ->
  linked (store (run cfg display env c w).2).
Proof.
  intros Hc [Hwf _] Hlinked.
  destruct c as [r| | | | |]; cbn [run]; rewrite bind_run; cbn [ret snd].
  - destruct r; cbn [handle].
    + destruct (throw_bottle_store cfg env ses title message w Hwf)
        as [->|[kept Hthrown]]; [exact Hlinked|].
      eapply linked_thrown; eassumption.
    + rewrite reads_draw_bottle. exact Hlinked.
    + apply linked_comment_bottle; assumption.
    + apply linked_delete_bottle, Hlinked.
    + eapply linked_tame; [apply tame_delete_comment | exact Hlinked].
    + apply linked_delete_expired, Hlinked.
    + contradiction Hc. exact Logic.I.
    + eapply linked_tame; [apply tame_name_bottle | exact Hlinked].
    + eapply linked_tame; [apply tame_set_hot_bottle | exact Hlinked].
  - eapply linked_tame; [apply tame_delete_invalid_comments | exact Hlinked].
  - unfold my_bottles. rewrite reads_list_bottles. exact Hlinked.
  - assert (reads (user_bottles cfg ses list user page)) as ->
      by (unfold user_bottles; reads_auto).
    exact Hlinked.
  - assert (reads (bottle_index display page)) as ->
      by (unfold bottle_index; reads_auto).
    exact Hlinked.
  - assert (reads (hot_bottles display page)) as ->
      by (unfold hot_bottles; reads_auto).
    exact Hlinked.
Qed.

(** X3.  Every comment belongs to a bottle of the table, and stays so:
    in a store whose ids are sound and whose comments each have their
    bottle, any sequence of commands in which the audit of the bottles
    (删除无效瓶子) does not occur ends in such a store.  Throwing,
    drawing, commenting, the two deletions, the expiry sweep, the audit
    of the comments, naming, featuring and the lists all keep a comment
    with its bottle, whatever the transport does and whenever the plugin
    is disposed. *)
Theorem comments_keep_their_bottle (cfg : Config) (display : Display) (env : Env)
    (cs : list Command) (w : World) :
  Forall (fun c => ~ purges_bottles c) cs ->
  sound (store w) ->
  linked (store w) ->
  sound (store (run_all cfg display env cs w).2)
  /\ linked (store (run_all cfg display env cs w).2).
Proof.
  intros Hcs. revert w. induction Hcs as [|c cs Hc Hcs IH]; intros w Hsound Hlinked.
  - split; assumption.
  - simpl. rewrite !bind_run. cbn [ret snd]. apply IH.
    + apply (steps_run (preserves sound) sound_respected cfg display env c w Hsound).
    + apply linked_run; assumption.
Qed.

Lemma comments_keep_their_bottle_in_a_day :
  linked (store (run_all example_cfg example_display healthy
                   [Ask (Throw alice None (Some "hello"));
                    Ask (CommentOn bob false 0 1 (Some "nice"));
                    Ask (Throw bob (Some "tea") (Some "green"));
                    Ask (DeleteExpired admin (Some 3));
                    DeleteInvalidComments admin None None;
                    Ask (DeleteBottle alice 1)]
                   (initial_world empty_store)).2).
Proof.
  apply (comments_keep_their_bottle example_cfg example_display healthy).
  - repeat constructor; simpl; tauto.
  - split; [split; intros x Hx; inversion Hx | split; constructor].
  - intros c Hc. inversion Hc.
Defined.

(** ** Throwing, drawing by number, deleting *)

(** The answers with which a throw is turned down before it creates its
    row. *)
Ltac not_listed H :=
  repeat (apply elem_of_cons in H as [H|H]; [discriminate H|]);
  apply elem_of_nil in H; contradiction.




Lemma thrown_lookup cfg ses title s c s' :
  well_formed s ->
  thrown cfg ses title s (Some c) s' ->
  get_bottle (fun b => Bottle.id b = bottle_seq s + 1) s'
  = [thrown_row cfg ses title (bottle_seq s + 1) c].
Proof.
  intros [Hwf _] (_ & _ & _ & Hb). unfold get_bottle. rewrite Hb, filter_app.
  rewrite filter_none by (intros b Hin; specialize (Hwf b Hin); lia).
  simpl. rewrite filter_cons_True by reflexivity. reflexivity.
Qed.

(** X5.  A throw that answers with the number of its bottle has put
    exactly one row into the store and changed nothing else: previews
    are off, the number is the next id of the table, above the id of
    every row, the new row is the last of the table and the only one of
    that number, it carries the title (or none), the user the bottle is
    attributed to, the guild, the channel, the user name and the day of
    the session, no comment and no feature mark, and a content within the
    length limit, which is the content as it was given when assets are
    left remote. *)
Theorem accepted_throw_adds_its_row (cfg : Config) (env : Env) (ses : Session)
    (title message : option string) (w w1 : World) (id : Z) :
  well_formed (store w) ->
  throw_bottle cfg env ses title message w = (BottleThrown id, w1) ->
  preview cfg = false
  /\ id = bottle_seq (store w) + 1
  /\ (forall b, b ∈ bottles (store w) -> Bottle.id b < id)
  /\ exists c,
       strlen c <= maxLength cfg
       /\ (saveMode cfg = SaveUrl -> c = given_content cfg ses message)
       /\ bottles (store w1) = bottles (store w) ++ [thrown_row cfg ses title id c]
       /\ get_bottle (fun b => Bottle.id b = id) (store w1)
          = [thrown_row cfg ses title id c]
       /\ comments (store w1) = comments (store w)
       /\ comment_seq (store w1) = comment_seq (store w).
Proof.
  intros Hwf Hthrow.
  pose proof (throw_bottle_cases cfg env ses title message w Hwf) as Hcases.
  rewrite Hthrow in Hcases. cbn [fst snd] in Hcases.
  destruct Hcases as (Hpreview & -> & c & Hlen & Hurl & Hthrown).
  split; [exact Hpreview|]. split; [reflexivity|]. split.
  - intros b Hin. destruct Hwf as [Hwf _]. specialize (Hwf b Hin). lia.
  - exists c. split; [exact Hlen|]. split; [exact Hurl|].
    pose proof (thrown_lookup _ _ _ _ _ _ Hwf Hthrown) as Hlookup.
    destruct Hthrown as (Hc & Hcs & _ & Hb). auto.
Qed.

Lemma accepted_throw_of_alice :
  bottles (store (throw_bottle no_preview healthy alice (Some "tea")
                    (Some "green") fresh_bottle).2)
  = bottles (store fresh_bottle)
    ++ [Bottle.mk 2 "tea" "alice" "g1" "c1" "Alice" "green" 0 (Num 0) 100].
Proof.
  assert (well_formed (store fresh_bottle)) as Hfresh.
  { split; intros x Hx; simpl in Hx.
    - apply list_elem_of_singleton in Hx as ->. simpl. lia.
    - inversion Hx. }
  assert (exists w1, throw_bottle no_preview healthy alice (Some "tea")
                       (Some "green") fresh_bottle = (BottleThrown 2, w1))
    as [w1 Hthrow] by (eexists; vm_compute; reflexivity).
  destruct (accepted_throw_adds_its_row no_preview healthy alice (Some "tea")
              (Some "green") fresh_bottle w1 2 Hfresh Hthrow)
    as (_ & _ & _ & c & _ & Hc & Hb & _).
  rewrite Hthrow. cbn [snd]. rewrite Hb, (Hc eq_refl). reflexivity.
Defined.

(** With a transport that delivers, the draw loop over a single bottle
    ends in its first turn: the bottle is shown in the channel of the
    caller, and the handle of the message is kept with the id of the
    bottle. *)
Lemma draw_single_run cfg env ses page b w :
  (forall n, send_ok env n = true) ->
  exists w',
    retrying cfg env (retry_budget cfg) 0 (draw_once cfg env ses page [b]) (ret tt) w
    = (Finished (inr tt), w')
    /\ store w' = store w
    /\ files w' = files w
    /\ (exists m rest, outbox w' = outbox w ++ Sent (channelId ses) m :: rest
                       /\ shows b m)
    /\ bottleMap w' !! S (clock w) = Some (Bottle.id b).
Proof.
  intros Hsend.
  assert (exists w', draw_once cfg env ses page [b] w = (Some (inr tt), w')
                     /\ store w' = store w
                     /\ files w' = files w
                     /\ (exists m rest,
                           outbox w' = outbox w ++ Sent (channelId ses) m :: rest
                           /\ shows b m)
                     /\ bottleMap w' !! S (clock w) = Some (Bottle.id b))
    as (w' & Hrun & Hrest).
  { unfold draw_once, Random_int. rewrite !bind_run.
    cbn [tick ret fst snd length]. rewrite Nat.mod_1_r. cbn [lookup list_lookup].
    rewrite !bind_run. cbn [read_store fst snd].
    unfold send_bottle. destruct (messageRecord cfg).
    - rewrite !bind_run, sendMessage_delivers by apply Hsend.
      cbn. eexists. split; [reflexivity|]. cbn.
      repeat split; [eexists _, _; split; reflexivity | apply lookup_insert_eq].
    - rewrite !bind_run, sendMessage_delivers by apply Hsend.
      cbn [fst snd]. rewrite !bind_run. cbn [bottleMap_set fst snd].
      destruct (has_av (Bottle.content b)).
      + rewrite !bind_run, sendMessage_delivers by apply Hsend.
        cbn. eexists. split; [reflexivity|]. cbn.
        repeat split.
        * eexists _, _. split; [rewrite <- app_assoc; reflexivity | reflexivity].
        * rewrite lookup_insert_ne by lia. apply lookup_insert_eq.
      + cbn. eexists. split; [reflexivity|]. cbn.
        repeat split; [eexists _, _; split; reflexivity | apply lookup_insert_eq]. }
  exists w'. split; [|exact Hrest].
  unfold retry_budget. apply retrying_first, Hrun.
Qed.




(** X7.  A bottle that was thrown can be taken back, when its files are
    there.  Take a store in which no id is beyond the counter of its
    table and every comment has its bottle, and a throw that answered
    with the number of its bottle.  Then 删除瓶子 with that number by a
    manager or by the user the bottle is attributed to does one of two
    things.  When every media element of the content that was kept has a
    [src] and every local asset of it is on disk and named once, the
    answer is "deleted" and the bottle table and the comment table are
    exactly as they were before the throw.  Otherwise [unlinkSync] throws
    before a row is removed: the handler ends with an exception and the
    tables stay as the throw left them, the bottle included.  Anybody
    else is refused, and then nothing changes.  The bottle is attributed
    to the caller of the throw, unless that caller threw a quoted message
    and [selfDrop] is off: then it is attributed to the author of the
    quoted message, and a caller who is no manager cannot take back what
    they threw. *)
Theorem thrower_can_take_the_bottle_back (cfg : Config) (env : Env)
    (ses : Session) (title message : option string) (w w1 : World) (id : Z) :
  well_formed (store w) ->
  linked (store w) ->
  throw_bottle cfg env ses title message w = (BottleThrown id, w1) ->
  (forall ses',
     is_manager cfg (userId ses') \/ userId ses' = thrower cfg ses ->
     let r := delete_bottle cfg env ses' id w1 in
     (unlinkable env (contents_of (store w1) id) (files w1) ->
      r.1 = BottleDeleted
      /\ bottles (store r.2) = bottles (store w)
      /\ comments (store r.2) = comments (store w))
     /\ (~ unlinkable env (contents_of (store w1) id) (files w1) ->
         r.1 = Uncaught /\ store r.2 = store w1))
  /\ (forall ses',
        ~ is_manager cfg (userId ses') -> userId ses' <> thrower cfg ses ->
        delete_bottle cfg env ses' id w1 = (NotYourBottle, w1))
  /\ (quote ses = None \/ selfDrop cfg = true -> thrower cfg ses = userId ses)
  /\ (forall q, quote ses = Some q -> selfDrop cfg = false ->
                thrower cfg ses = quote_user q).
Proof.
  intros Hwf Hlinked Hthrow.
  pose proof (throw_bottle_cases cfg env ses title message w Hwf) as Hcases.
  rewrite Hthrow in Hcases. cbn [fst snd] in Hcases.
  destruct Hcases as (_ & -> & c & _ & _ & Hthrown).
  pose proof (thrown_lookup _ _ _ _ _ _ Hwf Hthrown) as Hlookup.
  destruct Hthrown as (Hc & _ & _ & Hb). cbn [from_option] in Hb.
  split; [|split; [|split]].
  - intros ses' Hmay r. subst r.
    destruct (delete_bottle_permitted cfg env ses' _ w1 _ [] Hlookup Hmay)
      as [Hdone Hthrown].
    split.
    + intros Hloose. rewrite (Hdone Hloose).
      cbn [fst snd store bottles comments remove_comment remove_bottle].
      split; [reflexivity|]. split.
      * rewrite Hb, filter_app. destruct Hwf as [Hwf _].
        rewrite filter_all by (intros b Hin; specialize (Hwf b Hin); lia).
        rewrite filter_cons_False by (simpl; tauto). apply app_nil_r.
      * rewrite Hc. apply filter_all. intros x Hin Hbid.
        specialize (Hlinked x Hin).
        apply list_elem_of_fmap in Hlinked as (b & Hid & Hbin).
        destruct Hwf as [Hwf _]. specialize (Hwf b Hbin). lia.
    + intros Hstuck. destruct (Hthrown Hstuck) as (Hreply & Hs & _).
      split; [exact Hreply | exact Hs].
  - intros ses' Hm Ho.
    apply (delete_bottle_denied cfg env ses' _ w1 _ [] Hlookup Hm). exact Ho.
  - unfold thrower. intros [Hquote|Hself].
    + rewrite Hquote. destruct (selfDrop cfg); reflexivity.
    + rewrite Hself. reflexivity.
  - intros q Hquote Hself. unfold thrower. rewrite Hself, Hquote. reflexivity.
Qed.

Lemma alice_takes_her_bottle_back :
  bottles (store (serve no_preview healthy
                    [Throw alice (Some "tea") (Some "green"); DeleteBottle alice 2]
                    fresh_bottle).2)
  = bottles (store fresh_bottle).
Proof.
  assert (well_formed (store fresh_bottle)) as Hfresh.
  { split; intros x Hx; simpl in Hx.
    - apply list_elem_of_singleton in Hx as ->. simpl. lia.
    - inversion Hx. }
  assert (linked (store fresh_bottle)) as Hlinked
    by (intros c Hc; inversion Hc).
  assert (exists w1, throw_bottle no_preview healthy alice (Some "tea")
                       (Some "green") fresh_bottle = (BottleThrown 2, w1))
    as [w1 Hthrow] by (eexists; vm_compute; reflexivity).
  destruct (thrower_can_take_the_bottle_back no_preview healthy alice (Some "tea")
              (Some "green") fresh_bottle w1 2 Hfresh Hlinked Hthrow)
    as (Hback & _).
  destruct (Hback alice (or_intror eq_refl)) as [Hdone _].
  destruct Hdone as (_ & Hb & _).
  { injection Hthrow as <-. compute_done. }
  rewrite !serve_cons. cbn [handle serve ret snd]. rewrite Hthrow. exact Hb.
Defined.

(** ** Naming a bottle, and drawing it by its name *)

Lemma name_bottle_run cfg env ses id name w first rest :
  get_bottle (fun b => Bottle.id b = id) (store w) = first :: rest ->
  Bottle.uid first = userId ses \/ is_manager cfg (userId ses) ->
  isNaN (to_number env name) = true ->
  name_bottle cfg env ses id name w
  = (Renamed,
     mkWorld (set_bottle (fun b => Bottle.id b = id) (Bottle.with_name name) (store w))
       (files w) (bottleMap w) (clock w) (outbox w)).
Proof.
  intros Hfirst Hmay Hname. unfold name_bottle. rewrite bind_run.
  unfold read_store. cbn [fst snd]. rewrite Hfirst, Hname.
  rewrite (proj2 (may_act _ _)) by exact Hmay. reflexivity.
Qed.

Lemma regex_test_compiles env pattern name :
  regex_test env pattern name = true -> regex env pattern <> None.
Proof. unfold regex_test. destruct (regex env pattern); [discriminate|congruence]. Qed.

Lemma first_page_of_one {A} (size : Z) (x : A) :
  0 <= size ->
  page_of (limit_of size) (offset_of size None) [x] = [x].
Proof.
  intros Hsize. unfold page_of, limit_of, offset_of.
  destruct (decide (size <> 0)) as [Hnz|]; [|reflexivity].
  unfold page_or_1. cbn [default]. replace ((1 - 1) * size) with 0 by lia.
  change (Z.to_nat 0) with 0%nat. cbn [drop].
  apply take_ge. cbn [length]. lia.
Qed.

(** X10.  命名瓶子 by the thrower of the bottle or by a manager.  A name
    that reads as a number is turned down and nothing changes.  Any
    other name is given to the rows of that id and to no other row,
    nothing else of any row changes, the comments stay, and nothing is
    sent.  If the name, taken as a pattern, matches itself and matches
    the name of no other bottle, then in a store with distinct ids a
    draw by that name (first page, a page size that is not negative, a
    transport that delivers) shows the bottle under its new name. *)
Theorem naming_makes_the_bottle_findable (cfg : Config) (env : Env)
    (ses : Session) (id : Z) (name : string) (w : World) (first : Bottle.t)
    (rest : list Bottle.t) :
  get_bottle (fun b => Bottle.id b = id) (store w) = first :: rest ->
  Bottle.uid first = userId ses \/ is_manager cfg (userId ses) ->
  let r := name_bottle cfg env ses id name w in
  (isNaN (to_number env name) = false -> r = (NameIsNumber, w))
  /\ (isNaN (to_number env name) = true ->
      r.1 = Renamed
      /\ bottles (store r.2)
         = map (fun b => if decide (Bottle.id b = id)
                         then Bottle.with_name name b else b) (bottles (store w))
      /\ comments (store r.2) = comments (store w)
      /\ outbox r.2 = outbox w
      /\ (name <> "" ->
          regex_test env name name = true ->
          (forall b, b ∈ bottles (store w) -> Bottle.id b <> id ->
                     regex_test env name (Bottle.name b) = false) ->
          NoDup (map Bottle.id (bottles (store w))) ->
          0 <= bottleLimit cfg ->
          (forall n, send_ok env n = true) ->
          forall ses',
            (draw_bottle cfg env ses' (Some name) None r.2).1 = Silent
            /\ exists m rest',
                 outbox (draw_bottle cfg env ses' (Some name) None r.2).2
                 = outbox w ++ Sent (channelId ses') m :: rest'
                 /\ shows (Bottle.with_name name first) m)).
Proof.
  intros Hfirst Hmay r. subst r. split.
  - intros Hname. unfold name_bottle. rewrite bind_run.
    unfold read_store. cbn [fst snd]. rewrite Hfirst, Hname.
    rewrite (proj2 (may_act _ _)) by exact Hmay. reflexivity.
  - intros Hname. rewrite (name_bottle_run cfg env ses id name w first rest Hfirst Hmay Hname).
    cbn [fst snd store bottles comments outbox set_bottle].
    split; [reflexivity|]. split; [reflexivity|]. split; [reflexivity|].
    split; [reflexivity|].
    intros Hnonempty Hself Hothers Hnodup Hlimit Hsend ses'.
    assert (first ∈ bottles (store w) /\ Bottle.id first = id) as [Hin Hid].
    { assert (first ∈ get_bottle (fun b => Bottle.id b = id) (store w)) as H
        by (rewrite Hfirst; left).
      unfold get_bottle in H. apply list_elem_of_filter in H. tauto. }
    match goal with
    | |- context [draw_bottle cfg env ses' (Some name) None ?w1] => set (w1' := w1)
    end.
    assert (filter (name_matches env name) (bottles (store w1'))
            = [Bottle.with_name name first]) as Hmatch.
    { subst w1'. cbn [store bottles set_bottle]. clear Hfirst.
      induction (bottles (store w)) as [|b l IH]; [inversion Hin|].
      simpl in Hnodup. apply NoDup_cons in Hnodup as [Hfresh Hnodup].
      cbn [map]. apply elem_of_cons in Hin as [<-|Hin].
      - rewrite decide_True by exact Hid.
        rewrite filter_cons_True by exact Hself. f_equal.
        apply filter_none. intros b' Hb'.
        apply list_elem_of_fmap in Hb' as (b0 & -> & Hb0).
        assert (Bottle.id b0 <> id) as Hne.
        { intros Heq. apply Hfresh. rewrite Hid, <- Heq.
          apply list_elem_of_fmap. eauto. }
        rewrite decide_False by exact Hne. unfold name_matches.
        rewrite (Hothers b0) by (try right; assumption). discriminate.
      - assert (Bottle.id b <> id) as Hne.
        { intros Heq. apply Hfresh. rewrite Heq, <- Hid.
          apply list_elem_of_fmap. eauto. }
        rewrite decide_False by exact Hne.
        rewrite filter_cons_False
          by (unfold name_matches; rewrite (Hothers b) by (try left; assumption);
              discriminate).
        apply IH; [| exact Hnodup | exact Hin].
        intros b' Hb'. apply Hothers. right. exact Hb'. }
    unfold draw_bottle. rewrite bind_run.
    rewrite (find_by_pattern cfg env name None w1' Hnonempty Hname
               (regex_test_compiles env name name Hself)).
    cbn zeta. unfold select_bottle. rewrite Hmatch.
    replace (merge_sort by_id [Bottle.with_name name first])
      with [Bottle.with_name name first] by reflexivity.
    rewrite first_page_of_one by exact Hlimit.
    cbn [length]. rewrite decide_False by lia. rewrite decide_False by lia.
    cbn [fst snd]. rewrite bind_run.
    destruct (draw_single_run cfg env ses' None (Bottle.with_name name first) w1' Hsend)
      as (w2 & -> & _ & _ & Hout & _).
    cbn. split; [reflexivity | exact Hout].
Qed.

Lemma bob_names_his_bottle :
  (draw_bottle example_cfg healthy alice (Some "tea") None
     (name_bottle example_cfg healthy bob 1 "tea" fresh_bottle).2).1 = Silent.
Proof.
  destruct (naming_makes_the_bottle_findable example_cfg healthy bob 1 "tea"
              fresh_bottle
              (Bottle.mk 1 "" "bob" "g1" "c1" "Bob" "hello" 0 (Num 0) 100) []
              eq_refl (or_introl eq_refl)) as [_ Hnamed].
  destruct (Hnamed eq_refl) as (_ & _ & _ & _ & Hdraw).
  apply Hdraw.
  - discriminate.
  - reflexivity.
  - intros b Hb Hid. simpl in Hb. apply list_elem_of_singleton in Hb as ->.
    contradiction Hid. reflexivity.
  - simpl. apply NoDup_singleton.
  - simpl. lia.
  - intros n. reflexivity.
Defined.

(** ** Featuring a bottle, and the list of the featured *)

Lemma hot_bottles_run display page w :
  hot_bottles display page w
  = (HotList
       (map (fun b => (Bottle.id b,
                       if decide (Bottle.isHot b <> 0) then ByManager
                       else ByComments (Bottle.commentCount b),
                       Bottle.name b))
          (select_bottle (is_hot (hotThresholdValue display))
             (limit_of (hotBottleLimit display))
             (offset_of (hotBottleLimit display) page) (store w)))
       (page_or_1 page)
       (page_count (length (get_bottle (is_hot (hotThresholdValue display)) (store w)))
          (hotBottleLimit display)), w).
Proof. reflexivity. Qed.

Lemma select_bottle_unlimited (P : Bottle.t -> Prop) `{!forall b, Decision (P b)}
    page s :
  select_bottle P (limit_of 0) (offset_of 0 page) s ≡ₚ filter P (bottles s).
Proof.
  unfold select_bottle, limit_of, offset_of.
  rewrite !decide_False by (intros Hne; apply Hne; reflexivity).
  rewrite page_of_unlimited. apply merge_sort_Permutation.
Qed.

(** X11.  设置精选瓶子 by a manager, on the id of a bottle of the table:
    the answer is "done", the rows of that id get the feature mark and
    nothing else of any row changes, the comments stay.  From then on
    精选瓶子, when it is not paginated, lists the bottle with its name as
    the choice of a manager, whatever the threshold and however few
    comments the bottle has. *)
Theorem featuring_puts_the_bottle_on_the_list (cfg : Config) (ses : Session)
    (b : Bottle.t) (w : World) :
  is_manager cfg (userId ses) ->
  b ∈ bottles (store w) ->
  let r := set_hot_bottle cfg ses (Bottle.id b) w in
  r.1 = Featured
  /\ bottles (store r.2)
     = map (fun x => if decide (Bottle.id x = Bottle.id b)
                     then Bottle.with_isHot 1 x else x) (bottles (store w))
  /\ comments (store r.2) = comments (store w)
  /\ forall display page,
       hotBottleLimit display = 0 ->
       exists rows pages,
         hot_bottles display page r.2 = (HotList rows (page_or_1 page) pages, r.2)
         /\ (Bottle.id b, ByManager, Bottle.name b) ∈ rows.
Proof.
  intros Hmanager Hin r.
  assert (set_hot_bottle cfg ses (Bottle.id b) w
          = (Featured,
             mkWorld (set_bottle (fun x => Bottle.id x = Bottle.id b)
                        (Bottle.with_isHot 1) (store w))
               (files w) (bottleMap w) (clock w) (outbox w))) as Hrun.
  { unfold set_hot_bottle. rewrite bind_run. unfold read_store. cbn [fst snd].
    destruct (get_bottle _ (store w)) as [|first rest] eqn:Hrows.
    - exfalso. assert (b ∈ get_bottle (fun x => Bottle.id x = Bottle.id b) (store w)) as H
        by (unfold get_bottle; apply list_elem_of_filter; auto).
      rewrite Hrows in H. inversion H.
    - rewrite bool_decide_eq_false_2 by tauto. reflexivity. }
  subst r. rewrite Hrun. cbn [fst snd store bottles comments set_bottle].
  split; [reflexivity|]. split; [reflexivity|]. split; [reflexivity|].
  intros display page Hlimit. rewrite hot_bottles_run. eexists _, _.
  split; [reflexivity|].
  apply list_elem_of_fmap. exists (Bottle.with_isHot 1 b).
  split; [reflexivity|]. rewrite Hlimit.
  rewrite select_bottle_unlimited. apply list_elem_of_filter. split.
  - left. reflexivity.
  - cbn [store bottles]. apply list_elem_of_fmap. exists b.
    rewrite decide_True by reflexivity. auto.
Qed.

Lemma admin_features_the_bottle_of_bob :
  (hot_bottles example_display None
     (set_hot_bottle example_cfg admin 1 fresh_bottle).2).1
  = HotList [(1, ByManager, "")] 1 InfinitePages.
Proof.
  destruct (featuring_puts_the_bottle_on_the_list example_cfg admin
              (Bottle.mk 1 "" "bob" "g1" "c1" "Bob" "hello" 0 (Num 0) 100)
              fresh_bottle) as (_ & _ & _ & Hlist).
  - left.
  - left.
  - destruct (Hlist example_display None eq_refl) as (rows & pages & Hrun & _).
    reflexivity.
Defined.

(** ** Comments that are turned down *)

Lemma comment_check_rejects_in_place cfg env ses root rid id ct w :
  match comment_check cfg env ses root rid id ct w with
  | (inl _, w') => w' = w
  | (inr _, _) => True
  end.
Proof.
  unfold comment_check. rewrite bind_run. cbn [read_store fst snd].
  destruct (get_bottle _ (store w)) as [|bottle rows]; [reflexivity|].
  rewrite bind_run.
  destruct (decide (rid > 0)); [rewrite bind_run|]; cbn [ret fst snd].
  1: destruct (head _); [|reflexivity].
  all: cbn [mjoin option_join mbind option_bind].
  all: destruct (_ && _); [reflexivity|].
  all: destruct ct as [ct|]; [|reflexivity].
  all: destruct (_ || _); [reflexivity|].
  all: destruct (decide (_ > _)); [reflexivity|].
  all: destruct (decide (_ < 1)); [reflexivity|].
  all: rewrite bind_run; exact Logic.I.
Qed.

Lemma comment_check_rejects cfg env ses root rid id ct w a :
  (comment_check cfg env ses root rid id ct w).1 = inl a ->
  (comment_check cfg env ses root rid id ct w).2 = w.
Proof.
  pose proof (comment_check_rejects_in_place cfg env ses root rid id ct w) as H.
  destruct (comment_check cfg env ses root rid id ct w) as [[a'|x] w'];
    cbn [fst snd]; [intros _; exact H | discriminate].
Qed.

Lemma comment_after_check cfg env ses id uid ct :
  answers (fun a => a ∈ [OutOfFuel; Silent; Uncaught])
    (let* inserted := comment_insert cfg env ses id uid ct in
     match inserted with
     | inl answer => ret answer
     | inr cid => comment_preview cfg env ses id cid ct
     end).
Proof.
  eapply (answers_bind
            (fun r => match r with
                      | inl a => a ∈ [OutOfFuel; Silent; Uncaught]
                      | inr _ => True
                      end)).
  - unfold comment_insert.
    answers_auto; first [exact Logic.I | repeat first [left | right]].
  - intros [a|cid] Ha; [apply answers_ret; exact Ha|].
    unfold comment_preview. answers_auto; repeat first [left | right].
Qed.

(** X12.  The checks of a comment come before its row and before any
    reminder.  Whenever 评论瓶子 answers that the bottle or the comment to
    answer does not exist, that there is no content, that audio and
    video are not supported, or that the content is too long or too
    short, it returns in the world it started from: no row, no number
    taken, no reminder sent.  In particular a comment that is too long
    leaves nothing behind.  A comment with a quoted message and no text
    ends in an exception, in the world it started from: the text of the
    quoted message is not taken for the comment. *)
Theorem rejected_comment_leaves_no_trace (cfg : Config) (env : Env)
    (ses : Session) (root : bool) (rid id : Z) (ct : option string) (w : World) :
  let r := comment_bottle cfg env ses root rid id ct w in
  (r.1 ∈ [NoBottleToComment; NoCommentToAnswer; ContentMissing;
          NoMediaInComments; TooLong; TooShort] -> r.2 = w)
  /\ (get_bottle (fun b => Bottle.id b = id) (store w) = [] ->
      r = (NoBottleToComment, w))
  /\ (get_bottle (fun b => Bottle.id b = id) (store w) <> [] ->
      rid <= 0 ->
      (falsy ct = true -> quote ses = None -> r = (ContentMissing, w))
      /\ (ct = None -> quote ses <> None -> r = (Uncaught, w))
      /\ (forall text,
            ct = Some text -> text <> "" -> allowPic cfg = true ->
            includes "<audio " text || includes "<video " text = false ->
            strlen text > maxLength cfg ->
            r = (TooLong, w))).
Proof.
  intros r. subst r. split; [|split].
  - unfold comment_bottle. rewrite bind_run.
    pose proof (comment_check_rejects cfg env ses root rid id ct w) as Hcheck.
    destruct (comment_check cfg env ses root rid id ct w) as [[a|[uid text]] w1];
      cbn [fst snd] in *.
    + intros _. apply (Hcheck a). reflexivity.
    + intros Hin. exfalso.
      pose proof (comment_after_check cfg env ses id uid text w1) as Hafter.
      cbn beta in Hafter.
      destruct ((let* inserted := comment_insert cfg env ses id uid text in
                 match inserted with
                 | inl answer => ret answer
                 | inr cid => comment_preview cfg env ses id cid text
                 end) w1) as [a w2].
      cbn [fst] in *.
      repeat (apply elem_of_cons in Hafter as [->|Hafter]; [not_listed Hin|]).
      inversion Hafter.
  - apply comment_bottle_missing.
  - intros Hrows Hrid. unfold comment_bottle. rewrite bind_run.
    destruct (get_bottle (fun b => Bottle.id b = id) (store w))
      as [|bottle rows] eqn:Hbottle; [congruence|]. clear Hrows.
    assert (forall a,
              (if falsy ct && bool_decide (quote ses = None)
               then Some ContentMissing
               else match ct with
                    | None => Some Uncaught
                    | Some text =>
                        let text := if allowPic cfg then text else strip_tags text in
                        if includes "<audio " text || includes "<video " text
                        then Some NoMediaInComments
                        else if decide (strlen text > maxLength cfg)
                             then Some TooLong
                             else None
                    end) = Some a ->
              comment_check cfg env ses root rid id ct w = (inl a, w)) as Hcheck.
    { intros a. unfold comment_check. rewrite bind_run. cbn [read_store fst snd].
      rewrite Hbottle. rewrite bind_run. rewrite decide_False by lia.
      cbn [ret fst snd].
      destruct (_ && _); [intros [= <-]; reflexivity|].
      destruct ct as [text|]; [|intros [= <-]; reflexivity].
      cbn zeta. destruct (_ || _); [intros [= <-]; reflexivity|].
      destruct (decide (_ > _)); [intros [= <-]; reflexivity | discriminate]. }
    split; [|split].
    + intros Hct Hquote. rewrite (Hcheck ContentMissing); [reflexivity|].
      rewrite Hct, Hquote, (bool_decide_eq_true_2 _ eq_refl). reflexivity.
    + intros -> Hquote. rewrite (Hcheck Uncaught); [reflexivity|].
      rewrite bool_decide_eq_false_2 by exact Hquote.
      rewrite andb_false_r. reflexivity.
    + intros text -> Htext Hpic Hav Hlong. rewrite (Hcheck TooLong); [reflexivity|].
      assert (falsy (Some text) = false) as ->
        by (destruct text; [congruence | reflexivity]).
      cbn [andb]. cbn zeta. rewrite Hpic, Hav. rewrite decide_True by exact Hlong.
      reflexivity.
Qed.

Lemma rejected_comments_of_alice :
  comment_bottle example_cfg healthy alice false 0 7 (Some "nice") fresh_bottle
  = (NoBottleToComment, fresh_bottle)
  /\ comment_bottle example_cfg healthy alice false 0 1 None fresh_bottle
     = (ContentMissing, fresh_bottle)
  /\ comment_bottle example_cfg healthy alice false 0 1
       (Some "far too long a comment") fresh_bottle
     = (TooLong, fresh_bottle).
Proof.
  split; [|split].
  - apply (rejected_comment_leaves_no_trace example_cfg healthy alice false 0 7
             (Some "nice") fresh_bottle). reflexivity.
  - apply (rejected_comment_leaves_no_trace example_cfg healthy alice false 0 1
             None fresh_bottle); [discriminate | lia | reflexivity | reflexivity].
  - apply (rejected_comment_leaves_no_trace example_cfg healthy alice false 0 1
             (Some "far too long a comment") fresh_bottle)
      with (text := "far too long a comment");
      [discriminate | lia | reflexivity | discriminate | reflexivity
      | reflexivity | reflexivity].
Defined.
(** The length of a comment is counted in UTF-16 code units: four Chinese
    characters, twelve bytes of UTF-8, pass a limit of ten and are
    stored; eleven of them do not pass. *)
Example comment_length_is_in_code_units :
  strlen "你好世界" = 4
  /\ (let r := comment_bottle example_cfg healthy alice false 0 1
                 (Some "你好世界") fresh_bottle in
      r.1 = Silent
      /\ map Comment.content (comments (store r.2)) = ["“你好世界”"])
  /\ comment_bottle example_cfg healthy alice false 0 1
       (Some "你好世界你好世界你好世") fresh_bottle
     = (TooLong, fresh_bottle).
Proof. repeat split; vm_compute; reflexivity. Qed.


(** ** What a comment says *)






(** ** Who is told of a comment *)




(** ** Runs from a given store *)

Lemma from_ret s {A} (Q : A -> Store -> Prop) (a : A) : Q a s -> from s Q (ret a).
Proof. intros HQ w <-. exact HQ. Qed.

Lemma from_bind s {A B} (Q1 : A -> Store -> Prop) (Q : B -> Store -> Prop)
    (m : M A) (k : A -> M B) :
  from s Q1 m ->
  (forall a s1, Q1 a s1 -> from s1 Q (k a)) ->
  from s Q (bind m k).
Proof.
  intros Hm Hk w Hw. rewrite bind_run.
  apply (Hk (m w).1 (store (m w).2)); [apply Hm, Hw | reflexivity].
Qed.

Lemma from_reads s {A B} (Q : B -> Store -> Prop) (m : M A) (k : A -> M B) :
  reads m ->
  (forall a, from s Q (k a)) ->
  from s Q (bind m k).
Proof.
  intros Hm Hk. apply (from_bind s (fun _ s1 => s1 = s)).
  - intros w <-. apply Hm.
  - intros a s1 ->. apply Hk.
Qed.

Lemma from_answers s {A B} (P : A -> Prop) (Q : B -> Store -> Prop)
    (m : M A) (k : A -> M B) :
  reads m ->
  answers P m ->
  (forall a, P a -> from s Q (k a)) ->
  from s Q (bind m k).
Proof.
  intros Hm HP Hk. apply (from_bind s (fun a s1 => P a /\ s1 = s)).
  - intros w <-. split; [apply HP | apply Hm].
  - intros a s1 [Ha ->]. apply Hk, Ha.
Qed.

Lemma from_read_store s {A B} (Q : B -> Store -> Prop) (f : Store -> A)
    (k : A -> M B) :
  from s Q (k (f s)) ->
  from s Q (bind (read_store f) k).
Proof.
  intros Hk. apply (from_bind s (fun a s1 => a = f s /\ s1 = s)).
  - intros w <-. split; reflexivity.
  - intros a s1 [-> ->]. exact Hk.
Qed.

Lemma from_with_store s {B} (Q : B -> Store -> Prop) (f : Store -> Store)
    (k : unit -> M B) :
  from (f s) Q (k tt) ->
  from s Q (bind (with_store f) k).
Proof.
  intros Hk. apply (from_bind s (fun _ s1 => s1 = f s)).
  - intros w <-. reflexivity.
  - intros [] s1 ->. exact Hk.
Qed.

(** ** The audit of the bottles *)

(** The ids that the audit collects are ids of the bottles it was given. *)
Lemma audit_bottles_collects cfg env ses rows :
  forall brokenBottle,
    answers (fun r => match r with
                      | inl a => a = Silent \/ a = OutOfFuel
                      | inr broken =>
                          forall i, i ∈ broken ->
                                    i ∈ brokenBottle \/ i ∈ map Bottle.id rows
                      end)
      (audit_bottles cfg env ses rows brokenBottle).
Proof.
  induction rows as [|b rows IH]; intros brokenBottle; cbn [audit_bottles].
  - apply answers_ret. intros i Hi. left. exact Hi.
  - eapply answers_bind; [apply answers_any|]. intros sent _.
    destruct sent as [[|]| | |]; try (apply answers_ret; auto).
    + eapply answers_weaken; [|apply IH]. cbn beta.
      intros [a|broken] Hr; [exact Hr|]. intros i Hi.
      destruct (Hr i Hi) as [H|H]; [left; exact H|].
      right. cbn [map]. right. exact H.
    + eapply answers_weaken; [|apply IH]. cbn beta.
      intros [a|broken] Hr; [exact Hr|]. intros i Hi.
      destruct (Hr i Hi) as [H|H].
      * apply elem_of_app in H as [H|H]; [left; exact H|].
        apply list_elem_of_singleton in H as ->. right. left.
      * right. cbn [map]. right. exact H.
Qed.

Lemma delete_invalid_bottles_purges cfg env ses start end_ s :
  from s (purged_bottles (in_range start end_) s)
    (delete_invalid_bottles cfg env ses start end_).
Proof.
  unfold delete_invalid_bottles.
  destruct (decide (is_manager cfg (userId ses))); [|apply from_ret; reflexivity].
  destruct (_ && _); [apply from_ret; reflexivity|].
  destruct (js_gt start end_); [apply from_ret; reflexivity|].
  apply from_reads; [apply reads_session_send|]. intros _.
  apply from_reads; [apply reads_prompt|]. intros confirm.
  destruct (decide (confirm <> Some "是")); [apply from_ret; reflexivity|].
  apply from_reads; [apply reads_session_send|]. intros _.
  apply from_read_store.
  eapply from_answers;
    [apply reads_audit_bottles | apply (audit_bottles_collects cfg env ses _ [])|].
  intros [a|brokenBottle] Hcollect.
  - apply from_ret. destruct Hcollect as [-> | ->]; reflexivity.
  - destruct (decide (length brokenBottle = 0)%nat); [apply from_ret; reflexivity|].
    apply from_reads; [apply reads_session_send|]. intros _.
    apply from_reads; [apply reads_prompt|]. intros reply.
    destruct (decide (reply = Some "删除")); [|apply from_ret; reflexivity].
    apply from_with_store. apply from_ret. exists brokenBottle.
    split; [|reflexivity]. intros k Hk.
    destruct (Hcollect k Hk) as [H|H]; [inversion H|].
    apply list_elem_of_fmap in H as (b & -> & Hb).
    unfold get_bottle in Hb. apply list_elem_of_filter in Hb as [Hrange Hb].
    eauto.
Qed.

Lemma session_send_run n w :
  session_send n w
  = (tt, mkWorld (store w) (files w) (bottleMap w) (clock w) (outbox w ++ [Told n])).
Proof. reflexivity. Qed.

Lemma prompt_run env w :
  prompt env w
  = (prompted env (clock w),
     mkWorld (store w) (files w) (bottleMap w) (S (clock w)) (outbox w)).
Proof. reflexivity. Qed.

Lemma in_range_by_id start end_ b b' :
  Bottle.id b = Bottle.id b' -> in_range start end_ b -> in_range start end_ b'.
Proof. unfold in_range. intros ->. auto. Qed.

Lemma audit_bottles_healthy cfg env ses rows :
  (forall n, send_ok env n = true) ->
  (forall n, sleep_ok env n = true) ->
  forall brokenBottle w,
    exists w',
      audit_bottles cfg env ses rows brokenBottle w = (inr brokenBottle, w')
      /\ store w' = store w
      /\ outbox w'
         = outbox w ++ map (fun b => Sent (channelId ses) (AuditBottle b)) rows.
Proof.
  intros Hsend Hsleep. induction rows as [|b rows IH]; intros brokenBottle w.
  - exists w. cbn. rewrite app_nil_r. auto.
  - cbn [audit_bottles]. rewrite bind_run.
    assert (exists w1, audit_send env ses b w = (Some true, w1)
                       /\ store w1 = store w
                       /\ outbox w1 = outbox w ++ [Sent (channelId ses) (AuditBottle b)])
      as (w1 & Hattempt & Hstore & Hout).
    { unfold audit_send. rewrite bind_run, sendMessage_delivers by apply Hsend.
      cbn [fst snd]. unfold sleep. rewrite !bind_run. cbn [tick ret fst snd].
      rewrite Hsleep. eexists. split; [reflexivity|]. split; reflexivity. }
    unfold retry_budget. rewrite (retrying_first _ _ _ _ _ _ _ _ _ Hattempt).
    cbn [fst snd].
    destruct (IH brokenBottle w1) as (w' & -> & Hstore' & Hout').
    exists w'. split; [reflexivity|]. split; [congruence|].
    rewrite Hout', Hout, <- app_assoc. reflexivity.
Qed.

(** X15.  删除无效瓶子.  A caller who is no manager is refused, in the
    world as it was.  Whatever the transport and the caller answer, the
    audit touches no comment and adds no bottle, it leaves the store as
    it was unless it answers "deleted", and then every bottle whose id is
    outside the range that was asked for is still there.  With a
    transport that delivers, a manager who confirms gets every bottle of
    the range sent to the channel, once and in table order, after the
    warning and the notice that the audit runs; then the audit answers
    that nothing is unsendable, and the store is as it was. *)
Theorem audit_removes_only_bottles_in_range (cfg : Config) (env : Env)
    (ses : Session) (start end_ : option Z) (w : World) :
  let r := delete_invalid_bottles cfg env ses start end_ w in
  (~ is_manager cfg (userId ses) -> r = (AuditDenied, w))
  /\ (r.1 <> UnsendableDeleted -> store r.2 = store w)
  /\ comments (store r.2) = comments (store w)
  /\ (forall b, b ∈ bottles (store r.2) -> b ∈ bottles (store w))
  /\ (forall b, b ∈ bottles (store w) -> ~ in_range start end_ b ->
                b ∈ bottles (store r.2))
  /\ (is_manager cfg (userId ses) ->
      given start && bool_decide (end_ = None) = false ->
      js_gt start end_ = false ->
      prompted env (clock w) = Some "是" ->
      (forall n, send_ok env n = true) ->
      (forall n, sleep_ok env n = true) ->
      r.1 = NothingUnsendable
      /\ store r.2 = store w
      /\ outbox r.2
         = outbox w ++ [Told AuditWarning; Told AuditRunning]
           ++ map (fun b => Sent (channelId ses) (AuditBottle b))
                (get_bottle (in_range start end_) (store w))).
Proof.
  intros r.
  pose proof (delete_invalid_bottles_purges cfg env ses start end_ (store w) w
                eq_refl) as Hpurged.
  fold r in Hpurged. split; [|split; [|split; [|split; [|split]]]].
  - intros Hnot. subst r. unfold delete_invalid_bottles.
    rewrite decide_False by exact Hnot. reflexivity.
  - intros Hanswer. destruct r.1; try exact Hpurged. contradiction Hanswer.
    reflexivity.
  - apply delete_invalid_bottles_keeps_comments.
  - intros b Hb. unfold purged_bottles in Hpurged.
    destruct r.1; try (rewrite Hpurged in Hb; exact Hb).
    destruct Hpurged as (broken & _ & Hstore). rewrite Hstore in Hb.
    cbn in Hb. apply list_elem_of_filter in Hb. tauto.
  - intros b Hb Hout. unfold purged_bottles in Hpurged.
    destruct r.1; try (rewrite Hpurged; exact Hb).
    destruct Hpurged as (broken & Hbroken & Hstore). rewrite Hstore.
    cbn. apply list_elem_of_filter. split; [|exact Hb].
    intros Hin. destruct (Hbroken _ Hin) as (b' & _ & Hrange & Hid).
    apply Hout. apply (in_range_by_id start end_ b' b); congruence.
  - intros Hmanager Hend Hgt Hconfirm Hsend Hsleep. subst r. clear Hpurged.
    unfold delete_invalid_bottles. rewrite decide_True by exact Hmanager.
    rewrite Hend, Hgt. rewrite bind_run, session_send_run. cbn [fst snd].
    rewrite bind_run, prompt_run. cbn [fst snd clock]. rewrite Hconfirm.
    rewrite decide_False by (intros H; apply H; reflexivity).
    rewrite bind_run, session_send_run. cbn [fst snd].
    rewrite bind_run. unfold read_store. cbn [fst snd store].
    rewrite bind_run.
    match goal with
    | |- context [audit_bottles cfg env ses ?rows [] ?w1] =>
        destruct (audit_bottles_healthy cfg env ses rows Hsend Hsleep [] w1)
          as (w' & -> & Hstore & Hout)
    end.
    cbn [fst snd length]. rewrite decide_True by reflexivity.
    cbn [ret fst snd]. split; [reflexivity|]. split; [exact Hstore|].
    rewrite Hout. cbn [outbox]. rewrite <- !app_assoc. reflexivity.
Qed.

Lemma admin_audits_a_sendable_bottle :
  (delete_invalid_bottles example_cfg
     (example_env (fun _ => true) (fun _ => Some "是")) admin None None
     fresh_bottle).1 = NothingUnsendable
  /\ delete_invalid_bottles example_cfg healthy alice None None fresh_bottle
     = (AuditDenied, fresh_bottle).
Proof.
  destruct (audit_removes_only_bottles_in_range example_cfg
              (example_env (fun _ => true) (fun _ => Some "是")) admin None None
              fresh_bottle) as (_ & _ & _ & _ & _ & Hhealthy).
  destruct (audit_removes_only_bottles_in_range example_cfg healthy alice None None
              fresh_bottle) as (Hdenied & _).
  split.
  - apply Hhealthy; try reflexivity. left.
  - apply Hdenied. intros H. apply list_elem_of_singleton in H. discriminate.
Defined.

(** ** The audit of the comments *)

Lemma audit_comments_collects cfg env ses bid rows :
  forall broken,
    answers (fun r => match r with
                      | inl a => a = Returned \/ a = Exhausted
                      | inr broken' =>
                          forall i, i ∈ brokenCommentId broken' ->
                                    i ∈ brokenCommentId broken
                                    \/ i ∈ map Comment.id rows
                      end)
      (audit_comments cfg env ses bid rows broken).
Proof.
  induction rows as [|c rows IH]; intros broken; cbn [audit_comments].
  - apply answers_ret. intros i Hi. left. exact Hi.
  - eapply answers_bind; [apply answers_any|]. intros sent _.
    destruct sent as [[|]| | |]; try (apply answers_ret; auto).
    + eapply answers_weaken; [|apply IH]. cbn beta.
      intros [a|broken'] Hr; [exact Hr|]. intros i Hi.
      destruct (Hr i Hi) as [H|H]; [left; exact H|].
      right. cbn [map]. right. exact H.
    + eapply answers_weaken; [|apply IH]. cbn beta.
      intros [a|broken'] Hr; [exact Hr|]. intros i Hi.
      destruct (Hr i Hi) as [H|H].
      * cbn [brokenCommentId] in H.
        apply elem_of_app in H as [H|H]; [left; exact H|].
        apply list_elem_of_singleton in H as ->. right. left.
      * right. cbn [map]. right. exact H.
Qed.

(** The row ids that the audit collects are ids of comments of the
    bottles it was given. *)
Lemma audit_comments_of_collects cfg env ses s rows :
  forall broken,
    from s (fun r s' =>
              s' = s
              /\ match r with
                 | inl a => a = Returned \/ a = Exhausted
                 | inr broken' =>
                     forall i, i ∈ brokenCommentId broken' ->
                       i ∈ brokenCommentId broken
                       \/ exists c b, c ∈ comments s /\ b ∈ rows
                                      /\ Comment.bid c = Bottle.id b
                                      /\ Comment.id c = i
                 end)
      (audit_comments_of cfg env ses rows broken).
Proof.
  induction rows as [|b rows IH]; intros broken; cbn [audit_comments_of].
  - apply from_ret. split; [reflexivity|]. intros i Hi. left. exact Hi.
  - apply from_read_store.
    eapply from_answers;
      [apply reads_audit_comments | apply audit_comments_collects|].
    intros [a|broken1] Hfirst; [apply from_ret; auto|].
    intros w Hw. destruct (IH broken1 w Hw) as [Hstore Hrest].
    split; [exact Hstore|].
    destruct (audit_comments_of cfg env ses rows broken1 w).1 as [a|broken2];
      [exact Hrest|].
    intros i Hi. destruct (Hrest i Hi) as [H|(c & b' & Hc & Hb' & Hbid & Hid)].
    + destruct (Hfirst i H) as [H1|H1]; [left; exact H1|].
      right. apply list_elem_of_fmap in H1 as (c & -> & Hc).
      unfold get_comment in Hc. apply list_elem_of_filter in Hc as [Hbid Hc].
      exists c, b. split; [exact Hc|]. split; [left|]. auto.
    + right. exists c, b'. split; [exact Hc|]. split; [right; exact Hb'|]. auto.
Qed.

(** The comments of the bottles of the range. *)
Lemma delete_invalid_comments_purges cfg env ses start end_ s :
  from s (purged_comments
            (fun c => exists b, b ∈ bottles s /\ in_range start end_ b
                                /\ Comment.bid c = Bottle.id b) s)
    (delete_invalid_comments cfg env ses start end_).
Proof.
  unfold delete_invalid_comments.
  destruct (decide (is_manager cfg (userId ses))); [|apply from_ret; reflexivity].
  destruct (_ && _); [apply from_ret; reflexivity|].
  destruct (js_gt start end_); [apply from_ret; reflexivity|].
  apply from_reads; [apply reads_session_send|]. intros _.
  apply from_reads; [apply reads_prompt|]. intros confirm.
  destruct (decide (confirm <> Some "是")); [apply from_ret; reflexivity|].
  apply from_reads; [apply reads_session_send|]. intros _.
  apply from_read_store.
  eapply from_bind; [apply audit_comments_of_collects|].
  intros [a|broken] s1 [-> Hcollect].
  - apply from_ret. destruct Hcollect as [-> | ->]; reflexivity.
  - destruct (decide (length (brokenComment broken) = 0)%nat);
      [apply from_ret; reflexivity|].
    apply from_reads; [apply reads_session_send|]. intros _.
    apply from_reads; [apply reads_prompt|]. intros reply.
    destruct (decide (reply = Some "删除")); [|apply from_ret; reflexivity].
    apply from_with_store. apply from_ret. exists (brokenCommentId broken).
    split; [|reflexivity]. intros k Hk.
    destruct (Hcollect k Hk) as [H|(c & b & Hc & Hb & Hbid & Hid)]; [inversion H|].
    unfold get_bottle in Hb. apply list_elem_of_filter in Hb as [Hrange Hb].
    exists c. split; [exact Hc|]. split; [|exact Hid]. eauto.
Qed.

Lemma audit_comments_healthy cfg env ses bid rows :
  (forall n, send_ok env n = true) ->
  (forall n, sleep_ok env n = true) ->
  forall broken w,
    exists w',
      audit_comments cfg env ses bid rows broken w = (inr broken, w')
      /\ store w' = store w
      /\ outbox w'
         = outbox w ++ map (fun c => Sent (channelId ses) (AuditComment c)) rows.
Proof.
  intros Hsend Hsleep. induction rows as [|c rows IH]; intros broken w.
  - exists w. cbn. rewrite app_nil_r. auto.
  - cbn [audit_comments]. rewrite bind_run.
    assert (exists w1, audit_comment_send env ses c w = (Some true, w1)
                       /\ store w1 = store w
                       /\ outbox w1
                          = outbox w ++ [Sent (channelId ses) (AuditComment c)])
      as (w1 & Hattempt & Hstore & Hout).
    { unfold audit_comment_send. rewrite bind_run, sendMessage_delivers by apply Hsend.
      cbn [fst snd]. unfold sleep. rewrite !bind_run. cbn [tick ret fst snd].
      rewrite Hsleep. eexists. split; [reflexivity|]. split; reflexivity. }
    unfold retry_budget. rewrite (retrying_first _ _ _ _ _ _ _ _ _ Hattempt).
    cbn [fst snd].
    destruct (IH broken w1) as (w' & -> & Hstore' & Hout').
    exists w'. split; [reflexivity|]. split; [congruence|].
    rewrite Hout', Hout, <- app_assoc. reflexivity.
Qed.

Lemma audit_comments_of_healthy cfg env ses rows :
  (forall n, send_ok env n = true) ->
  (forall n, sleep_ok env n = true) ->
  forall broken w,
    exists w',
      audit_comments_of cfg env ses rows broken w = (inr broken, w')
      /\ store w' = store w
      /\ outbox w'
         = outbox w
           ++ mjoin (map (fun b =>
                            map (fun c => Sent (channelId ses) (AuditComment c))
                              (get_comment (fun c => Comment.bid c = Bottle.id b)
                                 (store w))) rows).
Proof.
  intros Hsend Hsleep. induction rows as [|b rows IH]; intros broken w.
  - exists w. cbn. rewrite app_nil_r. auto.
  - cbn [audit_comments_of]. rewrite bind_run, read_store_run.
    cbn [fst snd]. rewrite bind_run.
    destruct (audit_comments_healthy cfg env ses (Bottle.id b)
                (get_comment (fun c => Comment.bid c = Bottle.id b) (store w))
                Hsend Hsleep broken w) as (w1 & -> & Hstore & Hout).
    cbn [fst snd].
    destruct (IH broken w1) as (w' & -> & Hstore' & Hout').
    exists w'. split; [reflexivity|]. split; [congruence|].
    rewrite Hout', Hout, Hstore, <- app_assoc. reflexivity.
Qed.

Lemma same_id_same_comment (l : list Comment.t) (c c' : Comment.t) :
  NoDup (map Comment.id l) ->
  c ∈ l -> c' ∈ l -> Comment.id c = Comment.id c' -> c = c'.
Proof.
  induction l as [|a l IH]; intros Hnodup Hc Hc' Hid; [inversion Hc|].
  simpl in Hnodup. apply NoDup_cons in Hnodup as [Hfresh Hnodup].
  apply elem_of_cons in Hc as [->|Hc]; apply elem_of_cons in Hc' as [->|Hc'].
  - reflexivity.
  - exfalso. apply Hfresh. rewrite Hid. apply list_elem_of_fmap. eauto.
  - exfalso. apply Hfresh. rewrite <- Hid. apply list_elem_of_fmap. eauto.
  - apply IH; assumption.
Qed.

(** X16.  删除无效评论.  A caller who is no manager is refused, in the
    world as it was.  Whatever the transport and the caller answer, the
    audit leaves the bottle table as it is, counters of comments
    included, and adds no comment; it leaves the store as it was unless
    it answers "deleted"; and then, in a store whose comments have
    distinct ids, a comment stays unless it is a comment of a bottle of
    the range that was asked for.  With a transport that delivers, a
    manager who confirms gets the comments of every bottle of the range
    sent to the channel, once, bottle by bottle, after the warning and
    the notice that the audit runs; then the audit answers that nothing
    is unsendable, and the store is as it was. *)
Theorem audit_removes_only_comments_in_range (cfg : Config) (env : Env)
    (ses : Session) (start end_ : option Z) (w : World) :
  let r := delete_invalid_comments cfg env ses start end_ w in
  (~ is_manager cfg (userId ses) -> r = (CommentAuditDenied, w))
  /\ (r.1 <> UnsendableCommentsDeleted -> store r.2 = store w)
  /\ bottles (store r.2) = bottles (store w)
  /\ (forall c, c ∈ comments (store r.2) -> c ∈ comments (store w))
  /\ (NoDup (map Comment.id (comments (store w))) ->
      forall c, c ∈ comments (store w) ->
                (forall b, b ∈ bottles (store w) -> Comment.bid c = Bottle.id b ->
                           ~ in_range start end_ b) ->
                c ∈ comments (store r.2))
  /\ (is_manager cfg (userId ses) ->
      given start && bool_decide (end_ = None) = false ->
      js_gt start end_ = false ->
      prompted env (clock w) = Some "是" ->
      (forall n, send_ok env n = true) ->
      (forall n, sleep_ok env n = true) ->
      r.1 = NoCommentUnsendable
      /\ store r.2 = store w
      /\ outbox r.2
         = outbox w ++ [Told AuditWarning; Told AuditRunning]
           ++ mjoin (map (fun b =>
                            map (fun c => Sent (channelId ses) (AuditComment c))
                              (get_comment (fun c => Comment.bid c = Bottle.id b)
                                 (store w)))
                       (get_bottle (in_range start end_) (store w)))).
Proof.
  intros r.
  pose proof (delete_invalid_comments_purges cfg env ses start end_ (store w) w
                eq_refl) as Hpurged.
  fold r in Hpurged. unfold purged_comments in Hpurged.
  split; [|split; [|split; [|split; [|split]]]].
  - intros Hnot. subst r. unfold delete_invalid_comments.
    rewrite decide_False by exact Hnot. reflexivity.
  - intros Hanswer. destruct r.1; try exact Hpurged. contradiction Hanswer.
    reflexivity.
  - destruct r.1; try (rewrite Hpurged; reflexivity).
    destruct Hpurged as (broken & _ & ->). reflexivity.
  - intros c Hc. destruct r.1; try (rewrite Hpurged in Hc; exact Hc).
    destruct Hpurged as (broken & _ & Hstore). rewrite Hstore in Hc.
    cbn in Hc. apply list_elem_of_filter in Hc. tauto.
  - intros Hnodup c Hc Hout. destruct r.1; try (rewrite Hpurged; exact Hc).
    destruct Hpurged as (broken & Hbroken & Hstore). rewrite Hstore.
    cbn. apply list_elem_of_filter. split; [|exact Hc].
    intros Hin. destruct (Hbroken _ Hin) as (c' & Hc' & (b & Hb & Hrange & Hbid) & Hid).
    assert (c' = c) as -> by (eapply same_id_same_comment; eassumption).
    exact (Hout b Hb Hbid Hrange).
  - intros Hmanager Hend Hgt Hconfirm Hsend Hsleep. subst r. clear Hpurged.
    unfold delete_invalid_comments. rewrite decide_True by exact Hmanager.
    rewrite Hend, Hgt. rewrite bind_run, session_send_run. cbn [fst snd].
    rewrite bind_run, prompt_run. cbn [fst snd clock]. rewrite Hconfirm.
    rewrite decide_False by (intros H; apply H; reflexivity).
    rewrite bind_run, session_send_run. cbn [fst snd].
    rewrite bind_run. unfold read_store. cbn [fst snd store].
    rewrite bind_run.
    match goal with
    | |- context [audit_comments_of cfg env ses ?rows ?acc ?w1] =>
        destruct (audit_comments_of_healthy cfg env ses rows Hsend Hsleep acc w1)
          as (w' & -> & Hstore & Hout)
    end.
    cbn [fst snd length brokenComment]. rewrite decide_True by reflexivity.
    cbn [ret fst snd]. split; [reflexivity|]. split; [exact Hstore|].
    rewrite Hout. cbn [outbox store]. rewrite <- !app_assoc. reflexivity.
Qed.

Lemma admin_audits_a_sendable_comment :
  (delete_invalid_comments example_cfg
     (example_env (fun _ => true) (fun _ => Some "是")) admin None None
     one_bottle).1 = NoCommentUnsendable
  /\ delete_invalid_comments example_cfg healthy alice None None one_bottle
     = (CommentAuditDenied, one_bottle).
Proof.
  destruct (audit_removes_only_comments_in_range example_cfg
              (example_env (fun _ => true) (fun _ => Some "是")) admin None None
              one_bottle) as (_ & _ & _ & _ & _ & Hhealthy).
  destruct (audit_removes_only_comments_in_range example_cfg healthy alice None None
              one_bottle) as (Hdenied & _).
  split.
  - apply Hhealthy; try reflexivity. left.
  - apply Hdenied. intros H. apply list_elem_of_singleton in H. discriminate.
Defined.
